(** * Notebook loops of the Stable Diffusion and YOLO tutorials

    A shallow embedding of the logic the notebooks own:

    - [generate_images] (stable-diffusion-image-generation.ipynb), the batch
      loop that calls the diffusion pipeline and saves its images, and the
      call the notebook makes of it;
    - the upload cell of the same notebook, which globs the generated
      images and pushes each one through the Roboflow client;
    - the [EXP_DIR] expression of the YOLOv7 notebook, which picks the most
      recent run directory out of a directory listing;
    - the cells of the YOLOv7 and YOLOv5 notebooks that show the detections;
    - [writetemplate] of the YOLOv5 notebook, which formats a template with
      the globals and writes it to a file.

    Python values are modelled as the code has them: [int] is [Z], [str] is
    [string], a list is a [list].  Effects are explicit: a cell is a function
    from a world (the file system and the log of the calls that left the
    notebook) to an outcome and a new world, and an exception keeps the
    world in which it was raised.  The library functions the code leans on
    ([os.path.split], [os.path.join], [os.makedirs], [glob.glob],
    [str.replace], [str.format], [int], [sorted]) are written out after
    their sources and documentation.  The pretrained pipeline, the image
    encoder, the notebook display and the Roboflow client are black boxes
    whose outcomes are read from an oracle, so that every statement holds
    whatever they do.

    The file has three parts: the model (Python builtins, paths and the
    file system, the cells), the facts about it, and the properties of the
    code ([StableDiffusion], [YoloV7], then [GenerateRuns], [UploadRuns],
    [LatestRun], [YoloCells] and [WriteTemplate]). *)

From Stdlib Require Import ZArith List String Ascii Bool Arith Lia.
From Stdlib Require Import DecimalString DecimalZ Permutation Sorted.
Import ListNotations.

Local Open Scope string_scope.
Local Open Scope Z_scope.

(* ================================================================== *)
(** * Python values and builtins *)
(* ================================================================== *)

Module Py.

(** The exceptions the modelled code can meet.  [ExternalError] stands for
    whatever an external library raises; [RecursionError] is what the
    interpreter raises when a recursion runs out of stack. *)
Inductive exn : Type :=
| ZeroDivisionError
| ValueError
| IndexError
| FileExistsError
| FileNotFoundError
| NotADirectoryError
| IsADirectoryError
| RecursionError
| ExternalError (msg : string).

(** [except OSError] catches the file-system errors. *)
Definition is_OSError (e : exn) : bool :=
  match e with
  | FileExistsError | FileNotFoundError | NotADirectoryError
  | IsADirectoryError => true
  | _ => false
  end.

Inductive result (A : Type) : Type :=
| Ok (a : A)
| Raise (e : exn).
Arguments Ok {A} a.
Arguments Raise {A} e.

(** [str(k)] and the [{k}] of an f-string, for an [int]. *)
Definition str (k : Z) : string := NilZero.string_of_int (Z.to_int k).

(** [a // b]: floor division, [ZeroDivisionError] on a zero divisor. *)
Definition floordiv (a b : Z) : result Z :=
  if b =? 0 then Raise ZeroDivisionError else Ok (a / b).

(** [range(n)]: empty when [n <= 0]. *)
Definition range (n : Z) : list Z := map Z.of_nat (seq 0 (Z.to_nat n)).

(** [enumerate(xs)]. *)
Fixpoint enumerate_from {A : Type} (start : Z) (xs : list A) : list (Z * A) :=
  match xs with
  | [] => []
  | x :: xs' => (start, x) :: enumerate_from (start + 1) xs'
  end.
Definition enumerate {A : Type} (xs : list A) : list (Z * A) :=
  enumerate_from 0 xs.

(** [len(xs)]. *)
Definition len {A : Type} (xs : list A) : Z := Z.of_nat (List.length xs).

(** [xs[-1]]. *)
Fixpoint last_item {A : Type} (xs : list A) : result A :=
  match xs with
  | [] => Raise IndexError
  | [x] => Ok x
  | _ :: xs' => last_item xs'
  end.

(** [s.endswith(suffix)] and [s.startswith(prefix)]. *)
Fixpoint endswith (s suffix : string) : bool :=
  String.eqb s suffix ||
  match s with
  | EmptyString => false
  | String _ s' => endswith s' suffix
  end.
Fixpoint startswith (s pre : string) {struct pre} : bool :=
  match pre with
  | EmptyString => true
  | String p pre' =>
      match s with
      | EmptyString => false
      | String c s' => Ascii.eqb p c && startswith s' pre'
      end
  end.

(** [s.replace(old, new)] for a non-empty [old]: occurrences are found left
    to right and do not overlap.  [skip] counts the characters of a match
    still to be dropped. *)
Fixpoint replace_from (old new : string) (skip : nat) (s : string) : string :=
  match s with
  | EmptyString => EmptyString
  | String c s' =>
      match skip with
      | S k => replace_from old new k s'
      | O =>
          if startswith s old
          then new ++ replace_from old new (Nat.pred (String.length old)) s'
          else String c (replace_from old new 0 s')
      end
  end.
Definition replace (s old new : string) : string := replace_from old new 0 s.

(** ** [int(s)] for a [str] in base 10

    White space around the numeral is dropped, one sign is allowed, and
    single underscores may separate digits.  Strings are ASCII strings here:
    the digits are [0] to [9] and the white space is the blank and the
    characters 9 to 13, which is what the interpreter accepts in an ASCII
    string (the separators 28 to 31 are white space for [str.isspace] but
    not for [int]).  In a string with other characters the interpreter
    also reads the decimal digits and the white space of other scripts;
    that is not modelled, and what [int] rejects is stated of ASCII
    strings.  The interpreter's cap on the length of a numeral lies far
    beyond the length of a directory entry and is left out. *)

Definition is_space (c : ascii) : bool :=
  let n := nat_of_ascii c in
  ((9 <=? n) && (n <=? 13) || (n =? 32))%nat.

Definition is_digit (c : ascii) : bool :=
  let n := nat_of_ascii c in ((48 <=? n) && (n <=? 57))%nat.

Definition digit_value (c : ascii) : Z := Z.of_nat (nat_of_ascii c - 48).

(** [s.isascii()]: a string is the bytes of its UTF-8 encoding, and the
    ASCII characters are the bytes below 128. *)
Fixpoint isascii (s : string) : bool :=
  match s with
  | EmptyString => true
  | String c s' => (nat_of_ascii c <? 128)%nat && isascii s'
  end.

Fixpoint lstrip (s : string) : string :=
  match s with
  | EmptyString => EmptyString
  | String c s' => if is_space c then lstrip s' else s
  end.

Fixpoint rstrip (s : string) : string :=
  match s with
  | EmptyString => EmptyString
  | String c s' =>
      match rstrip s' with
      | EmptyString => if is_space c then EmptyString else String c EmptyString
      | r => String c r
      end
  end.

Definition strip (s : string) : string := lstrip (rstrip s).

(** The digits of a numeral, most significant first.  [prev] records that
    the previous character was a digit: a numeral starts and ends with a
    digit, and an underscore needs a digit on both sides. *)
Fixpoint digits_from (prev : bool) (acc : Z) (s : string) : option Z :=
  match s with
  | EmptyString => if prev then Some acc else None
  | String c s' =>
      if is_digit c then digits_from true (10 * acc + digit_value c) s'
      else if Ascii.eqb c "_" && prev then digits_from false acc s'
      else None
  end.

Definition int_of_str (s : string) : result Z :=
  let t := strip s in
  let signed :=
    match t with
    | EmptyString => None
    | String c r =>
        if Ascii.eqb c "+" then digits_from false 0 r
        else if Ascii.eqb c "-" then option_map Z.opp (digits_from false 0 r)
        else digits_from false 0 t
    end in
  match signed with
  | Some v => Ok v
  | None => Raise ValueError
  end.

(** ** [sorted(xs, key=...)]

    The keys are computed first, one call per element in list order, and an
    exception of the key function ends the sort.  The sort is stable. *)

Fixpoint map_result {A B : Type} (f : A -> result B) (xs : list A)
  : result (list B) :=
  match xs with
  | [] => Ok []
  | x :: xs' =>
      match f x with
      | Raise e => Raise e
      | Ok y =>
          match map_result f xs' with
          | Raise e => Raise e
          | Ok ys => Ok (y :: ys)
          end
      end
  end.

Fixpoint insert_keyed {A : Type} (k : Z) (x : A) (l : list (Z * A))
  : list (Z * A) :=
  match l with
  | [] => [(k, x)]
  | (k', y) :: l' =>
      if k <=? k' then (k, x) :: l else (k', y) :: insert_keyed k x l'
  end.

Fixpoint sort_keyed {A : Type} (l : list (Z * A)) : list (Z * A) :=
  match l with
  | [] => []
  | (k, x) :: l' => insert_keyed k x (sort_keyed l')
  end.

Definition sorted {A : Type} (xs : list A) (key : A -> result Z)
  : result (list A) :=
  match map_result key xs with
  | Raise e => Raise e
  | Ok ks => Ok (map snd (sort_keyed (combine ks xs)))
  end.

End Py.

(* ================================================================== *)
(** * POSIX paths and the file system *)
(* ================================================================== *)

Module Posix.
Import Py.

(** ** [os.path]

    Paths are the strings the code builds, split and joined as [posixpath]
    does it.  What a path names is settled further down, by [resolve]. *)

(** [head.rstrip('/')]. *)
Fixpoint rstrip_sep (s : string) : string :=
  match s with
  | EmptyString => EmptyString
  | String c s' =>
      match rstrip_sep s' with
      | EmptyString =>
          if Ascii.eqb c "/" then EmptyString else String c EmptyString
      | r => String c r
      end
  end.

(** [(p[:i], p[i:])] for [i = p.rfind('/') + 1]. *)
Fixpoint split_last_sep (p : string) : string * string :=
  match p with
  | EmptyString => (EmptyString, EmptyString)
  | String c p' =>
      match split_last_sep p' with
      | (EmptyString, t) =>
          if Ascii.eqb c "/" then (String c EmptyString, t)
          else (EmptyString, String c t)
      | (h, t) => (String c h, t)
      end
  end.

(** [os.path.split(p)]: the head loses its trailing separators unless it
    consists of separators only. *)
Definition path_split (p : string) : string * string :=
  let (head, tail) := split_last_sep p in
  match rstrip_sep head with
  | EmptyString => (head, tail)
  | stripped => (stripped, tail)
  end.

(** A name has no separator in it; [slashes n] is [n] separators. *)
Fixpoint no_sep (t : string) : bool :=
  match t with
  | EmptyString => true
  | String c t' => negb (Ascii.eqb c "/") && no_sep t'
  end.

Fixpoint slashes (n : nat) : string :=
  match n with
  | O => EmptyString
  | S n' => String "/" (slashes n')
  end.

(** [os.path.join(a, b)]. *)
Definition path_join (a b : string) : string :=
  if startswith b "/" then b
  else if String.eqb a "" || endswith a "/" then a ++ b
  else a ++ "/" ++ b.

(** ** The file system

    A location is what a spelling resolves to: whether it starts at the
    root, and the names on the way.  Empty names and [.] name nothing, so
    ["out"], ["out/"], ["./out"] and ["out//."] are one location.  The
    spellings still differ in what they ask for: one that ends in a
    separator or in [.] names a directory or nothing.  Symbolic links and
    [..] are not interpreted.

    The file system is an association list from location to node, in the
    order in which the operating system enumerates entries; a new entry
    goes last.  The root and the working directory are always there. *)

(** [s.split('/')]. *)
Fixpoint split_sep (s : string) : list string :=
  match s with
  | EmptyString => [EmptyString]
  | String c s' =>
      if Ascii.eqb c "/" then EmptyString :: split_sep s'
      else
        match split_sep s' with
        | x :: rest => String c x :: rest
        | [] => [String c EmptyString]
        end
  end.

Definition real_name (x : string) : bool :=
  negb (String.eqb x "") && negb (String.eqb x ".").

Definition names (p : string) : list string :=
  filter real_name (split_sep p).

Definition location : Type := bool * list string.

Definition resolve (p : string) : location := (startswith p "/", names p).

(** The components the walk goes through, [.] included. *)
Definition steps (p : string) : list string :=
  filter (fun x => negb (String.eqb x "")) (split_sep p).

(** The walk ends in [.]: it has to arrive in a directory. *)
Definition ends_in_dot (p : string) : bool :=
  String.eqb (last (steps p) "") ".".

(** The spelling names a directory or nothing. *)
Definition asks_dir (p : string) : bool := endswith p "/" || ends_in_dot p.

Definition location_eq_dec (k k' : location) : {k = k'} + {k <> k'}.
Proof.
  decide equality.
  - apply (list_eq_dec string_dec).
  - apply Bool.bool_dec.
Defined.

Inductive node : Type :=
| File (data : string)
| Dir.

Definition filesystem : Type := list (location * node).

Fixpoint lookup (k : location) (f : filesystem) : option node :=
  match f with
  | [] => None
  | (k', n) :: f' => if location_eq_dec k k' then Some n else lookup k f'
  end.

Fixpoint write (k : location) (n : node) (f : filesystem) : filesystem :=
  match f with
  | [] => [(k, n)]
  | (k', m) :: f' =>
      if location_eq_dec k k' then (k', n) :: f' else (k', m) :: write k n f'
  end.

(** The directory a location is an entry of. *)
Definition parent (k : location) : location := (fst k, removelast (snd k)).

(** The directories on the way to a location, the location included. *)
Definition lineage (k : location) : list location :=
  map (fun i => (fst k, firstn (S i) (snd k))) (seq 0 (List.length (snd k))).

(** The root and the working directory. *)
Definition anchor (k : location) : bool :=
  match snd k with
  | [] => true
  | _ :: _ => false
  end.

Definition exists_at (f : filesystem) (k : location) : bool :=
  anchor k ||
  match lookup k f with
  | Some _ => true
  | None => false
  end.

Definition dir_at (f : filesystem) (k : location) : bool :=
  anchor k ||
  match lookup k f with
  | Some Dir => true
  | _ => false
  end.

(** Why a walk does not arrive: a file on the way, or a missing name. *)
Definition is_file (f : filesystem) (k : location) : bool :=
  match lookup k f with
  | Some (File _) => true
  | _ => false
  end.

Definition walk_error (f : filesystem) (k : location) : exn :=
  if existsb (is_file f) (lineage k) then NotADirectoryError
  else FileNotFoundError.

(** [os.path.exists(p)] and [os.path.isdir(p)]; the empty spelling names
    nothing, and a file is not found under a spelling that asks for a
    directory. *)
Definition path_exists (f : filesystem) (p : string) : bool :=
  negb (String.eqb p "") && exists_at f (resolve p) &&
  (negb (asks_dir p) || dir_at f (resolve p)).

Definition isdir (f : filesystem) (p : string) : bool :=
  negb (String.eqb p "") && dir_at f (resolve p).

(** The state of the place where an entry is about to be made. *)
Definition check_parent (f : filesystem) (k : location) : result unit :=
  if dir_at f (parent k) then Ok tt else Raise (walk_error f (parent k)).

(** [os.mkdir(name)].  Permissions, quotas, read-only mounts, the limits
    on the length of a name and names with a NUL character are not
    modelled: a directory can be made wherever its parent is a directory,
    so that nothing is stated here of when the operating system lets a
    directory be made.  Under a spelling that ends in [.] nothing is made:
    the directory is there already or the walk fails. *)
Definition mkdir (name : string) (f : filesystem) : result filesystem :=
  if String.eqb name "" then Raise FileNotFoundError
  else if ends_in_dot name then
    if dir_at f (resolve name) then Raise FileExistsError
    else Raise (walk_error f (resolve name))
  else if exists_at f (resolve name) then Raise FileExistsError
  else
    match check_parent f (resolve name) with
    | Raise e => Raise e
    | Ok _ => Ok (f ++ [(resolve name, Dir)])%list
    end.

(** [open(name, "w+b")] followed by writing [data]. *)
Definition write_file (name data : string) (f : filesystem)
  : result filesystem :=
  if String.eqb name "" then Raise FileNotFoundError
  else if dir_at f (resolve name) then Raise IsADirectoryError
  else if ends_in_dot name then Raise (walk_error f (resolve name))
  else
    match check_parent f (resolve name) with
    | Raise e => Raise e
    | Ok _ =>
        if endswith name "/" then Raise IsADirectoryError
        else Ok (write (resolve name) (File data) f)
    end.

(** The name an entry has in the directory [d], if it is an entry of it. *)
Definition entry_name (d k : location) : option string :=
  match snd k with
  | [] => None
  | x :: rest =>
      if location_eq_dec (parent k) d then Some (last rest x) else None
  end.

(** The names of the entries of directory [d], in enumeration order. *)
Definition scandir (f : filesystem) (d : location) : list string :=
  flat_map
    (fun entry =>
       match entry_name d (fst entry) with
       | Some name => [name]
       | None => []
       end)
    f.

(** [os.listdir(d)]. *)
Definition listdir (f : filesystem) (d : string) : result (list string) :=
  if isdir f d then Ok (scandir f (resolve d))
  else if String.eqb d "" then Raise FileNotFoundError
  else Raise (walk_error f (resolve d)).

(** ** [glob] *)

(** [glob.has_magic]: the pattern holds one of [*], [?], [[]. *)
Fixpoint has_magic (s : string) : bool :=
  match s with
  | EmptyString => false
  | String c s' =>
      Ascii.eqb c "*" || Ascii.eqb c "?" || Ascii.eqb c "[" || has_magic s'
  end.

(** [glob._ishidden]. *)
Definition ishidden (name : string) : bool := startswith name ".".

(** Some tail of [name], the whole of it included, satisfies [rest]: how
    a [*] is matched. *)
Fixpoint some_tail (rest : string -> bool) (name : string) : bool :=
  rest name ||
  match name with
  | EmptyString => false
  | String _ name' => some_tail rest name'
  end.

(** [fnmatch.fnmatchcase(name, pat)] for patterns made of [*], [?] and
    literal characters.  Bracket expressions do not occur in the notebooks'
    patterns and are not interpreted. *)
Fixpoint fnmatch (pat name : string) {struct pat} : bool :=
  match pat with
  | EmptyString => String.eqb name ""
  | String p pat' =>
      if Ascii.eqb p "*" then some_tail (fnmatch pat') name
      else
        match name with
        | EmptyString => false
        | String c name' =>
            (Ascii.eqb p "?" || Ascii.eqb p c) && fnmatch pat' name'
        end
  end.

(** [glob._glob1]: the entries of [dirname] (of the working directory
    when it is empty) that match [pattern]; a directory that cannot be
    listed has no entries, and hidden names are left out unless the pattern
    itself starts with a dot. *)
Definition glob1 (f : filesystem) (dirname pattern : string) : list string :=
  let names :=
    match listdir f (if String.eqb dirname "" then "." else dirname) with
    | Ok names => names
    | Raise _ => []
    end in
  let names :=
    if ishidden pattern then names
    else filter (fun x => negb (ishidden x)) names in
  filter (fnmatch pattern) names.

(** [glob._glob0]: a literal last component. *)
Definition glob0 (f : filesystem) (dirname basename : string) : list string :=
  if String.eqb basename "" then
    if isdir f dirname then [basename] else []
  else
    if path_exists f (path_join dirname basename) then [basename] else [].

(** [glob.glob(pathname)] for an absolute or relative pathname.  When the
    directory part itself holds wildcards the library expands it
    recursively; that expansion is passed in as [expand_dirs]. *)
Definition glob (expand_dirs : string -> list string)
    (f : filesystem) (pathname : string) : list string :=
  let (dirname, basename) := path_split pathname in
  if negb (has_magic pathname) then
    if negb (String.eqb basename "") then
      if path_exists f pathname then [pathname] else []
    else
      if isdir f dirname then [pathname] else []
  else if String.eqb dirname "" then
    glob1 f dirname basename
  else
    let dirs :=
      if negb (String.eqb dirname pathname) && has_magic dirname
      then expand_dirs dirname
      else [dirname] in
    let glob_in_dir := if has_magic basename then glob1 else glob0 in
    flat_map
      (fun d => map (path_join d) (glob_in_dir f d basename))
      dirs.

End Posix.

(* ================================================================== *)
(** * Worlds, external calls and the cell monad *)
(* ================================================================== *)

Import Py Posix.

(** A PIL image, known by the PNG file its [save] produces. *)
Record pil_image : Type := { png_bytes : string }.

(** [IPython.display.Image(filename=..., width=..., height=...)]. *)
Record display_image : Type :=
  Image { filename : string; width : Z; height : Z }.

(** The calls that leave the notebook, in the order they are made.  A call
    is logged when it is made, whether or not it then raises; a pipeline
    call is logged with what it gave back. *)
Inductive event : Type :=
| PipelineCall (prompt : string) (num_images_per_prompt guidance_scale : Z)
               (outcome : result (list pil_image))
| ImageSave (image : pil_image) (image_name : string)
| Display (shown : display_image)
| RoboflowLogin (api_key : string)
| WorkspaceProject (project_name : string)
| Upload (image_path : string) (num_retry_uploads : Z)
| PrintLine (line : string).

Record world : Type := { fs : filesystem; trace : list event }.

Definition set_fs (f : filesystem) (w : world) : world :=
  {| fs := f; trace := trace w |}.

Definition log_event (e : event) (w : world) : world :=
  {| fs := fs w; trace := (trace w ++ [e])%list |}.

(** What the black boxes do, as a function of the world they are called
    in: the pipeline returns images or raises, the others succeed ([None])
    or raise.  A save that raises says what it leaves in the file: nothing
    of its own ([None]: it failed before the file was opened, or removed
    the file it had made), or the data written so far.  [glob_dirs] is the
    library's expansion of a wildcard directory part. *)
Record externals : Type := {
  pipeline_outcome : world -> string -> Z -> Z -> result (list pil_image);
  save_outcome :
    world -> pil_image -> string -> option (exn * option string);
  display_outcome : world -> display_image -> option exn;
  login_outcome : world -> string -> option exn;
  project_outcome : world -> string -> option exn;
  upload_outcome : world -> string -> Z -> option exn;
  glob_dirs : world -> string -> list string
}.

(** A cell: state passing with exceptions.  The world reached when an
    exception is raised is kept. *)
Definition M (A : Type) : Type := world -> result A * world.

Definition ret {A : Type} (a : A) : M A := fun w => (Ok a, w).

Definition raise {A : Type} (e : exn) : M A := fun w => (Raise e, w).

Definition bind {A B : Type} (m : M A) (k : A -> M B) : M B :=
  fun w =>
    match m w with
    | (Ok a, w') => k a w'
    | (Raise e, w') => (Raise e, w')
    end.

Declare Scope cell_scope.
Delimit Scope cell_scope with cell.
Notation "x <- m ;; k" := (bind m (fun x => k))
  (at level 61, m at next level, right associativity) : cell_scope.
Notation "m ;; k" := (bind m (fun _ => k))
  (at level 61, right associativity) : cell_scope.
Local Open Scope cell_scope.

(** [try: m  except: handler]. *)
Definition try_except {A : Type} (m : M A) (handler : exn -> M A) : M A :=
  fun w =>
    match m w with
    | (Ok a, w') => (Ok a, w')
    | (Raise e, w') => handler e w'
    end.

Definition lift {A : Type} (r : result A) : M A := fun w => (r, w).

(** [for x in xs: body(x)]. *)
Fixpoint for_each {A : Type} (xs : list A) (body : A -> M unit) : M unit :=
  match xs with
  | [] => ret tt
  | x :: xs' => body x ;; for_each xs' body
  end.

(** A relation between the world before and the world after that a cell
    keeps, however it ends. *)
Definition preserves {A : Type} (R : world -> world -> Prop) (m : M A)
  : Prop :=
  forall w r w', m w = (r, w') -> R w w'.

(** An external call that returns nothing. *)
Definition call (e : event) (outcome : world -> option exn) : M unit :=
  fun w =>
    match outcome w with
    | None => (Ok tt, log_event e w)
    | Some err => (Raise err, log_event e w)
    end.

(** ** File-system calls *)

Definition os_path_exists (p : string) : M bool :=
  fun w => (Ok (path_exists (fs w) p), w).

Definition os_path_isdir (p : string) : M bool :=
  fun w => (Ok (isdir (fs w) p), w).

Definition os_mkdir (name : string) : M unit :=
  fun w =>
    match mkdir name (fs w) with
    | Ok f' => (Ok tt, set_fs f' w)
    | Raise e => (Raise e, w)
    end.

Definition os_listdir (d : string) : M (list string) :=
  fun w => (listdir (fs w) d, w).

(** The head and tail [os.makedirs] works with: a name that ends in a
    separator is split once more. *)
Definition split_leaf (name : string) : string * string :=
  let (head, tail) := path_split name in
  if String.eqb tail "" then path_split head else (head, tail).

(** [head and tail and not path.exists(head)]. *)
Definition parents_missing (head tail : string) : M bool :=
  fun w =>
    (Ok (negb (String.eqb head "") && negb (String.eqb tail "") &&
         negb (path_exists (fs w) head)), w).

(** The last step of [os.makedirs]: [mkdir(name)], where an [OSError] is
    let through unless [exist_ok] holds and the directory is there. *)
Definition make_leaf (name : string) (exist_ok : bool) : M unit :=
  try_except (os_mkdir name)
    (fun e =>
       if is_OSError e then
         is_dir <- os_path_isdir name ;;
         if negb exist_ok || negb is_dir then raise e else ret tt
       else raise e).

(** [os.makedirs(name, exist_ok=exist_ok)].  The library function recurses
    on the head of the name; [fuel] bounds the depth, and [os_makedirs]
    gives enough of it for any name.  The interpreter's own limit on the
    depth of a recursion, which a name of many hundred missing directories
    would meet, is not modelled. *)
Fixpoint makedirs_rec (fuel : nat) (name : string) (exist_ok : bool)
  : M unit :=
  match fuel with
  | O => raise RecursionError
  | S fuel' =>
      let (head, tail) := split_leaf name in
      missing <- parents_missing head tail ;;
      if missing then
        try_except (makedirs_rec fuel' head exist_ok)
          (fun e =>
             match e with
             | FileExistsError => ret tt
             | _ => raise e
             end) ;;
        if String.eqb tail "." then ret tt else make_leaf name exist_ok
      else make_leaf name exist_ok
  end.

Definition os_makedirs (name : string) (exist_ok : bool) : M unit :=
  makedirs_rec (S (String.length name)) name exist_ok.

(* ================================================================== *)
(** * stable-diffusion-image-generation.ipynb *)
(* ================================================================== *)

Section Notebook.

Context (ext : externals).

(** [pipeline(prompt, num_images_per_prompt=..., guidance_scale=...)];
    the value is the [.images] of the output.  The call is logged and
    leaves the files alone. *)
Definition pipeline (prompt : string)
    (num_images_per_prompt guidance_scale : Z) : M (list pil_image) :=
  fun w =>
    let outcome :=
      pipeline_outcome ext w prompt num_images_per_prompt guidance_scale in
    (outcome,
     log_event
       (PipelineCall prompt num_images_per_prompt guidance_scale outcome) w).

(** [image.save(image_name)]: the library may raise before it opens the
    file; otherwise the file is opened for writing, which the file system
    may refuse, and receives the PNG, or what the encoder wrote before it
    raised. *)
Definition image_save (image : pil_image) (image_name : string) : M unit :=
  fun w =>
    let logged := log_event (ImageSave image image_name) w in
    match save_outcome ext w image image_name with
    | Some (e, None) => (Raise e, logged)
    | Some (e, Some partial) =>
        match write_file image_name partial (fs w) with
        | Ok f' => (Raise e, set_fs f' logged)
        | Raise e' => (Raise e', logged)
        end
    | None =>
        match write_file image_name (png_bytes image) (fs w) with
        | Ok f' => (Ok tt, set_fs f' logged)
        | Raise e' => (Raise e', logged)
        end
    end.

(** [display(Image(...))]. *)
Definition display (shown : display_image) : M unit :=
  call (Display shown) (fun w => display_outcome ext w shown).

(** The name of the [k]-th image: [f"{output_dir}/image_{k}.png"]. *)
Definition image_path (output_dir : string) (k : Z) : string :=
  output_dir ++ "/image_" ++ str k ++ ".png".

(** Its last component. *)
Definition image_basename (k : Z) : string := "image_" ++ str k ++ ".png".

(** The body of the inner loop: [for idx, image in enumerate(...)]. *)
Definition persist (num_images_per_prompt : Z) (output_dir : string)
    (display_images : bool) (i : Z) (item : Z * pil_image) : M unit :=
  let (idx, image) := item in
  let image_name :=
    image_path output_dir (i * num_images_per_prompt + idx) in
  image_save image image_name ;;
  if display_images
  then display (Image image_name 128 128)
  else ret tt.

(** The body of the outer loop: [for i in range(num_iterations)]. *)
Definition generate_batch (prompt : string)
    (num_images_per_prompt guidance_scale : Z) (output_dir : string)
    (display_images : bool) (i : Z) : M unit :=
  images <- pipeline prompt num_images_per_prompt guidance_scale ;;
  for_each (enumerate images)
    (persist num_images_per_prompt output_dir display_images i).

Definition generate_images (prompt : string) (num_images_to_generate : Z)
    (num_images_per_prompt guidance_scale : Z) (output_dir : string)
    (display_images : bool) : M unit :=
  num_iterations <-
    lift (floordiv num_images_to_generate num_images_per_prompt) ;;
  os_makedirs output_dir true ;;
  for_each (range num_iterations)
    (generate_batch prompt num_images_per_prompt guidance_scale output_dir
       display_images).

(** The defaults of the signature: [num_images_per_prompt=4],
    [guidance_scale=8], [output_dir="generated_images"],
    [display_images=False]. *)
Definition generate_images_default (prompt : string)
    (num_images_to_generate : Z) : M unit :=
  generate_images prompt num_images_to_generate 4 8 "generated_images" false.

(** ** The upload cell *)

Definition Roboflow (api_key : string) : M unit :=
  call (RoboflowLogin api_key) (fun w => login_outcome ext w api_key).

Definition workspace_project (project_name : string) : M unit :=
  call (WorkspaceProject project_name)
       (fun w => project_outcome ext w project_name).

Definition upload (image_path : string) (num_retry_uploads : Z) : M unit :=
  call (Upload image_path num_retry_uploads)
       (fun w => upload_outcome ext w image_path num_retry_uploads).

Definition print (line : string) : M unit :=
  fun w => (Ok tt, log_event (PrintLine line) w).

Definition glob_glob (pathname : string) : M (list string) :=
  fun w => (Ok (glob (glob_dirs ext w) (fs w) pathname), w).

(** The line printed after an upload. *)
Definition progress_line (image_glob : list string) (image : string)
  : string :=
  "*** Processing image [" ++ str (len image_glob) ++ "] - " ++ image
  ++ " ***".

(** The body of [for image in image_glob]. *)
Definition upload_one (image_glob : list string) (image : string) : M unit :=
  upload image 3 ;;
  print (progress_line image_glob image).

Definition upload_loop (image_glob : list string) : M unit :=
  for_each image_glob (upload_one image_glob).

(** The cell, from [image_dir = ...] to the end of the loop.  [HOME] is
    the working directory recorded by the previous cell; the API key and
    the project name are the reader's. *)
Definition upload_cell (HOME api_key project_name : string) : M unit :=
  let image_dir := path_join (path_join HOME "generated_images") "" in
  let file_extension_type := ".png" in
  Roboflow api_key ;;
  workspace_project project_name ;;
  image_glob <- glob_glob (image_dir ++ "/*" ++ file_extension_type) ;;
  upload_loop image_glob.

End Notebook.

(* ================================================================== *)
(** * The YOLOv7 notebook: the most recent run directory *)
(* ================================================================== *)

(** [lambda x: int(x.replace("exp", "") or 0)]. *)
Definition run_number (x : string) : result Z :=
  let suffix := replace x "exp" "" in
  if String.eqb suffix "" then Ok 0 else int_of_str suffix.

(** [sorted(listing, key=...)[-1]]. *)
Definition latest_run (listing : list string) : result string :=
  match sorted listing run_number with
  | Raise e => Raise e
  | Ok ordered => last_item ordered
  end.

(** [EXP_DIR = sorted(os.listdir(runs), key=...)[-1]]. *)
Definition EXP_DIR (runs : string) : M string :=
  listing <- os_listdir runs ;;
  lift (latest_run listing).

(** The order [sorted] puts keyed elements in. *)
Definition key_le {A : Type} (a b : Z * A) : Prop := fst a <= fst b.

(** A decimal numeral, possibly empty, and its value; the empty numeral
    counts as 0. *)
Fixpoint all_digits (s : string) : bool :=
  match s with
  | EmptyString => true
  | String c s' => is_digit c && all_digits s'
  end.

Fixpoint value_from (acc : Z) (s : string) : Z :=
  match s with
  | EmptyString => acc
  | String c s' => value_from (10 * acc + digit_value c) s'
  end.

Definition numeral_value (s : string) : Z := value_from 0 s.

(** [int] accepts the string. *)
Definition numeric (s : string) : bool :=
  match int_of_str s with
  | Ok _ => true
  | Raise _ => false
  end.

(** An ASCII character that no numeral holds: neither a digit, an
    underscore, a sign nor white space. *)
Definition stray (c : ascii) : bool :=
  (nat_of_ascii c <? 128)%nat && negb (is_digit c) && negb (is_space c) &&
  negb (Ascii.eqb c "_") && negb (Ascii.eqb c "+") && negb (Ascii.eqb c "-").

(* ================================================================== *)
(** * Reading a log *)
(* ================================================================== *)

(** How many times the pipeline was called. *)
Fixpoint pipeline_calls (t : list event) : nat :=
  match t with
  | [] => O
  | PipelineCall _ _ _ _ :: t' => S (pipeline_calls t')
  | _ :: t' => pipeline_calls t'
  end.

(** The images the pipeline gave back, call after call. *)
Fixpoint returned_images (t : list event) : list pil_image :=
  match t with
  | [] => []
  | PipelineCall _ _ _ (Ok images) :: t' => (images ++ returned_images t')%list
  | _ :: t' => returned_images t'
  end.

(** The images handed to [save] and the names they were saved under. *)
Fixpoint saves (t : list event) : list (pil_image * string) :=
  match t with
  | [] => []
  | ImageSave image image_name :: t' => (image, image_name) :: saves t'
  | _ :: t' => saves t'
  end.

Definition saved_images (t : list event) : list pil_image :=
  map fst (saves t).

Definition saved_paths (t : list event) : list string :=
  map snd (saves t).

(** The upload calls: path and retry count. *)
Fixpoint uploads (t : list event) : list (string * Z) :=
  match t with
  | [] => []
  | Upload image_path retries :: t' => (image_path, retries) :: uploads t'
  | _ :: t' => uploads t'
  end.

(** The printed lines. *)
Fixpoint printed (t : list event) : list string :=
  match t with
  | [] => []
  | PrintLine line :: t' => line :: printed t'
  | _ :: t' => printed t'
  end.

(** The calls one completed iteration of [generate_images] makes, given
    the images the pipeline returned in it. *)
Definition persist_events (num_images_per_prompt : Z) (output_dir : string)
    (display_images : bool) (i : Z) (item : Z * pil_image) : list event :=
  let image_name :=
    image_path output_dir (i * num_images_per_prompt + fst item) in
  ImageSave (snd item) image_name ::
  (if display_images then [Display (Image image_name 128 128)] else []).

Definition batch_events (prompt : string)
    (num_images_per_prompt guidance_scale : Z) (output_dir : string)
    (display_images : bool) (i : Z) (images : list pil_image) : list event :=
  PipelineCall prompt num_images_per_prompt guidance_scale (Ok images) ::
  flat_map (persist_events num_images_per_prompt output_dir display_images i)
    (enumerate images).

(** The calls a completed run of the loop of [generate_images] makes,
    given the batches of images the pipeline returned, in order. *)
Definition run_events (prompt : string)
    (num_images_per_prompt guidance_scale : Z) (output_dir : string)
    (display_images : bool) (batches : list (list pil_image)) : list event :=
  List.concat
    (map
       (fun batch =>
          batch_events prompt num_images_per_prompt guidance_scale
            output_dir display_images (fst batch) (snd batch))
       (enumerate batches)).

(** The indices under which the images of the batches are saved, the
    first batch being that of iteration [s]. *)
Definition indices_from (b s : Z) (batches : list (list pil_image))
  : list Z :=
  List.concat
    (map (fun batch =>
            map (fun idx => fst batch * b + idx) (range (len (snd batch))))
         (enumerate_from s batches)).

Definition run_indices (num_images_per_prompt : Z)
    (batches : list (list pil_image)) : list Z :=
  indices_from num_images_per_prompt 0 batches.

(** The calls one completed iteration of the upload loop makes. *)
Definition upload_events (image_glob : list string) (image : string)
  : list event :=
  [Upload image 3; PrintLine (progress_line image_glob image)].

(** A step of the file system that only makes directories, all of them
    among [made]. *)
Definition made_dirs (made : list location) (f f' : filesystem) : Prop :=
  forall q,
    lookup q f' = lookup q f \/
    (In q made /\ lookup q f = None /\ lookup q f' = Some Dir).

(** A step of the world that logs nothing and only makes directories. *)
Definition makes_dirs (made : list location) (w w' : world) : Prop :=
  trace w' = trace w /\ made_dirs made (fs w) (fs w').



Definition keeps_dirs (w w' : world) : Prop :=
  forall q, dir_at (fs w) q = true -> dir_at (fs w') q = true.

Definition extends_log (w w' : world) : Prop :=
  exists new, trace w' = (trace w ++ new)%list.


(** The spelling goes through [..].  What such a spelling names depends
    on the directories that are there, which [resolve] takes no account
    of: which locations a call leaves alone is stated for spellings that
    do not climb. *)
Definition climbs (p : string) : bool :=
  existsb (String.eqb "..") (split_sep p).

(** The directory the upload cell globs in. *)
Definition upload_dir (HOME : string) : string :=
  path_join HOME "generated_images".

(** The pattern the upload cell globs with, and the world it globs in:
    the two Roboflow calls come first. *)
Definition upload_pattern (HOME : string) : string :=
  path_join (path_join HOME "generated_images") "" ++ "/*" ++ ".png".

Definition logged_in (api_key project_name : string) (w : world) : world :=
  log_event (WorkspaceProject project_name)
    (log_event (RoboflowLogin api_key) w).

(** The entries of the upload directory, as the glob lists them. *)
Definition upload_entries (HOME : string) (f : filesystem) : list string :=
  if isdir f (upload_dir HOME)
  then scandir f (resolve (upload_dir HOME))
  else [].

(** What the glob of the upload cell selects from a directory listing. *)
Definition selected (name : string) : bool :=
  negb (ishidden name) && endswith name ".png".

(* ================================================================== *)
(** * Sample worlds and black boxes *)
(* ================================================================== *)

Module Sample.

Definition cow : pil_image := {| png_bytes := "cow" |}.

(** Black boxes that never fail; the pipeline returns as many images as
    it is asked for. *)
Definition obliging : externals :=
  {| pipeline_outcome := fun _ _ b _ => Ok (repeat cow (Z.to_nat b));
     save_outcome := fun _ _ _ => None;
     display_outcome := fun _ _ => None;
     login_outcome := fun _ _ => None;
     project_outcome := fun _ _ => None;
     upload_outcome := fun _ _ _ => None;
     glob_dirs := fun _ _ => [] |}.

(** A pipeline that returns two images more than it is asked for. *)
Definition lavish : externals :=
  {| pipeline_outcome := fun _ _ b _ => Ok (repeat cow (Z.to_nat (b + 2)));
     save_outcome := fun _ _ _ => None;
     display_outcome := fun _ _ => None;
     login_outcome := fun _ _ => None;
     project_outcome := fun _ _ => None;
     upload_outcome := fun _ _ _ => None;
     glob_dirs := fun _ _ => [] |}.





(** The service refuses the second image. *)
Definition server_error : exn := ExternalError "HTTP 500".

Definition second_upload_fails : externals :=
  {| pipeline_outcome := fun _ _ b _ => Ok (repeat cow (Z.to_nat b));
     save_outcome := fun _ _ _ => None;
     display_outcome := fun _ _ => None;
     login_outcome := fun _ _ => None;
     project_outcome := fun _ _ => None;
     upload_outcome :=
       fun _ path _ =>
         if String.eqb path "/home/studio/generated_images/image_1.png"
         then Some server_error else None;
     glob_dirs := fun _ _ => [] |}.

Definition empty_world : world := {| fs := []; trace := [] |}.

Definition place (entry : string * node) : location * node :=
  (resolve (fst entry), snd entry).

(** A working directory after a run of [generate_images], with a hidden
    image, a directory named like an image, a text file and a nested
    image next to the generated ones. *)
Definition studio : world :=
  {| fs :=
       map place
         [("/home", Dir);
          ("/home/studio", Dir);
          ("/home/studio/generated_images", Dir);
          ("/home/studio/generated_images/image_0.png", File "cow");
          ("/home/studio/generated_images/.thumb.png", File "cow");
          ("/home/studio/generated_images/image_1.png", File "cow");
          ("/home/studio/generated_images/notes.txt", File "eight cows");
          ("/home/studio/generated_images/old.png", Dir);
          ("/home/studio/generated_images/old.png/image_0.png", File "cow");
          ("/home/studio/generated_images/image_2.png", File "cow")];
     trace := [] |}.

(** Run directories of a YOLOv7 training. *)
Definition runs_train : list string := ["exp2"; "exp"; "exp10"; "exp9"].

End Sample.

(* ================================================================== *)
(** * More of the notebooks: the call of [generate_images], shown images
      and written files *)
(* ================================================================== *)

Section Cells.

Context (ext : externals).

(** The call the notebook makes:
    [generate_images("aerial view of cattle", 12, guidance_scale=4,
    display_images=True)]. *)
Definition generate_cell : M unit :=
  generate_images ext "aerial view of cattle" 12 4 4 "generated_images" true.

End Cells.

(** The images shown. *)
Fixpoint displays (t : list event) : list display_image :=
  match t with
  | [] => []
  | Display shown :: t' => shown :: displays t'
  | _ :: t' => displays t'
  end.

(** The file system after the entries are written, one after the other. *)
Definition write_all (entries : list (location * node)) (f : filesystem)
  : filesystem :=
  fold_left (fun f' entry => write (fst entry) (snd entry) f') entries f.

(** The images of the batches with the indices they are saved under, the
    first batch being that of iteration [s]. *)
Definition indexed_from (b s : Z) (batches : list (list pil_image))
  : list (Z * pil_image) :=
  List.concat
    (map (fun batch =>
            map (fun item => (fst batch * b + fst item, snd item))
                (enumerate (snd batch)))
         (enumerate_from s batches)).

(** The file an image is saved as. *)
Definition image_entry (d : string) (item : Z * pil_image)
  : location * node :=
  (resolve (image_path d (fst item)), File (png_bytes (snd item))).

(** The last of the entries with the greatest key. *)
Fixpoint last_greatest {A : Type} (l : list (Z * A)) : option (Z * A) :=
  match l with
  | [] => None
  | a :: l' =>
      match last_greatest l' with
      | None => Some a
      | Some m => if fst m <? fst a then Some a else Some m
      end
  end.

Module MoreSamples.
Import Sample.


(** A working directory in which [generated_images] is a file. *)
Definition blocked : world :=
  {| fs := [(resolve "generated_images", File "not a directory")];
     trace := [] |}.

(** The notebook front end cannot show images. *)
Definition no_display : exn := ExternalError "no display".

Definition display_fails : externals :=
  {| pipeline_outcome := fun _ _ b _ => Ok (repeat cow (Z.to_nat b));
     save_outcome := fun _ _ _ => None;
     display_outcome := fun _ _ => Some no_display;
     login_outcome := fun _ _ => None;
     project_outcome := fun _ _ => None;
     upload_outcome := fun _ _ _ => None;
     glob_dirs := fun _ _ => [] |}.

End MoreSamples.

(* ================================================================== *)
(** * The YOLO notebooks: showing the detections *)
(* ================================================================== *)

Module Yolo.

(** [IPython.display.Image(filename=..., width=..., height=...)]; an
    argument that is left out is [None]. *)
Record ipython_image : Type :=
  IPythonImage {
    image_filename : string;
    image_width : option Z;
    image_height : option Z
  }.

(** The calls to the notebook front end, in the order they are made; a
    call is logged when it is made, whether or not it then raises. *)
Inductive output : Type :=
| DisplayImage (image : ipython_image)
| PrintText (text : string).

Record session : Type := { files : filesystem; outputs : list output }.

Definition log_output (o : output) (s : session) : session :=
  {| files := files s; outputs := (outputs s ++ [o])%list |}.

(** The black boxes: building and showing an image succeeds ([None]) or
    raises; [glob_expand] is the library's expansion of a wildcard
    directory part. *)
Record frontend : Type := {
  show_outcome : session -> ipython_image -> option exn;
  glob_expand : session -> string -> list string
}.

(** A cell of these notebooks: state passing with exceptions. *)
Definition Cell (A : Type) : Type := session -> result A * session.

Definition unit_cell {A : Type} (a : A) : Cell A := fun s => (Ok a, s).

Definition and_then {A B : Type} (m : Cell A) (k : A -> Cell B) : Cell B :=
  fun s =>
    match m s with
    | (Ok a, s') => k a s'
    | (Raise e, s') => (Raise e, s')
    end.

Declare Scope session_scope.
Delimit Scope session_scope with session.
Notation "x <- m ;; k" := (and_then m (fun x => k))
  (at level 61, m at next level, right associativity) : session_scope.
Notation "m ;; k" := (and_then m (fun _ => k))
  (at level 61, right associativity) : session_scope.
Local Open Scope session_scope.

Definition from_result {A : Type} (r : result A) : Cell A := fun s => (r, s).

(** [for x in xs: body(x)]. *)
Fixpoint for_all {A : Type} (xs : list A) (body : A -> Cell unit)
  : Cell unit :=
  match xs with
  | [] => unit_cell tt
  | x :: xs' => body x ;; for_all xs' body
  end.

(** The string ["\n"]. *)
Definition newline : string := String "010" EmptyString.

Section Cells.

Context (fe : frontend).

(** [display(image)]. *)
Definition display (image : ipython_image) : Cell unit :=
  fun s =>
    match show_outcome fe s image with
    | None => (Ok tt, log_output (DisplayImage image) s)
    | Some e => (Raise e, log_output (DisplayImage image) s)
    end.

(** [print(text)]. *)
Definition print (text : string) : Cell unit :=
  fun s => (Ok tt, log_output (PrintText text) s).

Definition listdir (d : string) : Cell (list string) :=
  fun s => (Posix.listdir (files s) d, s).

Definition glob_glob (pathname : string) : Cell (list string) :=
  fun s => (Ok (glob (glob_expand fe s) (files s) pathname), s).

(** The body of the loops: [display(Image(filename=imageName))] and
    [print("\n")]. *)
Definition show (imageName : string) : Cell unit :=
  display (IPythonImage imageName None None) ;;
  print newline.

(** The loop of the YOLOv7 notebook, from the value [i] of its counter:
    [[
    for imageName in images:
        if i < limit:
          display(Image(filename=imageName))
          print("\n")
        i = i + 1
    ]]
    The value is the final [i]. *)
Fixpoint show_limited (limit : Z) (images : list string) (i : Z) : Cell Z :=
  match images with
  | [] => unit_cell i
  | imageName :: images' =>
      (if i <? limit then show imageName else unit_cell tt) ;;
      show_limited limit images' (i + 1)
  end.

(** The cell of the YOLOv7 notebook that shows the detections. *)
Definition show_detections_v7 (HOME : string) : Cell Z :=
  listing <- listdir "runs/detect" ;;
  EXP_DIR <- from_result (latest_run listing) ;;
  let i := 0 in
  let limit := 10000 in
  images <-
    glob_glob (HOME ++ "/yolov7/runs/detect/" ++ EXP_DIR ++ "/*.jpg") ;;
  show_limited limit images i.

(** The cell of the YOLOv5 notebook that shows the detections. *)
Definition show_detections_v5 (HOME : string) : Cell unit :=
  images <- glob_glob (HOME ++ "/yolov5/runs/detect/exp/*.jpg") ;;
  for_all images show.

End Cells.

(** The images shown and the texts printed. *)
Fixpoint shown (l : list output) : list ipython_image :=
  match l with
  | [] => []
  | DisplayImage image :: l' => image :: shown l'
  | PrintText _ :: l' => shown l'
  end.

(** What showing the images of a list adds to the log. *)
Definition show_outputs (images : list string) : list output :=
  flat_map
    (fun imageName =>
       [DisplayImage (IPythonImage imageName None None); PrintText newline])
    images.

(** The entries of a directory that [*.jpg] matches, joined to the
    directory as the glob returns them. *)
Definition jpg (name : string) : bool :=
  negb (ishidden name) && endswith name ".jpg".

Definition jpg_entries (f : filesystem) (d : string) : list string :=
  match Posix.listdir f d with
  | Ok names => map (path_join d) (filter jpg names)
  | Raise _ => []
  end.

End Yolo.

Module YoloSamples.
Import Sample Yolo.

(** A front end that shows everything. *)
Definition quiet : frontend :=
  {| show_outcome := fun _ _ => None; glob_expand := fun _ _ => [] |}.

(** A front end that cannot show [b.jpg]. *)
Definition broken_image : exn := ExternalError "cannot identify image file".

Definition picky : frontend :=
  {| show_outcome :=
       fun _ image =>
         if endswith (image_filename image) "/b.jpg"
         then Some broken_image else None;
     glob_expand := fun _ _ => [] |}.

(** The files after two detection runs, seen from the working directory
    [/content/yolov7] and from the root. *)
Definition detected : session :=
  {| files :=
       map place
         [("runs", Dir);
          ("runs/detect", Dir);
          ("runs/detect/exp", Dir);
          ("runs/detect/exp2", Dir);
          ("/content", Dir);
          ("/content/yolov7", Dir);
          ("/content/yolov7/runs", Dir);
          ("/content/yolov7/runs/detect", Dir);
          ("/content/yolov7/runs/detect/exp", Dir);
          ("/content/yolov7/runs/detect/exp/old.jpg", File "old");
          ("/content/yolov7/runs/detect/exp2", Dir);
          ("/content/yolov7/runs/detect/exp2/a.jpg", File "a");
          ("/content/yolov7/runs/detect/exp2/.b.jpg", File "hidden");
          ("/content/yolov7/runs/detect/exp2/b.jpg", File "b");
          ("/content/yolov7/runs/detect/exp2/labels", Dir);
          ("/content/yolov7/runs/detect/exp2/labels/c.jpg", File "c");
          ("/content/yolov7/runs/detect/exp2/d.png", File "d")];
     outputs := [] |}.

(** The files after the detection run of the YOLOv5 notebook. *)
Definition detected_v5 : session :=
  {| files :=
       map place
         [("/content", Dir);
          ("/content/yolov5", Dir);
          ("/content/yolov5/runs", Dir);
          ("/content/yolov5/runs/detect", Dir);
          ("/content/yolov5/runs/detect/exp", Dir);
          ("/content/yolov5/runs/detect/exp/a.jpg", File "a");
          ("/content/yolov5/runs/detect/exp/b.jpg", File "b")];
     outputs := [] |}.

End YoloSamples.

(* ================================================================== *)
(** * The YOLOv5 notebook: [writetemplate] *)
(* ================================================================== *)

Module Template.

(** What [str.format] and [writetemplate] raise: an exception
    of [Py], or [KeyError] with its key. *)
Inductive raised : Type :=
| KeyError (key : string)
| Builtin (e : exn).

Inductive outcome (A : Type) : Type :=
| Returns (a : A)
| Raises (e : raised).
Arguments Returns {A} a.
Arguments Raises {A} e.

(** The value of a global, as far as [format(value, "")] goes: a [str] is
    its own text, an [int] its decimal numeral, and any other object is
    what its [__format__] returns or raises on the empty specification. *)
Inductive value : Type :=
| Str (s : string)
| Int (k : Z)
| Object (shown : outcome string).

Definition format_value (v : value) : outcome string :=
  match v with
  | Str s => Returns s
  | Int k => Returns (str k)
  | Object shown => shown
  end.

(** [globals()].  [render_field] is the black box for the replacement
    fields that do more than name a global in ASCII: an attribute or an
    index after the name, a conversion, a format specification, a name
    with other characters.  It gets the field name, the conversion and the
    specification as they stand in the template.  Rendering has no effect
    on the files. *)
Record namespace : Type := {
  global : string -> option value;
  render_field : string -> option ascii -> string -> outcome string
}.

(** ** [str.format] with keyword arguments only

    The template is read from left to right, one byte at a time; a
    character that is not ASCII is the bytes of its UTF-8 encoding, none
    of which is an ASCII byte.  [{{] and [}}] stand for a brace.  A
    replacement field runs from [{] to the [}] that closes it; inside, a
    field name (in which brackets hide everything up to the next []]),
    then [!] and one character of conversion (known by its first byte),
    then [:] and a format specification in which braces nest. *)

Inductive state : Type :=
| Literal
| Brace (c : ascii)
| FieldName (name : string)
| Subscript (name : string)
| Bang (name : string)
| Conversion (name : string) (conversion : ascii)
| FormatSpec (name : string) (conversion : option ascii) (count : nat)
             (format_spec : string).

Inductive transition : Type :=
| Goto (st : state)
| Emit (c : ascii)
| Field (name : string) (conversion : option ascii) (format_spec : string)
| Reject.

Definition is_brace (c : ascii) : bool := Ascii.eqb c "{" || Ascii.eqb c "}".

(** The first byte and the following bytes of a character that is not
    ASCII. *)
Definition is_lead (c : ascii) : bool := (192 <=? nat_of_ascii c)%nat.

Definition is_continuation (c : ascii) : bool :=
  let n := nat_of_ascii c in ((128 <=? n) && (n <? 192))%nat.

Definition append_char (s : string) (c : ascii) : string :=
  s ++ String c EmptyString.

(** One character of a field name. *)
Definition field_name_step (name : string) (c : ascii) : transition :=
  if Ascii.eqb c "{" then Reject
  else if Ascii.eqb c "[" then Goto (Subscript (append_char name c))
  else if Ascii.eqb c "}" then Field name None ""
  else if Ascii.eqb c ":" then Goto (FormatSpec name None 1 "")
  else if Ascii.eqb c "!" then Goto (Bang name)
  else Goto (FieldName (append_char name c)).

Definition step (st : state) (c : ascii) : transition :=
  match st with
  | Literal => if is_brace c then Goto (Brace c) else Emit c
  | Brace b =>
      if Ascii.eqb c b then Emit c
      else if Ascii.eqb b "}" then Reject
      else field_name_step "" c
  | FieldName name => field_name_step name c
  | Subscript name =>
      if Ascii.eqb c "]" then Goto (FieldName (append_char name c))
      else Goto (Subscript (append_char name c))
  | Bang name => Goto (Conversion name c)
  | Conversion name conversion =>
      if is_lead conversion && is_continuation c
      then Goto (Conversion name conversion)
      else if Ascii.eqb c "}" then Field name (Some conversion) ""
      else if Ascii.eqb c ":" then Goto (FormatSpec name (Some conversion) 1 "")
      else Reject
  | FormatSpec name conversion count format_spec =>
      if Ascii.eqb c "{" then
        Goto (FormatSpec name conversion (S count) (append_char format_spec c))
      else if Ascii.eqb c "}" then
        match count with
        | S (S n) =>
            Goto (FormatSpec name conversion (S n) (append_char format_spec c))
        | _ => Field name conversion format_spec
        end
      else Goto (FormatSpec name conversion count (append_char format_spec c))
  end.

(** The first part of a field name: up to the first [.] or [[]. *)
Fixpoint field_name_split (name : string) : string * string :=
  match name with
  | EmptyString => ("", "")
  | String c name' =>
      if Ascii.eqb c "." || Ascii.eqb c "[" then ("", name)
      else
        let (first, rest) := field_name_split name' in (String c first, rest)
  end.

(** Whether a first part in ASCII is a number, that is, an index into
    the positional arguments.  The digits are read from the left; the
    index has to fit a signed 64-bit integer. *)
Definition PY_SSIZE_T_MAX : Z := 9223372036854775807.

Inductive field_index : Type :=
| NotANumber
| Number (n : Z)
| TooManyDigits.

Fixpoint get_integer_from (accumulator : Z) (s : string) : field_index :=
  match s with
  | EmptyString => Number accumulator
  | String c s' =>
      if is_digit c then
        if accumulator >? (PY_SSIZE_T_MAX - digit_value c) / 10
        then TooManyDigits
        else get_integer_from (accumulator * 10 + digit_value c) s'
      else NotANumber
  end.

Definition get_integer (s : string) : field_index :=
  match s with
  | EmptyString => NotANumber
  | String _ _ => get_integer_from 0 s
  end.

(** The text a replacement field stands for.  There are no positional
    arguments: a field without a name, or named by a number, raises
    [IndexError].  The global is looked up before anything else is done
    with it.  Whether a first part with characters that are not ASCII is a
    number depends on the interpreter's table of decimal digits: such a
    field is left to the black box. *)
Definition output_field (g : namespace) (name : string)
    (conversion : option ascii) (format_spec : string) : outcome string :=
  let (first, rest) := field_name_split name in
  if negb (isascii first) then render_field g name conversion format_spec
  else
  match get_integer first with
  | TooManyDigits => Raises (Builtin ValueError)
  | Number _ => Raises (Builtin IndexError)
  | NotANumber =>
      if String.eqb first "" then Raises (Builtin IndexError)
      else
        match global g first with
        | None => Raises (KeyError first)
        | Some v =>
            match rest, conversion, format_spec with
            | EmptyString, None, EmptyString => format_value v
            | _, _, _ => render_field g name conversion format_spec
            end
        end
  end.

(** [text] followed by what the rest of the template gives. *)
Definition followed_by (text : string) (r : outcome string) : outcome string :=
  match r with
  | Returns rest => Returns (text ++ rest)
  | Raises e => Raises e
  end.

Fixpoint format_from (g : namespace) (st : state) (s : string)
  : outcome string :=
  match s with
  | EmptyString =>
      match st with
      | Literal => Returns ""
      | _ => Raises (Builtin ValueError)
      end
  | String c s' =>
      match step st c with
      | Goto st' => format_from g st' s'
      | Emit c' => followed_by (String c' "") (format_from g Literal s')
      | Field name conversion format_spec =>
          match output_field g name conversion format_spec with
          | Returns text => followed_by text (format_from g Literal s')
          | Raises e => Raises e
          end
      | Reject => Raises (Builtin ValueError)
      end
  end.

(** [template.format( **globals())]. *)
Definition format (g : namespace) (template : string) : outcome string :=
  format_from g Literal template.


(** The reader is inside a replacement field. *)
Definition in_field (st : state) : bool :=
  match st with
  | Literal | Brace _ => false
  | _ => true
  end.

(** ** Writing templates

    [escape] doubles the braces of a text, which is how a template spells
    a brace; a [keyword] is a field name that names a global and nothing
    more: it is ASCII, does not start with a digit and holds none of the
    characters that end a name or go on from the value. *)

Fixpoint every (p : ascii -> bool) (s : string) : bool :=
  match s with
  | EmptyString => true
  | String c s' => p c && every p s'
  end.

Fixpoint escape (text : string) : string :=
  match text with
  | EmptyString => EmptyString
  | String c text' =>
      if is_brace c then String c (String c (escape text'))
      else String c (escape text')
  end.

Definition no_brace (text : string) : bool :=
  every (fun c => negb (is_brace c)) text.

Definition keyword_char (c : ascii) : bool :=
  negb (is_brace c || Ascii.eqb c "[" || Ascii.eqb c ":" || Ascii.eqb c "!"
        || Ascii.eqb c ".").

Definition keyword (name : string) : bool :=
  match name with
  | EmptyString => false
  | String c _ => negb (is_digit c)
  end && every keyword_char name && isascii name.

End Template.

Module TemplateSamples.
Import Sample Yolo Template.

(** The globals after the cells that set [HOME] and [num_classes]. *)
Definition notebook_globals : namespace :=
  {| global :=
       fun name =>
         if String.eqb name "HOME" then Some (Str "/content")
         else if String.eqb name "num_classes" then Some (Str "3")
         else None;
     render_field := fun _ _ _ => Raises (Builtin (ExternalError "field")) |}.

(** The same before [num_classes] is set. *)
Definition early_globals : namespace :=
  {| global :=
       fun name =>
         if String.eqb name "HOME" then Some (Str "/content") else None;
     render_field := fun _ _ _ => Raises (Builtin (ExternalError "field")) |}.

(** The first paragraph of the template of the notebook. *)
Definition parameters : string :=
  String.concat newline
    ["";
     "# parameters";
     "nc: {num_classes}  # number of classes";
     "depth_multiple: 0.33  # model depth multiple";
     "width_multiple: 0.50  # layer channel multiple";
     ""].


End TemplateSamples.

(* ================================================================== *)
(** * Facts about strings and the Python builtins *)
(* ================================================================== *)

Module StringFacts.

Lemma append_nil_r (s : string) : s ++ "" = s.
Proof. induction s as [|c s IH]; simpl; [reflexivity | now rewrite IH]. Qed.

Lemma append_assoc (a b c : string) : (a ++ b) ++ c = a ++ (b ++ c).
Proof. induction a as [|x a IH]; simpl; [reflexivity | now rewrite IH]. Qed.

Lemma length_append (a b : string) :
  String.length (a ++ b) = (String.length a + String.length b)%nat.
Proof. induction a as [|x a IH]; simpl; [reflexivity | now rewrite IH]. Qed.

Lemma append_inj_l (a s1 s2 : string) : a ++ s1 = a ++ s2 -> s1 = s2.
Proof.
  induction a as [|x a IH]; simpl; intros H; [exact H|].
  injection H as H. now apply IH.
Qed.

Lemma append_inj_r (t s1 s2 : string) : s1 ++ t = s2 ++ t -> s1 = s2.
Proof.
  revert s2. induction s1 as [|x s1 IH]; intros [|y s2] H; simpl in H.
  - reflexivity.
  - apply (f_equal String.length) in H. simpl in H.
    rewrite length_append in H. lia.
  - apply (f_equal String.length) in H. simpl in H.
    rewrite length_append in H. lia.
  - injection H as -> H. f_equal. now apply IH.
Qed.

End StringFacts.

Module PyFacts.
Import StringFacts.

(** [str] is one-to-one: two indices never share a rendering. *)
Lemma str_inj (j k : Z) : str j = str k -> j = k.
Proof.
  unfold str. intros H. apply DecimalZ.to_int_inj.
  assert (N : forall z, Z.to_int z <> Decimal.Pos Decimal.Nil /\
                        Z.to_int z <> Decimal.Neg Decimal.Nil).
  { intros [|p|p]; simpl; split; try discriminate;
      intros E; injection E as E; now apply DecimalPos.Unsigned.to_uint_nonnil in E. }
  assert (R : forall z, NilZero.int_of_string (NilZero.string_of_int (Z.to_int z))
                        = Some (Z.to_int z)).
  { intros z. apply NilZero.isi; apply N. }
  pose proof (R j) as Rj. rewrite H, R in Rj. now injection Rj.
Qed.

Lemma range_length (n : Z) : List.length (range n) = Z.to_nat n.
Proof. unfold range. now rewrite length_map, length_seq. Qed.

Lemma range_nonpos (n : Z) : n <= 0 -> range n = [].
Proof.
  intros H. unfold range. replace (Z.to_nat n) with O by lia. reflexivity.
Qed.


Lemma In_range (n k : Z) : In k (range n) <-> 0 <= k < n.
Proof.
  unfold range. rewrite in_map_iff. split.
  - intros (i & <- & Hi). apply in_seq in Hi. lia.
  - intros H. exists (Z.to_nat k). split; [lia|]. apply in_seq. lia.
Qed.


Lemma enumerate_from_fst {A : Type} (s : Z) (xs : list A) :
  map fst (enumerate_from s xs) = map (Z.add s) (range (len xs)).
Proof.
  revert s. induction xs as [|x xs IH]; intros s; [reflexivity|].
  unfold len, range in *. simpl List.length.
  rewrite Nat2Z.id in *. simpl. rewrite IH. f_equal; [lia|].
  rewrite <- seq_shift, !map_map. apply map_ext. intros i. lia.
Qed.

Lemma enumerate_from_snd {A : Type} (s : Z) (xs : list A) :
  map snd (enumerate_from s xs) = xs.
Proof.
  revert s. induction xs as [|x xs IH]; intros s; simpl;
    [reflexivity | now rewrite IH].
Qed.

End PyFacts.

(* ================================================================== *)
(** * Facts about cells *)
(* ================================================================== *)

Module CellFacts.

Lemma bind_raise {A B : Type} (m : M A) (k : A -> M B) w e w1 :
  m w = (Raise e, w1) -> bind m k w = (Raise e, w1).
Proof. unfold bind. now intros ->. Qed.

(** A bind that ends well went through both of its halves. *)
Lemma bind_inv_ok {A B : Type} (m : M A) (k : A -> M B) w b w' :
  bind m k w = (Ok b, w') ->
  exists a w1, m w = (Ok a, w1) /\ k a w1 = (Ok b, w').
Proof.
  unfold bind. destruct (m w) as [[a|e] w1]; intros H.
  - now exists a, w1.
  - discriminate.
Qed.



(** ** Relations every step of a cell keeps *)

Section Preserves.

Variable R : world -> world -> Prop.
Hypothesis R_refl : forall w, R w w.
Hypothesis R_trans : forall w1 w2 w3, R w1 w2 -> R w2 w3 -> R w1 w3.

Lemma preserves_ret {A : Type} (a : A) : preserves R (ret a).
Proof. intros w r w' [= _ <-]. apply R_refl. Qed.

Lemma preserves_lift {A : Type} (x : result A) : preserves R (lift x).
Proof. intros w r w' [= _ <-]. apply R_refl. Qed.

Lemma preserves_bind {A B : Type} (m : M A) (k : A -> M B) :
  preserves R m -> (forall a, preserves R (k a)) -> preserves R (bind m k).
Proof.
  intros Hm Hk w r w'. unfold bind.
  destruct (m w) as [[a|e] w1] eqn:E; intros H.
  - eapply R_trans; [eapply Hm, E | eapply Hk, H].
  - injection H as _ <-. eapply Hm, E.
Qed.

Lemma preserves_for_each {A : Type} (xs : list A) (body : A -> M unit) :
  (forall x, preserves R (body x)) -> preserves R (for_each xs body).
Proof.
  intros Hb. induction xs as [|x xs IH]; simpl.
  - apply preserves_ret.
  - apply preserves_bind; [apply Hb | intros _; exact IH].
Qed.

End Preserves.

End CellFacts.

(* ================================================================== *)
(** * Facts about paths *)
(* ================================================================== *)

Module PathFacts.
Import StringFacts.

Lemma split_sep_nonnil (s : string) : split_sep s <> [].
Proof.
  destruct s as [|c s]; simpl; [discriminate|].
  destruct (Ascii.eqb c "/"); [discriminate|].
  destruct (split_sep s); discriminate.
Qed.

Lemma split_sep_app (a b : string) :
  split_sep (a ++ String "/" b) = (split_sep a ++ split_sep b)%list.
Proof.
  induction a as [|c a IH]; simpl; [reflexivity|].
  rewrite IH. destruct (Ascii.eqb c "/"); [reflexivity|].
  pose proof (split_sep_nonnil a) as N.
  destruct (split_sep a) as [|x rest]; [now elim N | reflexivity].
Qed.

Lemma split_sep_no_sep (t : string) : no_sep t = true -> split_sep t = [t].
Proof.
  induction t as [|c t IH]; simpl; [reflexivity|].
  destruct (Ascii.eqb c "/"); simpl; [discriminate|].
  intros H. now rewrite IH.
Qed.

Lemma names_app_sep (a b : string) :
  names (a ++ String "/" b) = (names a ++ names b)%list.
Proof. unfold names. now rewrite split_sep_app, filter_app. Qed.

Lemma names_no_sep (t : string) :
  no_sep t = true -> names t = if real_name t then [t] else [].
Proof. intros H. unfold names. now rewrite split_sep_no_sep. Qed.

Lemma names_slashes (n : nat) : names (slashes n) = [].
Proof.
  induction n as [|n IH]; [reflexivity|].
  change (slashes (S n)) with ("" ++ String "/" (slashes n)).
  now rewrite names_app_sep, IH.
Qed.

Lemma names_append_slashes (x : string) (n : nat) :
  names (x ++ slashes n) = names x.
Proof.
  destruct n as [|n]; simpl; [now rewrite append_nil_r|].
  now rewrite names_app_sep, names_slashes, app_nil_r.
Qed.

Lemma rstrip_sep_spec (s : string) :
  exists n, s = rstrip_sep s ++ slashes n.
Proof.
  induction s as [|c s [n IH]]; simpl; [now exists O|].
  destruct (rstrip_sep s) as [|x r] eqn:E.
  - destruct (Ascii.eqb_spec c "/") as [->|_].
    + exists (S n). simpl. now rewrite IH at 1.
    + exists n. simpl. now rewrite IH at 1.
  - exists n. simpl. now rewrite IH at 1.
Qed.

(** The tail of a split is a name; the head is empty or ends the part of
    the path before that name. *)
Lemma split_last_sep_spec (p : string) :
  no_sep (snd (split_last_sep p)) = true /\
  (fst (split_last_sep p) = "" \/
   exists h, fst (split_last_sep p) = h ++ "/").
Proof.
  induction p as [|c p [IHt IHh]]; simpl; [now split; [|left]|].
  destruct (split_last_sep p) as [[|x h] t] eqn:E; simpl in *.
  - destruct (Ascii.eqb_spec c "/") as [->|N]; simpl.
    + split; [exact IHt | right; now exists ""].
    + split; [|now left]. rewrite IHt.
      apply Ascii.eqb_neq in N. now rewrite N.
  - split; [exact IHt|]. right.
    destruct IHh as [IHh|[h' IHh]]; [discriminate|].
    exists (String c h'). simpl. now rewrite IHh.
Qed.

Lemma split_last_sep_append (p : string) :
  fst (split_last_sep p) ++ snd (split_last_sep p) = p.
Proof.
  induction p as [|c p IH]; [reflexivity|]. simpl.
  destruct (split_last_sep p) as [[|x h] t]; simpl in *.
  - destruct (Ascii.eqb c "/"); simpl; now rewrite IH.
  - now rewrite IH.
Qed.

(** The head of [os.path.split] starts the path and names what the path
    names before its last name. *)
Lemma path_split_spec (p : string) :
  no_sep (snd (path_split p)) = true /\
  names p = (names (fst (path_split p)) ++ names (snd (path_split p)))%list /\
  exists rest, p = fst (path_split p) ++ rest.
Proof.
  unfold path_split.
  pose proof (split_last_sep_spec p) as [Ht Hh].
  pose proof (split_last_sep_append p) as Hp.
  destruct (split_last_sep p) as [h t]. simpl in *.
  assert (Np : names p = (names h ++ names t)%list).
  { destruct Hh as [->|[h' ->]]; [now rewrite <- Hp|].
    rewrite <- Hp, append_assoc. simpl.
    rewrite !names_app_sep. simpl. now rewrite app_nil_r. }
  destruct (rstrip_sep_spec h) as [n Hn].
  destruct (rstrip_sep h) as [|x r] eqn:E; simpl.
  - repeat split; [exact Ht | exact Np | now exists t].
  - repeat split; [exact Ht | |].
    + rewrite Np. f_equal. rewrite Hn at 1. apply names_append_slashes.
    + exists (slashes n ++ t). rewrite <- Hp. rewrite Hn at 1.
      apply append_assoc.
Qed.

Lemma absolute_prefix (h rest : string) :
  h <> "" -> startswith (h ++ rest) "/" = startswith h "/".
Proof.
  destruct h as [|c h]; [now intros N|]. intros _. reflexivity.
Qed.

Lemma path_split_length (p : string) :
  (String.length (fst (path_split p)) + String.length (snd (path_split p))
   <= String.length p)%nat.
Proof.
  pose proof (path_split_spec p) as (_ & _ & rest & E).
  unfold path_split in *.
  pose proof (split_last_sep_append p) as Hp.
  destruct (split_last_sep p) as [h t]. simpl in Hp.
  apply (f_equal String.length) in Hp. rewrite length_append in Hp.
  destruct (rstrip_sep_spec h) as [n Hn].
  apply (f_equal String.length) in Hn. rewrite length_append in Hn.
  destruct (rstrip_sep h); simpl in *; lia.
Qed.

(** ** The steps of a walk *)

Lemma steps_app_sep (a b : string) :
  steps (a ++ String "/" b) = (steps a ++ steps b)%list.
Proof. unfold steps. now rewrite split_sep_app, filter_app. Qed.

Lemma steps_no_sep (t : string) :
  no_sep t = true -> steps t = if String.eqb t "" then [] else [t].
Proof.
  intros H. unfold steps. rewrite split_sep_no_sep by exact H. simpl.
  now destruct (String.eqb t "").
Qed.

Lemma steps_slashes (n : nat) : steps (slashes n) = [].
Proof.
  induction n as [|n IH]; [reflexivity|].
  change (slashes (S n)) with ("" ++ String "/" (slashes n)).
  now rewrite steps_app_sep, IH.
Qed.

Lemma steps_append_slashes (x : string) (n : nat) :
  steps (x ++ slashes n) = steps x.
Proof.
  destruct n as [|n]; simpl; [now rewrite append_nil_r|].
  now rewrite steps_app_sep, steps_slashes, app_nil_r.
Qed.

(** The names of a spelling are its steps other than [.]. *)
Lemma names_steps (p : string) :
  names p = filter (fun x => negb (String.eqb x ".")) (steps p).
Proof.
  unfold names, steps, real_name.
  induction (split_sep p) as [|x l IH]; [reflexivity|]. simpl.
  destruct (String.eqb x ""); simpl; [exact IH|].
  destruct (String.eqb x "."); simpl; [exact IH | now rewrite IH].
Qed.

Lemma path_split_steps (p : string) :
  steps p = (steps (fst (path_split p)) ++ steps (snd (path_split p)))%list.
Proof.
  unfold path_split.
  pose proof (split_last_sep_spec p) as [Ht Hh].
  pose proof (split_last_sep_append p) as Hp.
  destruct (split_last_sep p) as [h t]. simpl in *.
  assert (Np : steps p = (steps h ++ steps t)%list).
  { destruct Hh as [->|[h' ->]]; [now rewrite <- Hp|].
    rewrite <- Hp, append_assoc. simpl.
    rewrite !steps_app_sep. simpl. now rewrite app_nil_r. }
  destruct (rstrip_sep_spec h) as [n Hn].
  destruct (rstrip_sep h) as [|x r] eqn:E; simpl; [exact Np|].
  rewrite Np. f_equal. rewrite Hn at 1. apply steps_append_slashes.
Qed.

(** A stripped head does not end in a separator. *)
Lemma rstrip_sep_endswith (s : string) : endswith (rstrip_sep s) "/" = false.
Proof.
  induction s as [|c s IH]; [reflexivity|]. simpl.
  destruct (rstrip_sep s) as [|x r] eqn:E.
  - destruct (Ascii.eqb_spec c "/") as [->|N]; [reflexivity|].
    simpl. apply Ascii.eqb_neq in N. rewrite N. reflexivity.
  - change (endswith (String c (String x r)) "/")
      with (String.eqb (String c (String x r)) "/"
            || endswith (String x r) "/").
    rewrite IH. simpl. now destruct (Ascii.eqb c "/").
Qed.

(** The head of a split ends in a separator only when it consists of
    separators. *)
Lemma path_split_head_sep (p : string) :
  endswith (fst (path_split p)) "/" = true -> names (fst (path_split p)) = [].
Proof.
  unfold path_split. destruct (split_last_sep p) as [h t].
  pose proof (rstrip_sep_endswith h) as R.
  destruct (rstrip_sep_spec h) as [n Hn].
  destruct (rstrip_sep h) as [|x r] eqn:E; cbn [fst].
  - intros _. simpl in Hn. rewrite Hn. apply names_slashes.
  - intros H. congruence.
Qed.

(** ** The split [os.makedirs] works with *)

Lemma split_leaf_length (name : string) :
  snd (split_leaf name) <> "" ->
  (String.length (fst (split_leaf name)) < String.length name)%nat.
Proof.
  unfold split_leaf.
  pose proof (path_split_length name) as L1.
  destruct (path_split name) as [h1 t1]. simpl in L1.
  destruct (String.eqb_spec t1 "") as [->|N]; simpl.
  - pose proof (path_split_length h1) as L2.
    destruct (path_split h1) as [h2 t2]. simpl in *. intros Ht.
    destruct t2; [now elim Ht | simpl in *; lia].
  - intros _. destruct t1; [now elim N | simpl in *; lia].
Qed.

Lemma split_leaf_spec (name : string) :
  no_sep (snd (split_leaf name)) = true /\
  names name
  = (names (fst (split_leaf name)) ++ names (snd (split_leaf name)))%list /\
  (fst (split_leaf name) <> "" ->
   startswith (fst (split_leaf name)) "/" = startswith name "/").
Proof.
  unfold split_leaf.
  pose proof (path_split_spec name) as (T1 & N1 & r1 & P1).
  destruct (path_split name) as [h1 t1]. simpl in *.
  destruct (String.eqb_spec t1 "") as [->|N].
  - pose proof (path_split_spec h1) as (T2 & N2 & r2 & P2).
    destruct (path_split h1) as [h2 t2]. simpl in *.
    repeat split; [exact T2 | |].
    + rewrite N1, N2. simpl. now rewrite app_nil_r.
    + intros Hh. transitivity (startswith (h2 ++ r2 ++ r1) "/");
        [symmetry; now apply absolute_prefix|].
      now rewrite <- append_assoc, <- P2, <- P1.
  - simpl. repeat split; [exact T1 | exact N1 |].
    intros Hh. transitivity (startswith (h1 ++ r1) "/");
      [symmetry; now apply absolute_prefix | now rewrite <- P1].
Qed.

(** The tail [os.makedirs] works with is the last step of the walk. *)
Lemma split_leaf_steps (name : string) :
  steps name =
  (steps (fst (split_leaf name)) ++
   (if String.eqb (snd (split_leaf name)) "" then []
    else [snd (split_leaf name)]))%list.
Proof.
  unfold split_leaf.
  pose proof (path_split_spec name) as (T1 & _).
  pose proof (path_split_steps name) as S1.
  destruct (path_split name) as [h1 t1]. simpl in *.
  destruct (String.eqb_spec t1 "") as [->|N].
  - pose proof (path_split_spec h1) as (T2 & _).
    pose proof (path_split_steps h1) as S2.
    destruct (path_split h1) as [h2 t2]. simpl in *.
    rewrite S1, S2. simpl. rewrite app_nil_r.
    now rewrite (steps_no_sep t2 T2).
  - simpl. rewrite S1, (steps_no_sep t1 T1).
    apply String.eqb_neq in N. now rewrite N.
Qed.

Lemma split_leaf_ends_in_dot (name : string) :
  snd (split_leaf name) <> "" ->
  ends_in_dot name = String.eqb (snd (split_leaf name)) ".".
Proof.
  intros N. unfold ends_in_dot. rewrite (split_leaf_steps name).
  apply String.eqb_neq in N. rewrite N. now rewrite last_last.
Qed.

Lemma split_leaf_head_sep (name : string) :
  endswith (fst (split_leaf name)) "/" = true ->
  names (fst (split_leaf name)) = [].
Proof.
  unfold split_leaf.
  pose proof (path_split_head_sep name) as H1.
  destruct (path_split name) as [h1 t1]. simpl in H1.
  destruct (String.eqb t1 ""); [|exact H1].
  apply path_split_head_sep.
Qed.

End PathFacts.

(* ================================================================== *)
(** * Facts about the file system *)
(* ================================================================== *)

Module FsFacts.
Import StringFacts PathFacts.

Lemma lookup_write (q k : location) (n : node) (f : filesystem) :
  lookup q (write k n f) = if location_eq_dec q k then Some n else lookup q f.
Proof.
  induction f as [|[r m] f IH]; simpl.
  - reflexivity.
  - destruct (location_eq_dec k r) as [->|Nkr]; simpl.
    + now destruct (location_eq_dec q r).
    + rewrite IH. destruct (location_eq_dec q r) as [->|Nqr];
        [|reflexivity].
      destruct (location_eq_dec r k) as [E|_]; [now elim Nkr | reflexivity].
Qed.

Lemma lookup_app_new (q k : location) (n : node) (f : filesystem) :
  lookup q (f ++ [(k, n)])%list =
  match lookup q f with
  | Some m => Some m
  | None => if location_eq_dec q k then Some n else None
  end.
Proof.
  induction f as [|[r m] f IH]; simpl; [reflexivity|].
  now destruct (location_eq_dec q r).
Qed.

(** ** The way to a location *)

Lemma In_lineage (q k : location) :
  In q (lineage k) <->
  fst q = fst k /\
  exists i, (i < List.length (snd k))%nat /\ snd q = firstn (S i) (snd k).
Proof.
  unfold lineage. rewrite in_map_iff. split.
  - intros (i & <- & Hi). apply in_seq in Hi. split; [reflexivity|].
    exists i. split; [lia | reflexivity].
  - intros (Hf & i & Hi & Hs). exists i. split; [|apply in_seq; lia].
    destruct q as [a l]. simpl in *. now subst.
Qed.

Lemma lineage_self (k : location) : snd k <> [] -> In k (lineage k).
Proof.
  intros N. apply In_lineage. split; [reflexivity|].
  destruct k as [a l]. simpl in *. destruct l as [|x l]; [now elim N|].
  exists (List.length l). split; [simpl; lia|].
  simpl. now rewrite firstn_all.
Qed.

Lemma lineage_app (a : bool) (l m : list string) (q : location) :
  In q (lineage (a, l)) -> In q (lineage (a, l ++ m)%list).
Proof.
  rewrite !In_lineage. cbn [fst snd]. intros (Hf & i & Hi & Hs).
  split; [exact Hf|]. exists i. split.
  - rewrite length_app. lia.
  - rewrite Hs, firstn_app.
    replace (S i - List.length l)%nat with O by lia.
    rewrite firstn_O. now rewrite app_nil_r.
Qed.

(** ** Steps that only make directories *)

Lemma made_dirs_refl (made : list location) (f : filesystem) :
  made_dirs made f f.
Proof. intros q. now left. Qed.

Lemma made_dirs_trans (made : list location) (f1 f2 f3 : filesystem) :
  made_dirs made f1 f2 -> made_dirs made f2 f3 -> made_dirs made f1 f3.
Proof.
  intros H12 H23 q.
  destruct (H12 q) as [E12|(I & N1 & D2)], (H23 q) as [E23|(I' & N2 & D3)].
  - left. congruence.
  - right. repeat split; congruence.
  - right. repeat split; congruence.
  - congruence.
Qed.

Lemma made_dirs_mono (made made' : list location) (f f' : filesystem) :
  incl made made' -> made_dirs made f f' -> made_dirs made' f f'.
Proof.
  intros Hi H q. destruct (H q) as [E|(I & N & D)]; [now left|].
  right. repeat split; auto.
Qed.

(** A step that only makes directories keeps what was there. *)
Lemma made_dirs_keeps (made : list location) (f f' : filesystem)
    (q : location) (n : node) :
  made_dirs made f f' -> lookup q f = Some n -> lookup q f' = Some n.
Proof. intros H E. destruct (H q) as [E'|(_ & N & _)]; congruence. Qed.

Lemma made_dirs_dir (made : list location) (f f' : filesystem)
    (q : location) :
  made_dirs made f f' -> dir_at f q = true -> dir_at f' q = true.
Proof.
  intros H. unfold dir_at. destruct (anchor q); [trivial|]. simpl.
  destruct (lookup q f) as [[|]|] eqn:E; try discriminate.
  now rewrite (made_dirs_keeps _ _ _ _ _ H E).
Qed.

(** What such a step leaves at a place that did not hold a file is not a
    file either. *)
Lemma made_dirs_no_file (made : list location) (f f' : filesystem)
    (q : location) :
  made_dirs made f f' ->
  (forall data, lookup q f <> Some (File data)) ->
  forall data, lookup q f' <> Some (File data).
Proof.
  intros H N data. destruct (H q) as [E|(_ & _ & D)]; [|congruence].
  rewrite E. apply N.
Qed.

Lemma exists_not_file (f : filesystem) (q : location) :
  exists_at f q = true ->
  (forall data, lookup q f <> Some (File data)) ->
  dir_at f q = true.
Proof.
  unfold exists_at, dir_at. destruct (anchor q); [trivial|]. simpl.
  destruct (lookup q f) as [[data|]|]; intros E N;
    [now elim (N data) | reflexivity | discriminate].
Qed.

Lemma dir_exists (f : filesystem) (q : location) :
  dir_at f q = true -> exists_at f q = true.
Proof.
  unfold exists_at, dir_at. destruct (anchor q); [trivial|]. simpl.
  now destruct (lookup q f) as [[|]|].
Qed.

(** ** [mkdir] and [write_file] *)

Lemma mkdir_ok (name : string) (f f' : filesystem) :
  mkdir name f = Ok f' ->
  f' = (f ++ [(resolve name, Dir)])%list /\
  name <> "" /\ exists_at f (resolve name) = false.
Proof.
  unfold mkdir. destruct (String.eqb_spec name ""); [discriminate|].
  destruct (ends_in_dot name);
    [destruct (dir_at f (resolve name)); discriminate|].
  destruct (exists_at f (resolve name)) eqn:E; [discriminate|].
  destruct (check_parent f (resolve name)); [|discriminate].
  now intros [= <-].
Qed.

Lemma mkdir_plain (name : string) (f f' : filesystem) :
  mkdir name f = Ok f' ->
  ends_in_dot name = false /\ dir_at f (parent (resolve name)) = true.
Proof.
  unfold mkdir, check_parent. destruct (String.eqb name ""); [discriminate|].
  destruct (ends_in_dot name);
    [destruct (dir_at f (resolve name)); discriminate|].
  destruct (exists_at f (resolve name)); [discriminate|].
  destruct (dir_at f (parent (resolve name))); [now split | discriminate].
Qed.

Lemma walk_error_OSError (f : filesystem) (k : location) :
  is_OSError (walk_error f k) = true.
Proof. unfold walk_error. now destruct (existsb _ _). Qed.

Lemma walk_error_not_exists (f : filesystem) (k : location) :
  walk_error f k <> FileExistsError.
Proof. unfold walk_error. now destruct (existsb _ _). Qed.

Lemma mkdir_raises (name : string) (f : filesystem) (e : exn) :
  mkdir name f = Raise e ->
  is_OSError e = true /\
  (e = FileExistsError -> name <> "" /\ exists_at f (resolve name) = true).
Proof.
  unfold mkdir, check_parent. destruct (String.eqb_spec name "").
  - intros [= <-]. split; [reflexivity | discriminate].
  - destruct (ends_in_dot name).
    { destruct (dir_at f (resolve name)) eqn:D; intros [= <-].
      - split; [reflexivity|]. intros _. split; [assumption|].
        now apply dir_exists.
      - split; [apply walk_error_OSError|].
        intros E. now apply walk_error_not_exists in E. }
    destruct (exists_at f (resolve name)); [now intros [= <-]|].
    destruct (dir_at f _); [discriminate|].
    intros [= <-]. split; [apply walk_error_OSError|].
    intros E. now apply walk_error_not_exists in E.
Qed.

(** Under a spelling that ends in [.], [FileExistsError] means that the
    directory is there. *)
Lemma mkdir_dot (name : string) (f : filesystem) :
  mkdir name f = Raise FileExistsError ->
  ends_in_dot name = true -> dir_at f (resolve name) = true.
Proof.
  unfold mkdir. destruct (String.eqb name ""); [discriminate|].
  intros H E. rewrite E in H.
  destruct (dir_at f (resolve name)); [reflexivity|].
  injection H as H. now apply walk_error_not_exists in H.
Qed.

Lemma exists_at_false (f : filesystem) (k : location) :
  exists_at f k = false -> anchor k = false /\ lookup k f = None.
Proof.
  unfold exists_at. destruct (anchor k); [discriminate|]. simpl.
  now destruct (lookup k f).
Qed.

Lemma anchor_snd (k : location) : anchor k = false -> snd k <> [].
Proof. destruct k as [a [|x l]]; [discriminate | discriminate]. Qed.

Lemma mkdir_made (name : string) (f f' : filesystem) :
  mkdir name f = Ok f' ->
  made_dirs [resolve name] f f' /\ dir_at f' (resolve name) = true.
Proof.
  intros H. apply mkdir_ok in H as (-> & _ & E).
  apply exists_at_false in E as [A E]. split.
  - intros q. rewrite lookup_app_new.
    destruct (lookup q (f)) eqn:Q; [now left|].
    destruct (location_eq_dec q (resolve name)) as [->|_]; [|now left].
    right. split; [now left | split; reflexivity].
  - unfold dir_at. rewrite lookup_app_new, E.
    destruct (location_eq_dec _ _) as [_|N]; [|now elim N].
    apply orb_true_r.
Qed.

Lemma write_file_ok (name data : string) (f f' : filesystem) :
  write_file name data f = Ok f' ->
  f' = write (resolve name) (File data) f /\
  dir_at f (resolve name) = false.
Proof.
  unfold write_file. destruct (String.eqb name ""); [discriminate|].
  destruct (dir_at f (resolve name)); [discriminate|].
  destruct (ends_in_dot name); [discriminate|].
  destruct (check_parent f (resolve name)); [|discriminate].
  destruct (endswith name "/"); [discriminate|].
  now intros [= <-].
Qed.

(** Writing a file never removes a directory. *)
Lemma write_file_keeps_dirs (name data : string) (f f' : filesystem)
    (q : location) :
  write_file name data f = Ok f' -> dir_at f q = true -> dir_at f' q = true.
Proof.
  intros H Hq. apply write_file_ok in H as [-> Hn].
  destruct (location_eq_dec q (resolve name)) as [->|N]; [congruence|].
  unfold dir_at in *. rewrite lookup_write.
  now destruct (location_eq_dec q (resolve name)).
Qed.

End FsFacts.

(* ================================================================== *)
(** * Facts about [os.makedirs] *)
(* ================================================================== *)

Module MakedirsFacts.
Import StringFacts PathFacts FsFacts CellFacts.

(** ** What the head and tail of a name resolve to *)

Lemma split_leaf_names (name : string) :
  snd (resolve name) =
  (names (fst (split_leaf name)) ++
   (if real_name (snd (split_leaf name)) then [snd (split_leaf name)]
    else []))%list.
Proof.
  destruct (split_leaf_spec name) as (T & N & _).
  simpl. rewrite N. f_equal. now apply names_no_sep.
Qed.

(** A real last name: the head resolves to the parent. *)
Lemma resolve_leaf_real (name : string) :
  fst (split_leaf name) <> "" ->
  real_name (snd (split_leaf name)) = true ->
  parent (resolve name) = resolve (fst (split_leaf name)) /\
  snd (resolve name) <> [].
Proof.
  intros Hh Hr. pose proof (split_leaf_names name) as N.
  destruct (split_leaf_spec name) as (_ & _ & A).
  rewrite Hr in N. unfold parent. rewrite N. split.
  - rewrite removelast_last. unfold resolve. simpl. f_equal.
    symmetry. now apply A.
  - now destruct (names (fst (split_leaf name))).
Qed.

(** No real last name: the head resolves to the same place. *)
Lemma resolve_leaf_same (name : string) :
  fst (split_leaf name) <> "" ->
  real_name (snd (split_leaf name)) = false ->
  resolve name = resolve (fst (split_leaf name)).
Proof.
  intros Hh Hr. pose proof (split_leaf_names name) as N.
  destruct (split_leaf_spec name) as (_ & _ & A).
  rewrite Hr, app_nil_r in N. unfold resolve in *. simpl in *.
  f_equal; [symmetry; now apply A | exact N].
Qed.

(** An empty head: the name lies in the working directory. *)
Lemma resolve_leaf_top (name : string) :
  fst (split_leaf name) = "" -> anchor (parent (resolve name)) = true.
Proof.
  intros Hh. pose proof (split_leaf_names name) as N. rewrite Hh in N.
  unfold anchor, parent. simpl in *. rewrite N.
  now destruct (real_name _).
Qed.

Lemma lineage_head (name : string) (q : location) :
  fst (split_leaf name) <> "" ->
  In q (lineage (resolve (fst (split_leaf name)))) ->
  In q (lineage (resolve name)).
Proof.
  intros Hh Hq. pose proof (split_leaf_names name) as N.
  destruct (split_leaf_spec name) as (_ & _ & A).
  unfold resolve in *. simpl in N. rewrite N, <- (A Hh).
  now apply lineage_app.
Qed.

(** After stripping, a head does not end in a separator. *)
Lemma rstrip_sep_tail (s : string) :
  rstrip_sep s <> "" -> snd (split_last_sep (rstrip_sep s)) <> "".
Proof.
  induction s as [|c s IH]; simpl; [now intros N|].
  destruct (rstrip_sep s) as [|x r] eqn:E.
  - destruct (Ascii.eqb_spec c "/") as [->|N]; [now intros N|].
    intros _. simpl. apply Ascii.eqb_neq in N. rewrite N. discriminate.
  - intros _. specialize (IH ltac:(discriminate)).
    change (split_last_sep (String c (String x r))) with
      (match split_last_sep (String x r) with
       | (EmptyString, t) =>
           if Ascii.eqb c "/" then (String c EmptyString, t)
           else (EmptyString, String c t)
       | (h, t) => (String c h, t)
       end).
    destruct (split_last_sep (String x r)) as [[|y h] t]; simpl in *;
      [destruct (Ascii.eqb c "/"); simpl; [exact IH | discriminate]
      | exact IH].
Qed.

Lemma rstrip_sep_empty (s : string) :
  rstrip_sep s = "" -> names s = [].
Proof.
  intros E. destruct (rstrip_sep_spec s) as [n Hn].
  rewrite E in Hn. simpl in Hn. rewrite Hn. apply names_slashes.
Qed.

(** A name without a last name, even after a second split, names the
    root or the working directory. *)
Lemma split_leaf_no_tail (name : string) :
  snd (split_leaf name) = "" -> anchor (resolve name) = true.
Proof.
  unfold split_leaf.
  pose proof (path_split_spec name) as (_ & N1 & _).
  destruct (path_split name) as [h1 t1] eqn:P1. simpl in N1.
  destruct (String.eqb_spec t1 "") as [->|N]; [|now intros Ht].
  intros Ht. unfold anchor, resolve. simpl. rewrite N1. simpl.
  rewrite app_nil_r.
  assert (Hn : names h1 = []); [|now rewrite Hn].
  unfold path_split in P1.
  destruct (split_last_sep name) as [h0 t0].
  destruct (rstrip_sep h0) as [|x r] eqn:E.
  - injection P1 as <- _. now apply rstrip_sep_empty.
  - injection P1 as <- _. exfalso.
    pose proof (rstrip_sep_tail h0) as T. rewrite E in T.
    specialize (T ltac:(discriminate)).
    unfold path_split in Ht.
    destruct (split_last_sep (String x r)) as [h2 t2]. simpl in T.
    destruct (rstrip_sep h2); simpl in Ht; now apply T.
Qed.

(** ** Worlds that differ by new directories *)

Lemma makes_dirs_refl (made : list location) (w : world) :
  makes_dirs made w w.
Proof. split; [reflexivity | apply made_dirs_refl]. Qed.

Lemma makes_dirs_trans (made : list location) (w1 w2 w3 : world) :
  makes_dirs made w1 w2 -> makes_dirs made w2 w3 -> makes_dirs made w1 w3.
Proof.
  intros [T12 F12] [T23 F23]. split; [congruence|].
  eapply made_dirs_trans; eassumption.
Qed.

Lemma makes_dirs_mono (made made' : list location) (w w' : world) :
  incl made made' -> makes_dirs made w w' -> makes_dirs made' w w'.
Proof.
  intros Hi [T F]. split; [exact T | eapply made_dirs_mono; eassumption].
Qed.

(** ** The last step *)

Lemma make_leaf_run (name : string) (exist_ok : bool) (w : world) :
  make_leaf name exist_ok w =
  match mkdir name (fs w) with
  | Ok f' => (Ok tt, set_fs f' w)
  | Raise e =>
      if is_OSError e && exist_ok && isdir (fs w) name
      then (Ok tt, w) else (Raise e, w)
  end.
Proof.
  unfold make_leaf, try_except, os_mkdir.
  destruct (mkdir name (fs w)) as [f'|e]; [reflexivity|].
  destruct (is_OSError e); [|reflexivity].
  unfold bind, os_path_isdir.
  now destruct exist_ok, (isdir (fs w) name).
Qed.

Lemma make_leaf_makes (name : string) (exist_ok : bool) :
  preserves (makes_dirs (lineage (resolve name))) (make_leaf name exist_ok).
Proof.
  intros w r w'. rewrite make_leaf_run.
  destruct (mkdir name (fs w)) as [f'|e] eqn:E.
  - intros [= _ <-]. split; [reflexivity|]. simpl.
    pose proof (mkdir_made _ _ _ E) as [Hm _].
    apply mkdir_ok in E as (_ & _ & X). apply exists_at_false in X as [A _].
    eapply made_dirs_mono; [|exact Hm].
    intros q [<-|[]]. now apply lineage_self, anchor_snd.
  - destruct (_ && _); intros [= _ <-]; apply makes_dirs_refl.
Qed.

Lemma make_leaf_isdir (name : string) (w w' : world) :
  make_leaf name true w = (Ok tt, w') -> isdir (fs w') name = true.
Proof.
  rewrite make_leaf_run.
  destruct (mkdir name (fs w)) as [f'|e] eqn:E.
  - intros [= <-]. simpl. pose proof (mkdir_made _ _ _ E) as [_ D].
    apply mkdir_ok in E as (_ & N & _). unfold isdir. rewrite D.
    apply String.eqb_neq in N. now rewrite N.
  - destruct (is_OSError e); simpl; [|discriminate].
    destruct (isdir (fs w) name) eqn:D; [|discriminate].
    now intros [= <-].
Qed.

(** The last step lets [FileExistsError] through only when a file sits
    where the directory should be. *)
Lemma make_leaf_FileExistsError (name : string) (w w' : world) :
  make_leaf name true w = (Raise FileExistsError, w') ->
  name <> "" /\ exists data, lookup (resolve name) (fs w) = Some (File data).
Proof.
  rewrite make_leaf_run.
  destruct (mkdir name (fs w)) as [f'|e] eqn:E; [discriminate|].
  apply mkdir_raises in E as [O X].
  rewrite O. simpl. destruct (isdir (fs w) name) eqn:D; [discriminate|].
  intros [= -> _]. destruct (X eq_refl) as [N Hx]. split; [exact N|].
  unfold isdir in D. apply String.eqb_neq in N. rewrite N in D. simpl in D.
  unfold exists_at, dir_at in *.
  destruct (anchor (resolve name)); [discriminate|]. simpl in *.
  destruct (lookup (resolve name) (fs w)) as [[data|]|];
    [now exists data | discriminate | discriminate].
Qed.

(** It is not raised for a spelling that ends in [.], nor for the root or
    the working directory. *)
Lemma make_leaf_FileExistsError_plain (name : string) (w w' : world) :
  make_leaf name true w = (Raise FileExistsError, w') ->
  ends_in_dot name = false /\ anchor (resolve name) = false.
Proof.
  rewrite make_leaf_run.
  destruct (mkdir name (fs w)) as [f'|e] eqn:E; [discriminate|].
  destruct (mkdir_raises _ _ _ E) as [O X].
  rewrite O. simpl. destruct (isdir (fs w) name) eqn:D; [discriminate|].
  intros [= -> _]. destruct (X eq_refl) as [N _].
  unfold isdir in D. apply String.eqb_neq in N. rewrite N in D. simpl in D.
  split.
  - destruct (ends_in_dot name) eqn:Hd; [|reflexivity].
    rewrite (mkdir_dot _ _ E Hd) in D. discriminate.
  - unfold dir_at in D. now destruct (anchor (resolve name)).
Qed.

Lemma make_leaf_raises (name : string) (exist_ok : bool) (w w' : world)
    (e : exn) :
  make_leaf name exist_ok w = (Raise e, w') -> is_OSError e = true.
Proof.
  rewrite make_leaf_run.
  destruct (mkdir name (fs w)) as [f'|e'] eqn:E; [discriminate|].
  apply mkdir_raises in E as [O _].
  destruct (_ && _); [discriminate|]. now intros [= <- _].
Qed.


(** ** The recursion *)

(** One level of [os.makedirs], with the binds unfolded. *)
Lemma makedirs_rec_S (fuel : nat) (name : string) (exist_ok : bool)
    (w : world) :
  makedirs_rec (S fuel) name exist_ok w =
  let head := fst (split_leaf name) in
  let tail := snd (split_leaf name) in
  if negb (String.eqb head "") && negb (String.eqb tail "") &&
     negb (path_exists (fs w) head)
  then
    match makedirs_rec fuel head exist_ok w with
    | (Ok _, w1) =>
        if String.eqb tail "." then (Ok tt, w1)
        else make_leaf name exist_ok w1
    | (Raise e, w1) =>
        match e with
        | FileExistsError =>
            if String.eqb tail "." then (Ok tt, w1)
            else make_leaf name exist_ok w1
        | _ => (Raise e, w1)
        end
    end
  else make_leaf name exist_ok w.
Proof.
  simpl. destruct (split_leaf name) as [head tail]. simpl.
  unfold bind at 1. unfold parents_missing.
  destruct (_ && _); [|reflexivity].
  unfold bind, try_except.
  destruct (makedirs_rec fuel head exist_ok w) as [[[]|e] w1];
    [now destruct (String.eqb tail ".")|].
  destruct e; try reflexivity. unfold ret.
  now destruct (String.eqb tail ".").
Qed.

Lemma real_name_spec (t : string) :
  real_name t = negb (String.eqb t "") && negb (String.eqb t ".").
Proof. reflexivity. Qed.

(** [os.makedirs] logs nothing and only makes directories on the way to
    the name. *)
Lemma makedirs_rec_makes (fuel : nat) (exist_ok : bool) :
  forall name,
    preserves (makes_dirs (lineage (resolve name)))
      (makedirs_rec fuel name exist_ok).
Proof.
  induction fuel as [|fuel IH]; intros name w r w'.
  - intros [= _ <-]. apply makes_dirs_refl.
  - rewrite makedirs_rec_S. cbv zeta.
    destruct (_ && _) eqn:C; [|apply make_leaf_makes].
    apply andb_prop in C as [C _]. apply andb_prop in C as [Hh _].
    rewrite negb_true_iff in Hh. apply String.eqb_neq in Hh.
    destruct (makedirs_rec fuel _ exist_ok w) as [r1 w1] eqn:I.
    apply IH in I.
    assert (I' : makes_dirs (lineage (resolve name)) w w1).
    { eapply makes_dirs_mono; [|exact I].
      intros q. now apply lineage_head. }
    assert (L : forall r2 w2,
               (if String.eqb (snd (split_leaf name)) "."
                then (Ok tt, w1) else make_leaf name exist_ok w1) = (r2, w2) ->
               makes_dirs (lineage (resolve name)) w w2).
    { intros r2 w2. destruct (String.eqb _ ".").
      - now intros [= _ <-].
      - intros H. eapply makes_dirs_trans; [exact I'|].
        eapply make_leaf_makes, H. }
    destruct r1 as [[]|e]; [apply L|].
    destruct e; try (intros [= _ <-]; exact I'). apply L.
Qed.

(** With [exist_ok], [FileExistsError] means that a file has the name,
    which is spelled without a last [.]. *)
Lemma makedirs_rec_FileExistsError (fuel : nat) (name : string)
    (w w' : world) :
  makedirs_rec fuel name true w = (Raise FileExistsError, w') ->
  name <> "" /\ ends_in_dot name = false /\
  exists data, lookup (resolve name) (fs w) = Some (File data).
Proof.
  destruct fuel as [|fuel]; [discriminate|].
  rewrite makedirs_rec_S. cbv zeta.
  assert (L : forall w1,
             makes_dirs (lineage (resolve name)) w w1 ->
             make_leaf name true w1 = (Raise FileExistsError, w') ->
             name <> "" /\ ends_in_dot name = false /\
             exists data, lookup (resolve name) (fs w) = Some (File data)).
  { intros w1 [_ Hm] H.
    destruct (make_leaf_FileExistsError_plain _ _ _ H) as [Hd _].
    apply make_leaf_FileExistsError in H as (N & data & H).
    split; [exact N|]. split; [exact Hd|]. exists data.
    destruct (Hm (resolve name)) as [E|(_ & _ & D)]; [|congruence].
    now rewrite <- E. }
  destruct (_ && _) eqn:C; [|apply L, makes_dirs_refl].
  apply andb_prop in C as [C _]. apply andb_prop in C as [Hh _].
  rewrite negb_true_iff in Hh. apply String.eqb_neq in Hh.
  destruct (makedirs_rec fuel _ true w) as [r1 w1] eqn:I.
  apply makedirs_rec_makes in I.
  assert (I' : makes_dirs (lineage (resolve name)) w w1).
  { eapply makes_dirs_mono; [|exact I]. intros q. now apply lineage_head. }
  destruct r1 as [[]|e].
  - destruct (String.eqb _ "."); [discriminate | now apply L].
  - destruct e; try discriminate.
    destruct (String.eqb _ "."); [discriminate | now apply L].
Qed.

(** So the head of a name, when the recursion on it ends in
    [FileExistsError], was found by [os.path.exists]. *)
Lemma head_exists (fuel : nat) (name : string) (w w' : world) :
  makedirs_rec fuel (fst (split_leaf name)) true w
  = (Raise FileExistsError, w') ->
  path_exists (fs w) (fst (split_leaf name)) = true.
Proof.
  intros H. apply makedirs_rec_FileExistsError in H as (N & Hd & data & H).
  unfold path_exists, exists_at, asks_dir.
  apply String.eqb_neq in N. rewrite N, H, Hd, orb_true_r.
  destruct (endswith (fst (split_leaf name)) "/") eqn:S; [|reflexivity].
  apply split_leaf_head_sep in S. unfold dir_at, anchor, resolve.
  cbn [snd]. now rewrite S.
Qed.

(** When [os.makedirs] returns, the directory is there. *)
Lemma makedirs_rec_isdir (fuel : nat) :
  forall name w w',
    makedirs_rec fuel name true w = (Ok tt, w') ->
    isdir (fs w') name = true.
Proof.
  induction fuel as [|fuel IH]; intros name w w'; [discriminate|].
  rewrite makedirs_rec_S. cbv zeta.
  destruct (_ && _) eqn:C; [|apply make_leaf_isdir].
  apply andb_prop in C as [C X]. apply andb_prop in C as [Hh Ht].
  rewrite negb_true_iff in Hh, Ht, X.
  apply String.eqb_neq in Hh. apply String.eqb_neq in Ht.
  destruct (makedirs_rec fuel _ true w) as [r1 w1] eqn:I.
  destruct r1 as [[]|e].
  - destruct (String.eqb_spec (snd (split_leaf name)) ".") as [Hd|Hd];
      [|apply make_leaf_isdir].
    intros [= <-]. apply IH in I.
    assert (N : name <> "").
    { intros ->. now apply Ht. }
    unfold isdir in *. apply String.eqb_neq in N. rewrite N. simpl.
    rewrite (resolve_leaf_same name Hh); [|now rewrite Hd].
    apply andb_prop in I as [_ I]. exact I.
  - destruct e; try discriminate.
    apply head_exists in I. congruence.
Qed.

(** The recursion runs out of depth only below the length of the name. *)
Lemma makedirs_rec_depth (fuel : nat) (exist_ok : bool) :
  forall name w w',
    makedirs_rec fuel name exist_ok w = (Raise RecursionError, w') ->
    (fuel <= String.length name)%nat.
Proof.
  induction fuel as [|fuel IH]; intros name w w'; [lia|].
  rewrite makedirs_rec_S. cbv zeta.
  assert (L : forall w1,
             make_leaf name exist_ok w1 = (Raise RecursionError, w') ->
             (S fuel <= String.length name)%nat).
  { intros w1 H. apply make_leaf_raises in H. discriminate. }
  destruct (_ && _) eqn:C; [|apply L].
  apply andb_prop in C as [C _]. apply andb_prop in C as [_ Ht].
  rewrite negb_true_iff in Ht. apply String.eqb_neq in Ht.
  destruct (makedirs_rec fuel _ exist_ok w) as [r1 w1] eqn:I.
  destruct r1 as [[]|e].
  - destruct (String.eqb _ "."); [discriminate | apply L].
  - destruct e; try discriminate.
    + destruct (String.eqb _ "."); [discriminate | apply L].
    + intros _. apply IH in I.
      pose proof (split_leaf_length name Ht). lia.
Qed.

(** The fuel [os_makedirs] gives is enough. *)
Lemma os_makedirs_terminates (name : string) (exist_ok : bool)
    (w w' : world) :
  os_makedirs name exist_ok w <> (Raise RecursionError, w').
Proof.
  unfold os_makedirs. intros H. apply makedirs_rec_depth in H. lia.
Qed.

(** ** When the directory is there *)


(** ** [os.makedirs] as the notebook calls it *)

Lemma os_makedirs_makes (name : string) (exist_ok : bool) :
  preserves (makes_dirs (lineage (resolve name))) (os_makedirs name exist_ok).
Proof. apply makedirs_rec_makes. Qed.

Lemma os_makedirs_isdir (name : string) (w w' : world) :
  os_makedirs name true w = (Ok tt, w') -> isdir (fs w') name = true.
Proof. apply makedirs_rec_isdir. Qed.


End MakedirsFacts.

(* ================================================================== *)
(** * Facts about logs *)
(* ================================================================== *)

Module LogFacts.

Lemma pipeline_calls_app (s t : list event) :
  pipeline_calls (s ++ t) = (pipeline_calls s + pipeline_calls t)%nat.
Proof.
  induction s as [|e s IH]; [reflexivity|].
  destruct e; simpl; now rewrite IH.
Qed.

Lemma returned_images_app (s t : list event) :
  returned_images (s ++ t) = (returned_images s ++ returned_images t)%list.
Proof.
  induction s as [|e s IH]; [reflexivity|].
  destruct e as [p b g [images|err]| | | | | |]; simpl; rewrite IH;
    try reflexivity.
  now rewrite app_assoc.
Qed.

Lemma saves_app (s t : list event) :
  saves (s ++ t) = (saves s ++ saves t)%list.
Proof.
  induction s as [|e s IH]; [reflexivity|].
  destruct e; simpl; now rewrite IH.
Qed.

(** What one iteration of [generate_images] leaves in the log. *)

Lemma saves_persist_events (b : Z) (d : string) (disp : bool) (i : Z)
    (items : list (Z * pil_image)) :
  saves (flat_map (persist_events b d disp i) items)
  = map (fun item => (snd item, image_path d (i * b + fst item))) items.
Proof.
  induction items as [|item items IH]; [reflexivity|].
  simpl. destruct disp; simpl; now rewrite IH.
Qed.

Lemma pipeline_calls_persist_events (b : Z) (d : string) (disp : bool)
    (i : Z) (items : list (Z * pil_image)) :
  pipeline_calls (flat_map (persist_events b d disp i) items) = O.
Proof.
  induction items as [|item items IH]; [reflexivity|].
  simpl. destruct disp; simpl; now rewrite IH.
Qed.

Lemma returned_images_persist_events (b : Z) (d : string) (disp : bool)
    (i : Z) (items : list (Z * pil_image)) :
  returned_images (flat_map (persist_events b d disp i) items) = [].
Proof.
  induction items as [|item items IH]; [reflexivity|].
  simpl. destruct disp; simpl; now rewrite IH.
Qed.

Lemma saves_batch_events (p : string) (b g : Z) (d : string) (disp : bool)
    (i : Z) (images : list pil_image) :
  saves (batch_events p b g d disp i images)
  = map (fun item => (snd item, image_path d (i * b + fst item)))
        (enumerate images).
Proof. unfold batch_events. simpl. apply saves_persist_events. Qed.

Lemma saved_images_batch_events (p : string) (b g : Z) (d : string)
    (disp : bool) (i : Z) (images : list pil_image) :
  saved_images (batch_events p b g d disp i images) = images.
Proof.
  unfold saved_images. rewrite saves_batch_events, map_map. simpl.
  apply PyFacts.enumerate_from_snd.
Qed.

Lemma saved_paths_batch_events (p : string) (b g : Z) (d : string)
    (disp : bool) (i : Z) (images : list pil_image) :
  saved_paths (batch_events p b g d disp i images)
  = map (fun idx => image_path d (i * b + idx)) (range (len images)).
Proof.
  unfold saved_paths. rewrite saves_batch_events, map_map. simpl.
  rewrite <- (map_map fst (fun idx => image_path d (i * b + idx))).
  unfold enumerate. rewrite PyFacts.enumerate_from_fst, map_map.
  apply map_ext. intros idx. reflexivity.
Qed.

End LogFacts.

(* ================================================================== *)
(** * Runs of [generate_images] *)
(* ================================================================== *)

Module GenerateFacts.
Import StringFacts PyFacts CellFacts FsFacts MakedirsFacts LogFacts.

Section Runs.

Context (ext : externals).

(** A save that returns has written the PNG. *)
Lemma image_save_ok (image : pil_image) (name : string) (w w' : world) :
  image_save ext image name w = (Ok tt, w') ->
  exists f',
    write_file name (png_bytes image) (fs w) = Ok f' /\
    w' = set_fs f' (log_event (ImageSave image name) w).
Proof.
  unfold image_save.
  destruct (save_outcome ext w image name) as [[e [partial|]]|].
  - destruct (write_file name partial (fs w)); discriminate.
  - discriminate.
  - destruct (write_file _ _ (fs w)) as [f'|e]; [|discriminate].
    intros [= <-]. now exists f'.
Qed.

(** However a save ends, it logs itself and leaves the file system as it
    was or with a file under its name. *)
Lemma image_save_run (image : pil_image) (name : string) (w : world)
    (r : result unit) (w' : world) :
  image_save ext image name w = (r, w') ->
  w' = log_event (ImageSave image name) w \/
  exists data f',
    write_file name data (fs w) = Ok f' /\
    w' = set_fs f' (log_event (ImageSave image name) w).
Proof.
  unfold image_save.
  destruct (save_outcome ext w image name) as [[e [partial|]]|].
  - destruct (write_file name partial (fs w)) as [f'|e'] eqn:E;
      intros [= _ <-]; [right; now exists partial, f' | now left].
  - intros [= _ <-]. now left.
  - destruct (write_file _ _ (fs w)) as [f'|e'] eqn:E;
      intros [= _ <-]; [right; now exists (png_bytes image), f' | now left].
Qed.

(** One image saved (and shown): what is logged and what is written. *)
Lemma persist_ok (b : Z) (d : string) (disp : bool) (i : Z)
    (item : Z * pil_image) (w w' : world) :
  persist ext b d disp i item w = (Ok tt, w') ->
  trace w' = (trace w ++ persist_events b d disp i item)%list /\
  write_file (image_path d (i * b + fst item)) (png_bytes (snd item)) (fs w)
  = Ok (fs w').
Proof.
  destruct item as [idx image]. unfold persist, persist_events, bind.
  destruct (image_save ext image _ w) as [[[]|e] w1] eqn:S; [|discriminate].
  apply image_save_ok in S as (f' & W & ->). simpl. rewrite W.
  destruct disp.
  - unfold display, call. destruct (display_outcome ext _ _); [discriminate|].
    intros [= <-]. simpl. now rewrite <- app_assoc.
  - now intros [= <-].
Qed.

Lemma persist_loop_ok (b : Z) (d : string) (disp : bool) (i : Z) :
  forall items w w',
    for_each items (persist ext b d disp i) w = (Ok tt, w') ->
    trace w' = (trace w ++ flat_map (persist_events b d disp i) items)%list.
Proof.
  induction items as [|item items IH]; intros w w'; simpl.
  - intros [= <-]. now rewrite app_nil_r.
  - intros H. apply bind_inv_ok in H as ([] & w1 & H1 & H2).
    apply persist_ok in H1 as [T1 _]. apply IH in H2.
    now rewrite H2, T1, <- app_assoc.
Qed.

(** One completed iteration logs the pipeline call and then its saves. *)
Lemma generate_batch_ok (p : string) (b g : Z) (d : string) (disp : bool)
    (i : Z) (w w' : world) :
  generate_batch ext p b g d disp i w = (Ok tt, w') ->
  exists images,
    pipeline_outcome ext w p b g = Ok images /\
    trace w' = (trace w ++ batch_events p b g d disp i images)%list.
Proof.
  unfold generate_batch, bind, pipeline.
  destruct (pipeline_outcome ext w p b g) as [images|e] eqn:E;
    [|discriminate].
  intros H. apply persist_loop_ok in H. exists images.
  split; [reflexivity|]. rewrite H. simpl. now rewrite <- app_assoc.
Qed.

Lemma batch_loop_ok (p : string) (b g : Z) (d : string) (disp : bool) :
  forall n s w w',
    for_each (map Z.of_nat (seq s n)) (generate_batch ext p b g d disp) w
    = (Ok tt, w') ->
    exists batches,
      List.length batches = n /\
      trace w' =
      (trace w ++
       List.concat
         (map (fun batch =>
                 batch_events p b g d disp (fst batch) (snd batch))
              (enumerate_from (Z.of_nat s) batches)))%list.
Proof.
  induction n as [|n IH]; intros s w w'; simpl.
  - intros [= <-]. exists []. now rewrite app_nil_r.
  - intros H. apply bind_inv_ok in H as ([] & w1 & H1 & H2).
    apply generate_batch_ok in H1 as (images & _ & T1).
    apply IH in H2 as (batches & L & T2).
    exists (images :: batches). split; [simpl; now rewrite L|].
    rewrite T2, T1, <- app_assoc. simpl.
    now replace (Z.of_nat s + 1) with (Z.of_nat (S s)) by lia.
Qed.

(** A completed call: the division went through, the directory was made,
    and the log grew by the iterations of the loop, one batch each. *)
Lemma generate_images_ok (p : string) (n b g : Z) (d : string)
    (disp : bool) (w w' : world) :
  generate_images ext p n b g d disp w = (Ok tt, w') ->
  b <> 0 /\
  exists w1 batches,
    os_makedirs d true w = (Ok tt, w1) /\
    for_each (range (n / b)) (generate_batch ext p b g d disp) w1
    = (Ok tt, w') /\
    List.length batches = Z.to_nat (n / b) /\
    trace w' = (trace w ++ run_events p b g d disp batches)%list.
Proof.
  unfold generate_images, bind at 1, lift, floordiv.
  destruct (Z.eqb_spec b 0) as [->|N]; [discriminate|].
  intros H. split; [exact N|].
  apply bind_inv_ok in H as ([] & w1 & H1 & H2).
  pose proof H2 as H3. apply batch_loop_ok in H3 as (batches & L & T).
  exists w1, batches. repeat split; auto.
  apply os_makedirs_makes in H1 as [T1 _]. now rewrite T, T1.
Qed.

(** ** What a completed run logged *)

Lemma run_events_calls (p : string) (b g : Z) (d : string) (disp : bool)
    (batches : list (list pil_image)) :
  pipeline_calls (run_events p b g d disp batches) = List.length batches.
Proof.
  unfold run_events, enumerate. generalize 0.
  induction batches as [|images batches IH]; intros s; [reflexivity|].
  simpl. rewrite pipeline_calls_app, pipeline_calls_persist_events, IH.
  reflexivity.
Qed.

Lemma run_events_returned (p : string) (b g : Z) (d : string) (disp : bool)
    (batches : list (list pil_image)) :
  returned_images (run_events p b g d disp batches) = List.concat batches.
Proof.
  unfold run_events, enumerate. generalize 0.
  induction batches as [|images batches IH]; intros s; [reflexivity|].
  simpl. rewrite returned_images_app, returned_images_persist_events, IH.
  reflexivity.
Qed.

Lemma run_events_saved_images (p : string) (b g : Z) (d : string)
    (disp : bool) (batches : list (list pil_image)) :
  saved_images (run_events p b g d disp batches) = List.concat batches.
Proof.
  unfold run_events, enumerate. generalize 0.
  induction batches as [|images batches IH]; intros s; [reflexivity|].
  cbn [enumerate_from map List.concat fst snd].
  unfold saved_images in *. rewrite saves_app, map_app, IH.
  f_equal. apply saved_images_batch_events.
Qed.

Lemma run_events_saved_paths (p : string) (b g : Z) (d : string)
    (disp : bool) (batches : list (list pil_image)) :
  saved_paths (run_events p b g d disp batches)
  = map (image_path d) (run_indices b batches).
Proof.
  unfold run_events, run_indices, indices_from, enumerate. generalize 0.
  induction batches as [|images batches IH]; intros s; [reflexivity|].
  cbn [enumerate_from map List.concat fst snd].
  unfold saved_paths in *. rewrite saves_app, !map_app, IH.
  f_equal. rewrite map_map. apply saved_paths_batch_events.
Qed.

Lemma run_events_batches (p : string) (b g : Z) (d : string) (disp : bool)
    (batches : list (list pil_image)) (images : list pil_image) :
  In images batches ->
  In (PipelineCall p b g (Ok images)) (run_events p b g d disp batches).
Proof.
  unfold run_events, enumerate. generalize 0.
  induction batches as [|images' batches IH]; intros s; [intros []|].
  cbn [enumerate_from map List.concat fst snd]. intros [->|H].
  - apply in_or_app. left. now left.
  - apply in_or_app. right. now apply IH.
Qed.

End Runs.

End GenerateFacts.

(* ================================================================== *)
(** * The indices and names of the saved images *)
(* ================================================================== *)

Module IndexFacts.
Import StringFacts PyFacts.

Lemma range_shift (n : nat) :
  forall s k,
    map Z.of_nat (seq (s + k) n)
    = map (Z.add (Z.of_nat k)) (map Z.of_nat (seq s n)).
Proof.
  induction n as [|n IH]; intros s k; [reflexivity|].
  simpl. f_equal; [lia|]. apply (IH (S s) k).
Qed.

Lemma range_add (a c : Z) :
  0 <= a -> 0 <= c -> range (a + c) = (range a ++ map (Z.add a) (range c))%list.
Proof.
  intros Ha Hc. unfold range.
  replace (Z.to_nat (a + c)) with (Z.to_nat a + Z.to_nat c)%nat by lia.
  rewrite seq_app, map_app. f_equal.
  rewrite (range_shift (Z.to_nat c) 0 (Z.to_nat a)).
  now rewrite Z2Nat.id.
Qed.

Lemma range_sorted (n : nat) :
  forall s, StronglySorted Z.lt (map Z.of_nat (seq s n)).
Proof.
  induction n as [|n IH]; intros s; simpl; constructor; [apply IH|].
  apply Forall_forall. intros x Hx. apply in_map_iff in Hx as (i & <- & Hi).
  apply in_seq in Hi. lia.
Qed.

Lemma sorted_map_add (a : Z) (l : list Z) :
  StronglySorted Z.lt l -> StronglySorted Z.lt (map (Z.add a) l).
Proof.
  induction 1 as [|x l S IH F]; simpl; constructor; [exact IH|].
  apply Forall_forall. intros y Hy. apply in_map_iff in Hy as (z & <- & Hz).
  rewrite Forall_forall in F. specialize (F z Hz). lia.
Qed.

Lemma sorted_app (l1 l2 : list Z) :
  StronglySorted Z.lt l1 -> StronglySorted Z.lt l2 ->
  (forall x y, In x l1 -> In y l2 -> x < y) ->
  StronglySorted Z.lt (l1 ++ l2).
Proof.
  induction 1 as [|x l S IH F]; intros S2 H; simpl; [exact S2|].
  constructor.
  - apply IH; [exact S2|]. intros a c Ha Hc. apply H; [now right | exact Hc].
  - apply Forall_forall. intros y Hy. apply in_app_or in Hy as [Hy|Hy].
    + rewrite Forall_forall in F. now apply F.
    + apply H; [now left | exact Hy].
Qed.

Lemma sorted_NoDup (l : list Z) : StronglySorted Z.lt l -> NoDup l.
Proof.
  induction 1 as [|x l S IH F]; constructor; [|exact IH].
  intros Hx. rewrite Forall_forall in F. specialize (F x Hx). lia.
Qed.

Lemma NoDup_map_inj {A B : Type} (f : A -> B) (l : list A) :
  (forall x y, f x = f y -> x = y) -> NoDup l -> NoDup (map f l).
Proof.
  intros Hf. induction 1 as [|x l Hx N IH]; simpl; constructor; [|exact IH].
  intros H. apply in_map_iff in H as (y & E & Hy).
  apply Hf in E. now subst.
Qed.

Lemma In_indices_from (b : Z) (batches : list (list pil_image)) :
  forall s k,
    0 <= s ->
    (forall images, In images batches -> len images <= b) ->
    In k (indices_from b s batches) -> s * b <= k.
Proof.
  unfold indices_from.
  induction batches as [|images batches IH]; intros s k Hs Hb; [intros []|].
  cbn [enumerate_from map List.concat fst snd]. intros H.
  apply in_app_or in H as [H|H].
  - apply in_map_iff in H as (idx & <- & Hi). apply In_range in Hi. lia.
  - apply IH in H; [| lia | intros; apply Hb; now right].
    assert (0 <= b).
    { specialize (Hb images (or_introl eq_refl)). unfold len in Hb. lia. }
    nia.
Qed.

(** Batches of at most [b] images are saved under increasing indices. *)
Lemma indices_from_sorted (b : Z) (batches : list (list pil_image)) :
  forall s,
    0 <= s ->
    (forall images, In images batches -> len images <= b) ->
    StronglySorted Z.lt (indices_from b s batches).
Proof.
  induction batches as [|images batches IH]; intros s Hs Hb;
    [constructor|].
  unfold indices_from. cbn [enumerate_from map List.concat fst snd].
  apply sorted_app.
  - replace (map (fun idx => s * b + idx) (range (len images)))
      with (map (Z.add (s * b)) (range (len images)))
      by (apply map_ext; intros; reflexivity).
    apply sorted_map_add, range_sorted.
  - apply IH; [lia | intros; apply Hb; now right].
  - intros x y Hx Hy.
    apply in_map_iff in Hx as (idx & <- & Hi). apply In_range in Hi.
    apply (In_indices_from b batches (s + 1)) in Hy;
      [| lia | intros; apply Hb; now right].
    specialize (Hb images (or_introl eq_refl)). lia.
Qed.

(** Batches of exactly [b] images are saved under the indices
    [s*b, s*b + 1, ...], without a gap. *)
Lemma indices_from_exact (b : Z) (batches : list (list pil_image)) :
  forall s,
    (forall images, In images batches -> len images = b) ->
    indices_from b s batches
    = map (Z.add (s * b)) (range (len batches * b)).
Proof.
  induction batches as [|images batches IH]; intros s Hb; [reflexivity|].
  unfold indices_from. cbn [enumerate_from map List.concat fst snd].
  fold (indices_from b (s + 1) batches).
  rewrite IH by (intros; apply Hb; now right).
  pose proof (Hb images (or_introl eq_refl)) as Hi.
  assert (0 <= b) by (unfold len in Hi; lia).
  replace (len (images :: batches) * b) with (b + len batches * b)
    by (unfold len; simpl List.length; lia).
  rewrite range_add by (unfold len; nia).
  rewrite map_app, Hi, map_map. apply f_equal2.
  - apply map_ext. intros; reflexivity.
  - apply map_ext. intros idx. lia.
Qed.

Lemma run_indices_sorted (b : Z) (batches : list (list pil_image)) :
  (forall images, In images batches -> len images <= b) ->
  StronglySorted Z.lt (run_indices b batches).
Proof. intros Hb. apply (indices_from_sorted b batches 0); [lia | exact Hb]. Qed.

Lemma run_indices_exact (b : Z) (batches : list (list pil_image)) :
  (forall images, In images batches -> len images = b) ->
  run_indices b batches = range (len batches * b).
Proof.
  intros Hb. unfold run_indices.
  rewrite indices_from_exact by exact Hb. simpl.
  rewrite <- (map_id (range _)) at 2. apply map_ext. intros; lia.
Qed.

(** Two indices never share a file name. *)
Lemma image_path_inj (d : string) (j k : Z) :
  image_path d j = image_path d k -> j = k.
Proof.
  unfold image_path. intros H.
  apply append_inj_l in H. apply (append_inj_l "/image_") in H.
  apply append_inj_r in H. now apply str_inj.
Qed.

End IndexFacts.

(* ================================================================== *)
(** * What every run of [generate_images] keeps *)
(* ================================================================== *)

Module FrameFacts.
Import StringFacts PyFacts CellFacts FsFacts MakedirsFacts GenerateFacts.

Section Invariant.

Context (ext : externals) (d : string).

Variable R : world -> world -> Prop.
Hypothesis R_refl : forall w, R w w.
Hypothesis R_trans : forall w1 w2 w3, R w1 w2 -> R w2 w3 -> R w1 w3.
Hypothesis R_log : forall e w, R w (log_event e w).
Hypothesis R_save :
  forall k data w f',
    write_file (image_path d k) data (fs w) = Ok f' ->
    R w (set_fs f' w).
Hypothesis R_makedirs : preserves R (os_makedirs d true).

Lemma call_preserves (e : event) (outcome : world -> option exn) :
  preserves R (call e outcome).
Proof.
  intros w r w'. unfold call.
  destruct (outcome w); intros [= _ <-]; apply R_log.
Qed.

Lemma pipeline_preserves (p : string) (b g : Z) :
  preserves R (pipeline ext p b g).
Proof. intros w r w' [= _ <-]. apply R_log. Qed.

Lemma image_save_preserves (image : pil_image) (k : Z) :
  preserves R (image_save ext image (image_path d k)).
Proof.
  intros w r w' H.
  apply image_save_run in H as [->|(data & f' & W & ->)]; [apply R_log|].
  eapply R_trans; [apply R_log|]. now apply (R_save k data).
Qed.

Lemma persist_preserves (b : Z) (disp : bool) (i : Z)
    (item : Z * pil_image) :
  preserves R (persist ext b d disp i item).
Proof.
  destruct item as [idx image]. unfold persist.
  apply preserves_bind; auto; [apply image_save_preserves|].
  intros _. destruct disp; [apply call_preserves | now apply preserves_ret].
Qed.

Lemma generate_batch_preserves (p : string) (b g : Z) (disp : bool)
    (i : Z) :
  preserves R (generate_batch ext p b g d disp i).
Proof.
  unfold generate_batch.
  apply preserves_bind; auto; [apply pipeline_preserves|].
  intros images. apply preserves_for_each; auto.
  intros item. apply persist_preserves.
Qed.

Lemma generate_images_preserves (p : string) (n b g : Z) (disp : bool) :
  preserves R (generate_images ext p n b g d disp).
Proof.
  unfold generate_images.
  apply preserves_bind; auto; [now apply preserves_lift|].
  intros iterations. apply preserves_bind; auto.
  intros _. apply preserves_for_each; auto.
  intros i. apply generate_batch_preserves.
Qed.

End Invariant.



(** No directory goes away. *)
Lemma generate_images_keeps_dirs (ext : externals) (p : string) (n b g : Z)
    (d : string) (disp : bool) :
  preserves keeps_dirs (generate_images ext p n b g d disp).
Proof.
  apply generate_images_preserves.
  - intros w q H. exact H.
  - intros w1 w2 w3 H12 H23 q H. now apply H23, H12.
  - intros e w q H. exact H.
  - intros k image w f' H q Hq. simpl.
    eapply write_file_keeps_dirs; eassumption.
  - intros w r w' H q Hq. apply os_makedirs_makes in H as [_ H].
    eapply made_dirs_dir; eassumption.
Qed.

(** The log only grows. *)
Lemma generate_images_extends_log (ext : externals) (p : string)
    (n b g : Z) (d : string) (disp : bool) :
  preserves extends_log (generate_images ext p n b g d disp).
Proof.
  apply generate_images_preserves.
  - intros w. exists []. now rewrite app_nil_r.
  - intros w1 w2 w3 [s H12] [t H23]. exists (s ++ t)%list.
    now rewrite H23, H12, app_assoc.
  - intros e w. now exists [e].
  - intros k image w f' H. exists []. simpl. now rewrite app_nil_r.
  - intros w r w' H. apply os_makedirs_makes in H as [H _].
    exists []. now rewrite H, app_nil_r.
Qed.

End FrameFacts.

(* ================================================================== *)
(** * Runs of the upload cell *)
(* ================================================================== *)

Module UploadFacts.
Import StringFacts PyFacts CellFacts PathFacts FsFacts LogFacts.

Section Runs.

Context (ext : externals).

(** One completed iteration logs the upload and the printed line, and
    leaves the files alone. *)
Lemma upload_one_ok (image_glob : list string) (image : string)
    (w w' : world) :
  upload_one ext image_glob image w = (Ok tt, w') ->
  upload_outcome ext w image 3 = None /\
  w' = log_event (PrintLine (progress_line image_glob image))
         (log_event (Upload image 3) w).
Proof.
  unfold upload_one, bind, upload, call, print.
  destruct (upload_outcome ext w image 3); [discriminate|].
  now intros [= <-].
Qed.

Lemma upload_loop_ok (image_glob : list string) :
  forall images w w',
    for_each images (upload_one ext image_glob) w = (Ok tt, w') ->
    fs w' = fs w /\
    trace w' = (trace w ++ flat_map (upload_events image_glob) images)%list.
Proof.
  induction images as [|image images IH]; intros w w'; simpl.
  - intros [= <-]. now rewrite app_nil_r.
  - intros H. apply bind_inv_ok in H as ([] & w1 & H1 & H2).
    apply upload_one_ok in H1 as [_ ->]. apply IH in H2 as [F T].
    split; [exact F|]. rewrite T. simpl. now rewrite <- !app_assoc.
Qed.

(** A completed cell: both Roboflow calls, then one upload and one line
    per path of the glob, in the order of the glob. *)
Lemma upload_cell_ok (HOME api_key project_name : string) (w w' : world) :
  upload_cell ext HOME api_key project_name w = (Ok tt, w') ->
  let w2 := logged_in api_key project_name w in
  let image_glob := glob (glob_dirs ext w2) (fs w) (upload_pattern HOME) in
  fs w' = fs w /\
  trace w' =
  (trace w ++
   [RoboflowLogin api_key; WorkspaceProject project_name] ++
   flat_map (upload_events image_glob) image_glob)%list.
Proof.
  unfold upload_cell, Roboflow, workspace_project, glob_glob, upload_loop.
  unfold bind at 1, call at 1.
  destruct (login_outcome ext w api_key); [discriminate|].
  unfold bind at 1, call at 1.
  destruct (project_outcome ext _ project_name); [discriminate|].
  unfold bind at 1. intros H. apply upload_loop_ok in H as [F T].
  split; [exact F|]. rewrite T. simpl. now rewrite <- !app_assoc.
Qed.

End Runs.

Lemma uploads_upload_events (image_glob images : list string) :
  uploads (flat_map (upload_events image_glob) images)
  = map (fun image => (image, 3)) images.
Proof.
  induction images as [|image images IH]; [reflexivity|].
  simpl. now rewrite IH.
Qed.

Lemma printed_upload_events (image_glob images : list string) :
  printed (flat_map (upload_events image_glob) images)
  = map (progress_line image_glob) images.
Proof.
  induction images as [|image images IH]; [reflexivity|].
  simpl. now rewrite IH.
Qed.

(** ** What the glob selects *)

Lemma has_magic_app (a b : string) :
  has_magic (a ++ b) = has_magic a || has_magic b.
Proof.
  induction a as [|c a IH]; simpl; [reflexivity|].
  rewrite IH. now rewrite !orb_assoc.
Qed.

(** A pattern of plain characters matches itself only. *)
Lemma fnmatch_literal (pat : string) :
  has_magic pat = false -> forall name, fnmatch pat name = String.eqb name pat.
Proof.
  induction pat as [|p pat IH]; intros M name; simpl.
  - reflexivity.
  - simpl in M. apply orb_false_elim in M as [M Mp].
    apply orb_false_elim in M as [M _].
    apply orb_false_elim in M as [M1 M2]. rewrite M1.
    destruct name as [|c name]; [reflexivity|].
    rewrite M2, IH by exact Mp. simpl. now rewrite Ascii.eqb_sym.
Qed.

(** [*.png] matches the names that end in [.png]. *)
Lemma fnmatch_star_png (name : string) :
  fnmatch "*.png" name = endswith name ".png".
Proof.
  change (fnmatch "*.png" name) with (some_tail (fnmatch ".png") name).
  induction name as [|c name IH]; [reflexivity|].
  change (some_tail (fnmatch ".png") (String c name)) with
    (fnmatch ".png" (String c name) || some_tail (fnmatch ".png") name).
  rewrite IH, (fnmatch_literal ".png" eq_refl). reflexivity.
Qed.

Lemma filter_filter {A : Type} (f g : A -> bool) (l : list A) :
  filter f (filter g l) = filter (fun x => g x && f x) l.
Proof.
  induction l as [|x l IH]; [reflexivity|]. simpl.
  destruct (g x); simpl; [destruct (f x)|]; now rewrite IH.
Qed.

(** ** The pattern of the upload cell *)

Lemma split_last_sep_no_sep (t : string) :
  no_sep t = true -> split_last_sep t = ("", t).
Proof.
  induction t as [|c t IH]; simpl; [reflexivity|].
  destruct (Ascii.eqb c "/"); simpl; [discriminate|].
  intros H. now rewrite IH.
Qed.

Lemma split_last_sep_app_sep (a t : string) :
  no_sep t = true -> split_last_sep (a ++ String "/" t) = (a ++ "/", t).
Proof.
  intros H. induction a as [|c a IH]; simpl.
  - now rewrite split_last_sep_no_sep.
  - rewrite IH. destruct (a ++ "/") eqn:E; [|reflexivity].
    destruct a; discriminate.
Qed.

Lemma rstrip_sep_app (x y : string) :
  rstrip_sep y <> "" -> rstrip_sep (x ++ y) = x ++ rstrip_sep y.
Proof.
  intros H. induction x as [|c x IH]; simpl; [reflexivity|].
  rewrite IH. destruct (x ++ rstrip_sep y) eqn:E; [|reflexivity].
  destruct x; simpl in E; [now elim H | discriminate].
Qed.

Lemma endswith_sep_app (x y : string) :
  y <> "" -> endswith y "/" = false -> endswith (x ++ y) "/" = false.
Proof.
  intros N H. induction x as [|c x IH]; simpl; [exact H|].
  rewrite IH, orb_false_r.
  destruct (x ++ y) eqn:E; [destruct x; simpl in E; congruence|].
  destruct (Ascii.eqb c "/"); reflexivity.
Qed.

(** The upload directory is [HOME], a separator if [HOME] lacks one, and
    [generated_images]. *)
Lemma upload_dir_shape (HOME : string) :
  exists x,
    upload_dir HOME = x ++ "generated_images" /\
    has_magic x = has_magic HOME.
Proof.
  unfold upload_dir, path_join. simpl startswith. cbv iota.
  destruct (String.eqb HOME "" || endswith HOME "/").
  - now exists HOME.
  - exists (HOME ++ "/"). split; [now rewrite append_assoc|].
    rewrite has_magic_app. simpl. now rewrite orb_false_r.
Qed.

Lemma upload_pattern_split (HOME : string) :
  upload_pattern HOME = upload_dir HOME ++ "//*.png" /\
  path_split (upload_pattern HOME) = (upload_dir HOME, "*.png").
Proof.
  destruct (upload_dir_shape HOME) as (x & E & _).
  assert (P : upload_pattern HOME = upload_dir HOME ++ "//*.png").
  { unfold upload_pattern. fold (upload_dir HOME).
    unfold path_join at 1. simpl startswith. cbv iota.
    rewrite E at 1 2.
    rewrite (endswith_sep_app x "generated_images") by easy.
    rewrite orb_false_r.
    destruct (String.eqb_spec (x ++ "generated_images") "") as [Z|_].
    - destruct x; discriminate.
    - rewrite !append_assoc. reflexivity. }
  split; [exact P|].
  rewrite P. unfold path_split.
  change (upload_dir HOME ++ "//*.png")
    with (upload_dir HOME ++ String "/" (String "/" "*.png")).
  replace (upload_dir HOME ++ String "/" (String "/" "*.png"))
    with ((upload_dir HOME ++ "/") ++ String "/" "*.png")
    by (now rewrite append_assoc).
  rewrite split_last_sep_app_sep by reflexivity.
  rewrite !append_assoc. simpl append. rewrite E at 1.
  rewrite append_assoc, rstrip_sep_app by (simpl; discriminate).
  simpl rstrip_sep. rewrite <- E.
  destruct (upload_dir HOME) eqn:U; [destruct x; discriminate|].
  reflexivity.
Qed.

(** With no wildcard in [HOME], the glob of the upload cell yields the
    entries of the upload directory whose names are not hidden and end in
    [.png], joined to the directory, in listing order. *)
Lemma glob_upload_pattern (expand : string -> list string)
    (f : filesystem) (HOME : string) :
  has_magic HOME = false ->
  glob expand f (upload_pattern HOME)
  = map (path_join (upload_dir HOME))
        (filter selected (upload_entries HOME f)).
Proof.
  intros M. unfold glob.
  destruct (upload_pattern_split HOME) as [P S]. rewrite S.
  destruct (upload_dir_shape HOME) as (x & E & Mx).
  assert (Md : has_magic (upload_dir HOME) = false).
  { rewrite E, has_magic_app, Mx, M. reflexivity. }
  assert (Nd : String.eqb (upload_dir HOME) "" = false).
  { apply String.eqb_neq. rewrite E. destruct x; discriminate. }
  rewrite P at 1. rewrite has_magic_app, Md.
  change (has_magic "//*.png") with true.
  change (has_magic "*.png") with true.
  change (negb (false || true)) with false. cbv iota.
  rewrite Nd, andb_false_r. simpl flat_map. rewrite app_nil_r.
  f_equal. unfold glob1, upload_entries, listdir. rewrite Nd.
  change (ishidden "*.png") with false. cbv iota. rewrite filter_filter.
  destruct (isdir f (upload_dir HOME)).
  - apply filter_ext. intros name. unfold selected.
    now rewrite fnmatch_star_png.
  - now rewrite Nd.
Qed.

(** A directory entry has one name, so a file system that holds every
    location once lists no name twice. *)
Lemma entry_name_inv (d k : location) (name : string) :
  entry_name d k = Some name -> k = (fst d, (snd d ++ [name])%list).
Proof.
  unfold entry_name. destruct k as [a l]. cbn [snd].
  destruct l as [|x rest]; [discriminate|].
  destruct (location_eq_dec (parent (a, x :: rest)) d) as [<-|_];
    [|discriminate].
  intros [= <-]. unfold parent. cbn [fst snd]. f_equal.
  replace (last rest x) with (last (x :: rest) x)
    by (destruct rest; reflexivity).
  apply app_removelast_last. discriminate.
Qed.

Lemma scandir_In (f : filesystem) (d : location) (name : string) :
  In name (scandir f d) ->
  In (fst d, (snd d ++ [name])%list) (map fst f).
Proof.
  unfold scandir. rewrite in_flat_map. intros ([k n] & Hk & Hn).
  simpl in Hn. destruct (entry_name d k) as [name'|] eqn:E; [|destruct Hn].
  destruct Hn as [<-|[]]. apply entry_name_inv in E as <-.
  apply in_map_iff. now exists (k, n).
Qed.

Lemma scandir_NoDup (f : filesystem) (d : location) :
  NoDup (map fst f) -> NoDup (scandir f d).
Proof.
  induction f as [|[k n] f IH]; simpl; [constructor|].
  intros N. inversion N as [|? ? Hk N']; subst.
  unfold scandir in *. simpl.
  destruct (entry_name d k) as [name|] eqn:E; simpl; [|now apply IH].
  constructor; [|now apply IH].
  intros H. apply Hk. apply entry_name_inv in E as ->.
  now apply (scandir_In f d name).
Qed.

End UploadFacts.

(* ================================================================== *)
(** * The most recent run directory *)
(* ================================================================== *)

Module ExpDirFacts.
Import StringFacts PyFacts.

(** ** The key of an entry *)

Lemma digit_not_e (c : ascii) : is_digit c = true -> Ascii.eqb "e" c = false.
Proof.
  intros H. destruct (Ascii.eqb_spec "e" c) as [<-|_];
    [discriminate | reflexivity].
Qed.

Lemma digit_not_space (c : ascii) : is_digit c = true -> is_space c = false.
Proof.
  unfold is_digit, is_space. intros H.
  apply andb_prop in H as [H1 H2].
  apply Nat.leb_le in H1. apply Nat.leb_le in H2.
  apply orb_false_iff. split.
  - apply andb_false_iff. right. apply Nat.leb_gt. lia.
  - apply Nat.eqb_neq. lia.
Qed.

Lemma digit_not_sign (c : ascii) :
  is_digit c = true -> Ascii.eqb c "+" = false /\ Ascii.eqb c "-" = false.
Proof.
  intros H. split.
  - destruct (Ascii.eqb_spec c "+") as [->|_]; [discriminate | reflexivity].
  - destruct (Ascii.eqb_spec c "-") as [->|_]; [discriminate | reflexivity].
Qed.

(** Removing [exp] from [exp] followed by digits leaves the digits. *)
Lemma replace_digits (d : string) :
  all_digits d = true -> replace_from "exp" "" 0 d = d.
Proof.
  induction d as [|c d IH]; [reflexivity|].
  cbn [replace_from startswith all_digits].
  intros H. apply andb_prop in H as [Hc Hd].
  rewrite (digit_not_e c Hc). cbn [andb]. now rewrite IH.
Qed.

Lemma replace_exp (d : string) :
  all_digits d = true -> replace ("exp" ++ d) "exp" "" = d.
Proof. intros H. unfold replace. simpl. now apply replace_digits. Qed.

Lemma lstrip_digits (d : string) : all_digits d = true -> lstrip d = d.
Proof.
  destruct d as [|c d]; simpl; [reflexivity|].
  intros H. apply andb_prop in H as [Hc _].
  now rewrite (digit_not_space c Hc).
Qed.

Lemma rstrip_digits (d : string) : all_digits d = true -> rstrip d = d.
Proof.
  induction d as [|c d IH]; simpl; [reflexivity|].
  intros H. apply andb_prop in H as [Hc Hd]. rewrite IH by exact Hd.
  destruct d; [now rewrite (digit_not_space c Hc) | reflexivity].
Qed.

Lemma digits_from_digits (d : string) :
  forall prev acc,
    all_digits d = true -> d <> "" ->
    digits_from prev acc d = Some (value_from acc d).
Proof.
  induction d as [|c d IH]; intros prev acc H N; [now elim N|].
  simpl in *. apply andb_prop in H as [Hc Hd]. rewrite Hc.
  destruct d as [|c' d]; [reflexivity|].
  apply IH; [exact Hd | discriminate].
Qed.

(** [int] reads a non-empty string of digits as its decimal value. *)
Lemma int_of_str_digits (d : string) :
  all_digits d = true -> d <> "" -> int_of_str d = Ok (numeral_value d).
Proof.
  intros H N. unfold int_of_str, strip.
  rewrite rstrip_digits, lstrip_digits by exact H.
  destruct d as [|c d]; [now elim N|].
  pose proof H as H'. simpl in H'. apply andb_prop in H' as [Hc _].
  destruct (digit_not_sign c Hc) as [-> ->].
  now rewrite digits_from_digits.
Qed.

(** The key of [exp<digits>] is the value of the digits, 0 for none. *)
Lemma run_number_exp (d : string) :
  all_digits d = true -> run_number ("exp" ++ d) = Ok (numeral_value d).
Proof.
  intros H. unfold run_number. rewrite replace_exp by exact H.
  destruct (String.eqb_spec d "") as [->|N]; [reflexivity|].
  now apply int_of_str_digits.
Qed.

Lemma run_number_raises (x : string) (e : exn) :
  run_number x = Raise e ->
  e = ValueError /\
  replace x "exp" "" <> "" /\ numeric (replace x "exp" "") = false.
Proof.
  unfold run_number, numeric.
  destruct (String.eqb_spec (replace x "exp" "") "") as [_|N];
    [discriminate|].
  unfold int_of_str at 1.
  destruct (match strip _ with EmptyString => _ | String _ _ => _ end)
    eqn:E; [discriminate|].
  intros [= <-]. repeat split; [exact N|].
  unfold int_of_str. now rewrite E.
Qed.

Lemma run_number_not_numeric (x : string) :
  replace x "exp" "" <> "" -> numeric (replace x "exp" "") = false ->
  run_number x = Raise ValueError.
Proof.
  unfold run_number, numeric. intros N H.
  apply String.eqb_neq in N. rewrite N.
  unfold int_of_str in *.
  now destruct (match strip _ with EmptyString => _ | String _ _ => _ end).
Qed.

(** ** What [int] rejects *)

Lemma digits_from_stray (c : ascii) (s : string) :
  is_digit c = false -> Ascii.eqb c "_" = false ->
  forall t prev acc, digits_from prev acc (t ++ String c s) = None.
Proof.
  intros Hd Hu. induction t as [|x t IH]; intros prev acc; simpl.
  - now rewrite Hd, Hu.
  - destruct (is_digit x); [apply IH|].
    destruct (Ascii.eqb x "_" && prev); [apply IH | reflexivity].
Qed.

Lemma rstrip_keeps (c : ascii) (s : string) :
  is_space c = false ->
  forall t, exists s', rstrip (t ++ String c s) = t ++ String c s'.
Proof.
  intros Hc. induction t as [|x t [s' IH]].
  - simpl. rewrite Hc. destruct (rstrip s) as [|y r]; [now exists ""|].
    now exists (String y r).
  - exists s'. simpl. rewrite IH. now destruct t.
Qed.

Lemma lstrip_keeps (c : ascii) (s : string) :
  is_space c = false ->
  forall t, exists t', lstrip (t ++ String c s) = t' ++ String c s.
Proof.
  intros Hc. induction t as [|x t [t' IH]].
  - exists "". simpl. now rewrite Hc.
  - simpl. destruct (is_space x); [now exists t' | now exists (String x t)].
Qed.

(** A string with a character that is neither a digit, a sign, an
    underscore nor white space is not numeric. *)
Lemma stray_not_numeric (c : ascii) (t s : string) :
  is_digit c = false -> is_space c = false ->
  Ascii.eqb c "_" = false -> Ascii.eqb c "+" = false ->
  Ascii.eqb c "-" = false ->
  numeric (t ++ String c s) = false.
Proof.
  intros Hd Hs Hu Hp Hm. unfold numeric, int_of_str, strip.
  destruct (rstrip_keeps c s Hs t) as [s' ->].
  destruct (lstrip_keeps c s' Hs t) as [t' ->].
  pose proof (digits_from_stray c s' Hd Hu) as K.
  destruct t' as [|x t']; cbn [append].
  - rewrite Hp, Hm. now rewrite (K "").
  - destruct (Ascii.eqb x "+"); [now rewrite K|].
    destruct (Ascii.eqb x "-"); [now rewrite K|].
    now rewrite (K (String x t')).
Qed.

(** ** Keys, sorting and the last element *)

Lemma map_result_ok {A B : Type} (f : A -> result B) (g : A -> B)
    (xs : list A) :
  (forall x, In x xs -> f x = Ok (g x)) -> map_result f xs = Ok (map g xs).
Proof.
  induction xs as [|x xs IH]; intros H; simpl; [reflexivity|].
  rewrite (H x (or_introl eq_refl)), IH; [reflexivity|].
  intros y Hy. apply H. now right.
Qed.

(** One failing key fails the whole sort. *)
Lemma map_result_raises {A B : Type} (f : A -> result B) (e : exn)
    (xs : list A) (x : A) :
  (forall y e', f y = Raise e' -> e' = e) ->
  In x xs -> f x = Raise e -> map_result f xs = Raise e.
Proof.
  intros He. induction xs as [|y xs IH]; [intros []|].
  intros [<-|Hx] Hf; simpl.
  - now rewrite Hf.
  - destruct (f y) as [b|e'] eqn:E; [|now rewrite (He y e' E)].
    now rewrite IH.
Qed.

Lemma insert_keyed_perm {A : Type} (k : Z) (x : A) (l : list (Z * A)) :
  Permutation (insert_keyed k x l) ((k, x) :: l).
Proof.
  induction l as [|[k' y] l IH]; simpl; [reflexivity|].
  destruct (k <=? k'); [reflexivity|].
  rewrite IH. apply perm_swap.
Qed.

Lemma sort_keyed_perm {A : Type} (l : list (Z * A)) :
  Permutation (sort_keyed l) l.
Proof.
  induction l as [|[k x] l IH]; simpl; [reflexivity|].
  rewrite insert_keyed_perm. now constructor.
Qed.

Lemma insert_keyed_sorted {A : Type} (k : Z) (x : A) (l : list (Z * A)) :
  StronglySorted key_le l -> StronglySorted key_le (insert_keyed k x l).
Proof.
  induction 1 as [|[k' y] l S IH F]; simpl.
  - repeat constructor.
  - destruct (Z.leb_spec k k').
    + constructor; [now constructor|]. constructor; [exact H|].
      rewrite Forall_forall in *. intros z Hz. specialize (F z Hz).
      unfold key_le in *. simpl in *. lia.
    + constructor; [exact IH|].
      rewrite Forall_forall in *. intros z Hz.
      apply (Permutation_in _ (insert_keyed_perm k x l)) in Hz.
      destruct Hz as [<-|Hz]; [unfold key_le; simpl; lia | now apply F].
Qed.

Lemma sort_keyed_sorted {A : Type} (l : list (Z * A)) :
  StronglySorted key_le (sort_keyed l).
Proof.
  induction l as [|[k x] l IH]; simpl; [constructor|].
  now apply insert_keyed_sorted.
Qed.

(** The last element of a sorted list has the greatest key. *)
Lemma sorted_last {A : Type} (l : list (Z * A)) :
  StronglySorted key_le l -> l <> [] ->
  exists k y,
    last_item (map snd l) = Ok y /\ In (k, y) l /\
    forall k' z, In (k', z) l -> k' <= k.
Proof.
  induction 1 as [|[k x] l S IH F]; intros N; [now elim N|].
  destruct l as [|b l].
  - exists k, x. repeat split; [now left|].
    intros k' z [[= <- <-]|[]]. lia.
  - destruct IH as (km & y & L & I & M); [discriminate|].
    exists km, y. repeat split; [exact L | now right|].
    intros k' z [E|H]; [|exact (M k' z H)].
    injection E as <- <-. rewrite Forall_forall in F. apply (F _ I).
Qed.

Lemma combine_map_key {A : Type} (key : A -> Z) (xs : list A) :
  combine (map key xs) xs = map (fun x => (key x, x)) xs.
Proof.
  induction xs as [|x xs IH]; simpl; [reflexivity | now rewrite IH].
Qed.

(** [sorted(xs, key=...)[-1]] for a key that never raises: an element of
    the list whose key is greatest. *)
Lemma sorted_last_greatest {A : Type} (key : A -> result Z) (k : A -> Z)
    (xs : list A) :
  xs <> [] ->
  (forall x, In x xs -> key x = Ok (k x)) ->
  exists y,
    match sorted xs key with
    | Ok ordered => last_item ordered
    | Raise e => Raise e
    end = Ok y /\
    In y xs /\ forall x, In x xs -> k x <= k y.
Proof.
  intros N H. unfold sorted.
  rewrite (map_result_ok key k xs H), combine_map_key.
  set (l := map (fun x => (k x, x)) xs).
  destruct (sorted_last (sort_keyed l) (sort_keyed_sorted l))
    as (km & y & L & I & M).
  { intros E. pose proof (sort_keyed_perm l) as P. rewrite E in P.
    apply Permutation_nil in P. destruct xs; [now elim N | discriminate]. }
  exists y. split; [exact L|].
  apply (Permutation_in _ (sort_keyed_perm l)) in I.
  apply in_map_iff in I as (x & [= <- <-] & Hx). split; [exact Hx|].
  intros z Hz. apply (M (k z) z).
  apply (Permutation_in _ (Permutation_sym (sort_keyed_perm l))).
  apply in_map_iff. now exists z.
Qed.

End ExpDirFacts.

(* ================================================================== *)
(** * Where the images go *)
(* ================================================================== *)

Module ImageFacts.
Import StringFacts PyFacts PathFacts FsFacts CellFacts MakedirsFacts
       GenerateFacts FrameFacts IndexFacts.

Lemma no_sep_app (a b : string) :
  no_sep (a ++ b) = no_sep a && no_sep b.
Proof.
  induction a as [|c a IH]; simpl; [reflexivity|].
  now rewrite IH, andb_assoc.
Qed.

Lemma no_sep_uint (u : Decimal.uint) :
  no_sep (NilEmpty.string_of_uint u) = true.
Proof. induction u; simpl; auto. Qed.

(** The decimal rendering of an index holds no separator. *)
Lemma no_sep_str (k : Z) : no_sep (str k) = true.
Proof.
  unfold str. destruct (Z.to_int k) as [u|u]; simpl.
  - destruct u; try reflexivity; apply no_sep_uint.
  - destruct u; try reflexivity; apply no_sep_uint.
Qed.

(** An image file is an entry of the output directory, under the name
    [image_<k>.png]. *)
Lemma image_location (d : string) (k : Z) :
  d <> "" ->
  resolve (image_path d k)
  = (fst (resolve d), (snd (resolve d) ++ [image_basename k])%list).
Proof.
  intros N. unfold resolve, image_path. simpl fst. simpl snd. f_equal.
  - now apply absolute_prefix.
  - change (d ++ "/image_" ++ str k ++ ".png")
      with (d ++ String "/" (image_basename k)).
    rewrite names_app_sep. f_equal.
    rewrite names_no_sep; [reflexivity|].
    unfold image_basename. now rewrite !no_sep_app, no_sep_str.
Qed.

(** Two indices never share a file. *)
Lemma image_location_inj (d : string) (j k : Z) :
  d <> "" -> resolve (image_path d j) = resolve (image_path d k) -> j = k.
Proof.
  intros N H. rewrite !image_location in H by exact N.
  injection H as H. apply app_inj_tail in H as [_ H].
  unfold image_basename in H.
  apply append_inj_l in H. apply append_inj_r in H. now apply str_inj.
Qed.

Lemma image_parent (d : string) (k : Z) :
  d <> "" -> parent (resolve (image_path d k)) = resolve d.
Proof.
  intros N. rewrite image_location by exact N.
  destruct (resolve d) as [a l]. unfold parent. cbn [fst snd].
  now rewrite removelast_last.
Qed.


(** A completed call leaves the output directory in place. *)
Lemma generate_images_isdir (ext : externals) (p : string) (n b g : Z)
    (d : string) (disp : bool) (w w' : world) :
  generate_images ext p n b g d disp w = (Ok tt, w') ->
  isdir (fs w') d = true.
Proof.
  intros H. pose proof H as K.
  apply generate_images_ok in H as (_ & w1 & batches & Hm & Hl & _).
  apply os_makedirs_isdir in Hm.
  assert (Kd : keeps_dirs w1 w').
  { revert Hl. apply preserves_for_each.
    - intros x q Hq. exact Hq.
    - intros x y z Hxy Hyz q Hq. now apply Hyz, Hxy.
    - intros i. apply generate_batch_preserves.
      + intros x q Hq. exact Hq.
      + intros x y z Hxy Hyz q Hq. now apply Hyz, Hxy.
      + intros e x q Hq. exact Hq.
      + intros k image x f' Hw q Hq. simpl.
        eapply write_file_keeps_dirs; eassumption. }
  unfold isdir in *. apply andb_prop in Hm as [-> Hm]. now apply Kd.
Qed.


End ImageFacts.

(* ================================================================== *)
(** * [generate_images]: how many calls, which files *)
(* ================================================================== *)

Module StableDiffusion.
Import StringFacts PyFacts PathFacts FsFacts CellFacts MakedirsFacts
       LogFacts GenerateFacts FrameFacts IndexFacts ImageFacts UploadFacts
       Sample MoreSamples.

(** The events a completed call added to the log are those of its loop. *)
Lemma completed_run_events (ext : externals) (p : string) (n b g : Z)
    (d : string) (disp : bool) (w w' : world) (new : list event) :
  generate_images ext p n b g d disp w = (Ok tt, w') ->
  trace w' = (trace w ++ new)%list ->
  exists batches,
    List.length batches = Z.to_nat (n / b) /\
    new = run_events p b g d disp batches.
Proof.
  intros H T.
  apply generate_images_ok in H as (_ & w1 & batches & _ & _ & L & T').
  exists batches. split; [exact L|].
  rewrite T in T'. now apply app_inv_head in T'.
Qed.

(** C1, at the input where it fails.  Ten images are asked for with the
    default batch of four, and the pipeline returns four images per call:
    the call completes after two pipeline calls and leaves eight image
    files, [image_0.png] to [image_7.png], in the output directory. *)
Theorem generate_images_drops_remainder :
  let run :=
    generate_images_default obliging "aerial view of cattle" 10 empty_world in
  fst run = Ok tt /\
  pipeline_calls (trace (snd run)) = 2%nat /\
  List.length (saves (trace (snd run))) = 8%nat /\
  scandir (fs (snd run)) (resolve "generated_images")
  = ["image_0.png"; "image_1.png"; "image_2.png"; "image_3.png";
     "image_4.png"; "image_5.png"; "image_6.png"; "image_7.png"].
Proof. vm_compute. repeat split. Qed.

(** With a pipeline that returns [b] images per call, a completed call
    saves [(n // b) * b] images, which is [n] only when [b] divides [n]. *)
Lemma generate_images_saves_count (ext : externals) (p : string)
    (n b g : Z) (d : string) (disp : bool) (w w' : world)
    (new : list event) :
  0 <= n -> 0 < b ->
  generate_images ext p n b g d disp w = (Ok tt, w') ->
  trace w' = (trace w ++ new)%list ->
  (forall p' b' g' images,
     In (PipelineCall p' b' g' (Ok images)) new -> len images = b) ->
  len (saves new) = (n / b) * b /\
  (len (saves new) = n <-> n mod b = 0).
Proof.
  intros Hn Hb H T C.
  destruct (completed_run_events _ _ _ _ _ _ _ _ _ _ H T)
    as (batches & L & ->).
  assert (E : len (saves (run_events p b g d disp batches)) = n / b * b).
  { unfold len.
    rewrite <- (length_map snd). fold (saved_paths (run_events p b g d disp batches)).
    rewrite run_events_saved_paths, length_map, run_indices_exact.
    - rewrite range_length. unfold len. rewrite L.
      pose proof (Z.div_pos n b Hn Hb). nia.
    - intros images Hi. eapply C, run_events_batches, Hi. }
  split; [exact E|]. rewrite E.
  pose proof (Z.div_mod n b ltac:(lia)). split; intros; nia.
Qed.

(** C2.  For a positive [num_images_per_prompt], a completed call invokes
    the pipeline once per element of [range(n // b)], which is [n // b]
    times for a non-negative [n]; the log is, iteration after iteration,
    one pipeline call followed by the saves of the images it returned, so
    every returned image is saved. *)
Theorem generate_images_pipeline_calls (ext : externals) (p : string)
    (n b g : Z) (d : string) (disp : bool) (w w' : world)
    (new : list event) :
  0 < b ->
  generate_images ext p n b g d disp w = (Ok tt, w') ->
  trace w' = (trace w ++ new)%list ->
  pipeline_calls new = List.length (range (n / b)) /\
  (0 <= n -> Z.of_nat (pipeline_calls new) = n / b) /\
  saved_images new = returned_images new /\
  exists batches, new = run_events p b g d disp batches.
Proof.
  intros Hb H T.
  destruct (completed_run_events _ _ _ _ _ _ _ _ _ _ H T)
    as (batches & L & ->).
  rewrite run_events_calls, run_events_saved_images, run_events_returned,
    range_length, L.
  repeat split; [|now exists batches].
  intros Hn. pose proof (Z.div_pos n b Hn Hb). lia.
Qed.

Lemma generate_images_pipeline_calls_witness :
  let run :=
    generate_images obliging "aerial view of cattle" 12 4 4
      "generated_images" true empty_world in
  0 < 4 /\ run = (Ok tt, snd run) /\
  pipeline_calls (trace (snd run)) = List.length (range (12 / 4)) /\
  (0 <= 12 -> Z.of_nat (pipeline_calls (trace (snd run))) = 12 / 4) /\
  saved_images (trace (snd run)) = returned_images (trace (snd run)) /\
  exists batches,
    trace (snd run)
    = run_events "aerial view of cattle" 4 4 "generated_images" true batches.
Proof.
  intros run. split; [lia|]. split; [reflexivity|].
  apply (generate_images_pipeline_calls obliging "aerial view of cattle"
           12 4 4 "generated_images" true empty_world
           (snd run) (trace (snd run)));
    [lia | reflexivity | reflexivity].
Defined.

(** C3.  In a completed call every image is saved as
    [output_dir/image_k.png] with [k = i*b + idx]; when each pipeline call
    returned exactly [b] images, the indices are [0 .. (n // b)*b - 1]
    without a gap, no name is written twice, and no two names are the same
    file. *)
Theorem generate_images_names_contiguous (ext : externals) (p : string)
    (n b g : Z) (d : string) (disp : bool) (w w' : world)
    (new : list event) :
  0 < b ->
  generate_images ext p n b g d disp w = (Ok tt, w') ->
  trace w' = (trace w ++ new)%list ->
  (forall p' b' g' images,
     In (PipelineCall p' b' g' (Ok images)) new -> len images = b) ->
  (exists batches,
     returned_images new = List.concat batches /\
     saved_paths new = map (image_path d) (run_indices b batches)) /\
  saved_paths new = map (image_path d) (range ((n / b) * b)) /\
  NoDup (saved_paths new) /\
  NoDup (map resolve (saved_paths new)).
Proof.
  intros Hb H T C.
  assert (Nd : d <> "").
  { intros ->. now apply generate_images_isdir in H. }
  destruct (completed_run_events _ _ _ _ _ _ _ _ _ _ H T)
    as (batches & L & ->).
  assert (Cb : forall images, In images batches -> len images = b).
  { intros images Hi. eapply C, run_events_batches, Hi. }
  assert (E : run_indices b batches = range (n / b * b)).
  { rewrite run_indices_exact by exact Cb. unfold len. rewrite L.
    destruct (Z.le_gt_cases 0 (n / b)) as [P|P].
    - now rewrite Z2Nat.id.
    - rewrite !range_nonpos; [reflexivity | nia | lia]. }
  rewrite run_events_saved_paths, run_events_returned.
  split; [now exists batches|]. rewrite E. split; [reflexivity|].
  assert (Nr : NoDup (range (n / b * b)))
    by apply sorted_NoDup, range_sorted.
  split.
  - apply NoDup_map_inj; [apply image_path_inj | exact Nr].
  - rewrite map_map. apply NoDup_map_inj; [|exact Nr].
    intros j k. now apply image_location_inj.
Qed.

Lemma generate_images_names_contiguous_witness :
  let run :=
    generate_images obliging "aerial view of cattle" 12 4 4
      "generated_images" true empty_world in
  saved_paths (trace (snd run))
  = map (image_path "generated_images") (range ((12 / 4) * 4)) /\
  NoDup (saved_paths (trace (snd run))) /\
  NoDup (map resolve (saved_paths (trace (snd run)))).
Proof.
  intros run.
  apply (generate_images_names_contiguous obliging "aerial view of cattle"
           12 4 4 "generated_images" true empty_world
           (snd run) (trace (snd run)));
    [lia | reflexivity | reflexivity |].
  intros p' b' g' images H. vm_compute in H.
  repeat (destruct H as [H|H]; [try discriminate; now inversion H|]).
  destruct H.
Defined.

(** Making directories makes, changes and removes no file. *)
Lemma made_dirs_files (made : list location) (f f' : filesystem) :
  made_dirs made f f' ->
  forall q data,
    lookup q f' = Some (File data) <-> lookup q f = Some (File data).
Proof.
  intros H q data. destruct (H q) as [E|(_ & N & D)].
  - now rewrite E.
  - rewrite N, D. split; discriminate.
Qed.




(** C8.  For a positive [num_images_per_prompt] and a smaller
    [num_images_to_generate], the call is nothing but
    [os.makedirs(output_dir, exist_ok=True)] and ends as it ends: nothing
    is logged (no pipeline call, no save), no file is made, changed or
    removed, the directories made are on the way to [output_dir] (for an
    [output_dir] spelled without [..]), and when the call returns the
    output directory is there. *)
Theorem generate_images_short_request (ext : externals) (p : string)
    (n b g : Z) (d : string) (disp : bool) (w : world) :
  0 < b -> n < b ->
  generate_images ext p n b g d disp w = os_makedirs d true w /\
  (forall r w',
     generate_images ext p n b g d disp w = (r, w') ->
     trace w' = trace w /\
     (forall q data,
        lookup q (fs w') = Some (File data)
        <-> lookup q (fs w) = Some (File data)) /\
     (climbs d = false -> made_dirs (lineage (resolve d)) (fs w) (fs w')) /\
     (r = Ok tt -> isdir (fs w') d = true)).
Proof.
  intros Hb Hn.
  assert (E : generate_images ext p n b g d disp w = os_makedirs d true w).
  { unfold generate_images, bind, lift, floordiv.
    destruct (Z.eqb_spec b 0) as [Z|_]; [lia|].
    rewrite range_nonpos.
    - now destruct (os_makedirs d true w) as [[[]|e] w1].
    - assert (n / b < 1) by (apply Z.div_lt_upper_bound; lia). lia. }
  split; [exact E|]. rewrite E.
  intros r w' H. pose proof (os_makedirs_makes d true w r w' H) as [T F].
  split; [exact T|]. split; [now apply (made_dirs_files _ _ _ F)|].
  split; [intros _; exact F|].
  intros ->. now apply os_makedirs_isdir in H.
Qed.

Lemma generate_images_short_request_witness :
  let run := generate_images_default obliging "aerial view of cattle" 3
               empty_world in
  (0 < 4 /\ 3 < 4) /\
  run = os_makedirs "generated_images" true empty_world /\
  fst run = Ok tt /\
  trace (snd run) = [] /\
  isdir (fs empty_world) "generated_images" = false /\
  isdir (fs (snd run)) "generated_images" = true.
Proof.
  intros run.
  destruct (generate_images_short_request obliging "aerial view of cattle"
              3 4 8 "generated_images" false empty_world) as (E & K);
    [lia | lia |].
  destruct (K (fst run) (snd run) eq_refl) as (T & _ & _ & D).
  split; [split; lia|]. split; [exact E|]. split; [reflexivity|].
  split; [exact T|]. split; [reflexivity | now apply D].
Defined.

(** ** Exceptions *)







(** ** Order *)

(** The events a completed upload cell added to the log. *)
Lemma completed_cell_events (ext : externals)
    (HOME api_key project_name : string) (w w' : world)
    (new : list event) :
  upload_cell ext HOME api_key project_name w = (Ok tt, w') ->
  trace w' = (trace w ++ new)%list ->
  let image_glob :=
    glob (glob_dirs ext (logged_in api_key project_name w)) (fs w)
      (upload_pattern HOME) in
  new =
  ([RoboflowLogin api_key; WorkspaceProject project_name] ++
   flat_map (upload_events image_glob) image_glob)%list.
Proof.
  intros H T. apply upload_cell_ok in H as [_ T'].
  rewrite T in T'. now apply app_inv_head in T'.
Qed.

(** C6, as the code has it.  Both loops run in loop order.  The log of a
    completed [generate_images] is the log of iteration 0, then that of
    iteration 1, and so on, each being the pipeline call followed by the
    saves of its images by increasing [idx]; when no pipeline call
    returned more than [b] images, the indices of the saved files increase
    strictly along the log.  The log of a completed upload cell is, after
    the two Roboflow calls, one upload followed by its printed line per
    path, in the order in which the glob yielded the paths. *)
Theorem loops_run_in_order (ext : externals) :
  (forall p n b g d disp w w' new,
     generate_images ext p n b g d disp w = (Ok tt, w') ->
     trace w' = (trace w ++ new)%list ->
     exists batches,
       new =
       List.concat
         (map (fun batch => batch_events p b g d disp (fst batch) (snd batch))
              (enumerate batches)) /\
       saved_paths new = map (image_path d) (run_indices b batches) /\
       ((forall p' b' g' images,
           In (PipelineCall p' b' g' (Ok images)) new -> len images <= b) ->
        StronglySorted Z.lt (run_indices b batches))) /\
  (forall HOME api_key project_name w w' new,
     upload_cell ext HOME api_key project_name w = (Ok tt, w') ->
     trace w' = (trace w ++ new)%list ->
     let image_glob :=
       glob (glob_dirs ext (logged_in api_key project_name w)) (fs w)
         (upload_pattern HOME) in
     new =
     ([RoboflowLogin api_key; WorkspaceProject project_name] ++
      List.concat
        (map (fun image =>
                [Upload image 3; PrintLine (progress_line image_glob image)])
             image_glob))%list /\
     uploads new = map (fun image => (image, 3)) image_glob).
Proof.
  split.
  - intros p n b g d disp w w' new H T.
    destruct (completed_run_events _ _ _ _ _ _ _ _ _ _ H T)
      as (batches & _ & ->).
    exists batches. split; [reflexivity|].
    split; [apply run_events_saved_paths|].
    intros C. apply run_indices_sorted.
    intros images Hi. eapply C, run_events_batches, Hi.
  - intros HOME api_key project_name w w' new H T image_glob.
    pose proof (completed_cell_events _ _ _ _ _ _ _ H T) as E.
    fold image_glob in E. cbv zeta in E. rewrite E. split.
    + now rewrite flat_map_concat_map.
    + simpl. apply uploads_upload_events.
Qed.

Lemma loops_run_in_order_witness :
  (let run := generate_images_default obliging "aerial view of cattle" 12
                empty_world in
   exists batches,
     saved_paths (trace (snd run))
     = map (image_path "generated_images") (run_indices 4 batches) /\
     StronglySorted Z.lt (run_indices 4 batches)) /\
  (let run := upload_cell obliging "/home/studio" "KEY" "PROJECT" studio in
   uploads (trace (snd run))
   = [("/home/studio/generated_images/image_0.png", 3);
      ("/home/studio/generated_images/image_1.png", 3);
      ("/home/studio/generated_images/old.png", 3);
      ("/home/studio/generated_images/image_2.png", 3)]).
Proof.
  destruct (loops_run_in_order obliging) as [G U]. split.
  - intros run.
    destruct (G "aerial view of cattle" 12 4 8 "generated_images" false
                empty_world (snd run) (trace (snd run)) eq_refl eq_refl)
      as (batches & _ & P & S).
    exists batches. split; [exact P|]. apply S.
    intros p' b' g' images H. vm_compute in H.
    repeat (destruct H as [H|H];
            [try discriminate; injection H as _ _ _ <-; vm_compute;
             discriminate|]).
    destruct H.
  - intros run.
    destruct (U "/home/studio" "KEY" "PROJECT" studio (snd run)
                (trace (snd run)) eq_refl eq_refl) as [_ E].
    exact E.
Defined.

(** C6, as stated, fails when the pipeline returns more images than it
    was asked for.  With [num_images_per_prompt = 2] and four images from
    each call, the first iteration saves under the indices 0 to 3 and the
    second under 2 to 5: [image_3.png] is saved before [image_2.png] is
    saved again, and the indices do not increase along the log, strictly
    or not. *)
Lemma loops_save_out_of_order :
  let run :=
    generate_images lavish "aerial view of cattle" 4 2 8 "generated_images"
      false empty_world in
  fst run = Ok tt /\
  saved_paths (trace (snd run))
  = map (image_path "generated_images") [0; 1; 2; 3; 2; 3; 4; 5] /\
  ~ StronglySorted Z.lt [0; 1; 2; 3; 2; 3; 4; 5] /\
  ~ StronglySorted Z.le [0; 1; 2; 3; 2; 3; 4; 5].
Proof.
  split; [reflexivity|]. split; [reflexivity|].
  split; intros H; do 3 apply StronglySorted_inv in H as [H _];
    apply StronglySorted_inv in H as [_ H]; apply Forall_inv in H; lia.
Qed.

(** ** The upload cell *)

(** C4, as the code has it.  When [HOME] holds no wildcard, a completed
    upload cell calls [upload] once per entry of the directory
    [HOME/generated_images] (file or directory: the glob does not tell them
    apart) whose name ends in [.png] and does not start with a dot, in
    listing order, each time with [num_retry_uploads=3], and makes no other
    upload call: whatever is uploaded is such an entry, so nothing with
    another extension, hidden, or below a subdirectory is.  The entries are
    those at the top level of the directory, and a file system that holds
    every location once lists none of them twice. *)
Theorem upload_cell_uploads_selected (ext : externals)
    (HOME api_key project_name : string) (w w' : world)
    (new : list event) :
  has_magic HOME = false ->
  upload_cell ext HOME api_key project_name w = (Ok tt, w') ->
  trace w' = (trace w ++ new)%list ->
  let d := upload_dir HOME in
  let entries := upload_entries HOME (fs w) in
  uploads new
  = map (fun name => (path_join d name, 3))
        (filter (fun name => negb (ishidden name) && endswith name ".png")
                entries) /\
  (forall path retries,
     In (path, retries) (uploads new) ->
     retries = 3 /\
     exists name,
       path = path_join d name /\ In name entries /\
       ishidden name = false /\ endswith name ".png" = true) /\
  (forall name,
     In name entries ->
     In (fst (resolve d), (snd (resolve d) ++ [name])%list)
        (map fst (fs w))) /\
  (NoDup (map fst (fs w)) -> NoDup entries).
Proof.
  intros M H T d entries.
  pose proof (completed_cell_events _ _ _ _ _ _ _ H T) as E.
  cbv zeta in E.
  assert (U : uploads new
              = map (fun name => (path_join d name, 3))
                    (filter
                       (fun name =>
                          negb (ishidden name) && endswith name ".png")
                       entries)).
  { rewrite E. simpl.
    rewrite uploads_upload_events, glob_upload_pattern by exact M.
    now rewrite map_map. }
  split; [exact U|]. split; [|split].
  - intros path retries I. rewrite U in I.
    apply in_map_iff in I as (name & [= <- <-] & I).
    apply filter_In in I as [I S]. apply andb_prop in S as [Hh Hp].
    split; [reflexivity|]. exists name.
    repeat split; [exact I | now apply negb_true_iff | exact Hp].
  - unfold entries, upload_entries. intros name.
    destruct (isdir (fs w) (upload_dir HOME)); [|intros []].
    apply scandir_In.
  - unfold entries, upload_entries. intros N.
    destruct (isdir (fs w) (upload_dir HOME)); [|constructor].
    now apply scandir_NoDup.
Qed.

Lemma upload_cell_uploads_selected_witness :
  let run := upload_cell obliging "/home/studio" "KEY" "PROJECT" studio in
  has_magic "/home/studio" = false /\
  fst run = Ok tt /\
  uploads (trace (snd run))
  = map (fun name => (path_join (upload_dir "/home/studio") name, 3))
        (filter (fun name => negb (ishidden name) && endswith name ".png")
                (upload_entries "/home/studio" (fs studio))).
Proof.
  intros run. split; [reflexivity|]. split; [reflexivity|].
  apply (upload_cell_uploads_selected obliging "/home/studio" "KEY"
           "PROJECT" studio (snd run) (trace (snd run)));
    reflexivity.
Defined.

(** C4, as stated, fails on a hidden image and on a directory named like
    an image.  In the sample working directory, [.thumb.png] is a file at
    the top level of [generated_images] whose name ends in [.png], and
    [old.png] is a directory there; the cell completes, never uploads
    [.thumb.png], and uploads [old.png]. *)
Lemma upload_cell_skips_hidden_png :
  let run := upload_cell obliging "/home/studio" "KEY" "PROJECT" studio in
  let hidden := "/home/studio/generated_images/.thumb.png" in
  let old := "/home/studio/generated_images/old.png" in
  fst run = Ok tt /\
  lookup (resolve hidden) (fs studio) = Some (File "cow") /\
  parent (resolve hidden) = resolve "/home/studio/generated_images" /\
  endswith hidden ".png" = true /\
  ~ In (hidden, 3) (uploads (trace (snd run))) /\
  lookup (resolve old) (fs studio) = Some Dir /\
  In (old, 3) (uploads (trace (snd run))).
Proof.
  repeat split.
  - vm_compute. intros H.
    repeat (destruct H as [H|H]; [discriminate|]). destruct H.
  - vm_compute. right. right. now left.
Qed.

(** C10.  In a completed upload cell the printed lines are, in order, one
    per uploaded path, and each is
    ["*** Processing image [" + str(len(image_glob)) + "] - " + path + " ***"]:
    the number is the count of all matched paths, the same in every
    line. *)
Theorem upload_progress_line_constant (ext : externals)
    (HOME api_key project_name : string) (w w' : world)
    (new : list event) :
  upload_cell ext HOME api_key project_name w = (Ok tt, w') ->
  trace w' = (trace w ++ new)%list ->
  let image_glob := map fst (uploads new) in
  image_glob
  = glob (glob_dirs ext (logged_in api_key project_name w)) (fs w)
      (upload_pattern HOME) /\
  printed new
  = map (fun image =>
           "*** Processing image [" ++ str (len image_glob) ++ "] - "
           ++ image ++ " ***")
        image_glob /\
  List.length (printed new) = List.length (uploads new).
Proof.
  intros H T image_glob.
  pose proof (completed_cell_events _ _ _ _ _ _ _ H T) as E.
  cbv zeta in E.
  assert (G : image_glob
              = glob (glob_dirs ext (logged_in api_key project_name w))
                  (fs w) (upload_pattern HOME)).
  { unfold image_glob. rewrite E. simpl.
    rewrite uploads_upload_events, map_map. apply map_id. }
  split; [exact G|]. rewrite G. rewrite E. simpl.
  rewrite printed_upload_events, uploads_upload_events, !length_map.
  split; reflexivity.
Qed.

Lemma upload_progress_line_constant_witness :
  let run := upload_cell obliging "/home/studio" "KEY" "PROJECT" studio in
  fst run = Ok tt /\
  printed (trace (snd run))
  = ["*** Processing image [4] - /home/studio/generated_images/image_0.png ***";
     "*** Processing image [4] - /home/studio/generated_images/image_1.png ***";
     "*** Processing image [4] - /home/studio/generated_images/old.png ***";
     "*** Processing image [4] - /home/studio/generated_images/image_2.png ***"].
Proof.
  intros run. split; [reflexivity|].
  destruct (upload_progress_line_constant obliging "/home/studio" "KEY"
              "PROJECT" studio (snd run) (trace (snd run)) eq_refl eq_refl)
    as (_ & P & _).
  exact P.
Defined.

End StableDiffusion.

(* ================================================================== *)
(** * The YOLOv7 notebook: [EXP_DIR] *)
(* ================================================================== *)

Module YoloV7.
Import StringFacts PyFacts ExpDirFacts Sample.

(** With the listing in hand, [EXP_DIR] is [latest_run] of it. *)
Lemma EXP_DIR_listing (runs : string) (w : world) (listing : list string) :
  listdir (fs w) runs = Ok listing ->
  EXP_DIR runs w = (latest_run listing, w).
Proof. intros H. unfold EXP_DIR, bind, os_listdir, lift. now rewrite H. Qed.

(** What a stray character is not. *)
Lemma stray_inv (c : ascii) :
  stray c = true ->
  is_digit c = false /\ is_space c = false /\ Ascii.eqb c "_" = false /\
  Ascii.eqb c "+" = false /\ Ascii.eqb c "-" = false.
Proof.
  unfold stray. intros H.
  apply andb_prop in H as [H Hm]. apply andb_prop in H as [H Hp].
  apply andb_prop in H as [H Hu]. apply andb_prop in H as [H Hs].
  apply andb_prop in H as [_ Hd].
  rewrite negb_true_iff in Hd, Hs, Hu, Hp, Hm. now repeat split.
Qed.

(** An entry that [int] rejects ends the sort with [ValueError]. *)
Lemma latest_run_rejects (listing : list string) (x : string) :
  In x listing ->
  replace x "exp" "" <> "" -> numeric (replace x "exp" "") = false ->
  latest_run listing = Raise ValueError.
Proof.
  intros I N H. unfold latest_run, sorted.
  rewrite (map_result_raises run_number ValueError listing x);
    [reflexivity | | exact I | now apply run_number_not_numeric].
  intros y e E. now apply run_number_raises in E as [-> _].
Qed.

(** C9.  [EXP_DIR] is [sorted(listing, key=...)[-1]] of the listing of
    the runs directory.  For a non-empty listing whose entries are all [exp]
    followed by a possibly empty string of decimal digits, the expression
    yields an entry of the listing whose number is the greatest, the bare
    [exp] counting as 0.  On the empty listing it raises [IndexError]; when
    some entry in ASCII, with [exp] removed, is neither empty nor accepted
    by [int], it raises [ValueError]; and so it does when what is left of
    some entry holds an ASCII character that is neither a digit, an
    underscore, a sign nor white space, as a letter is. *)
Theorem latest_run_greatest :
  (forall runs w listing,
     listdir (fs w) runs = Ok listing ->
     EXP_DIR runs w = (latest_run listing, w)) /\
  (forall listing,
     listing <> [] ->
     (forall x, In x listing ->
                exists d, x = "exp" ++ d /\ all_digits d = true) ->
     exists d,
       latest_run listing = Ok ("exp" ++ d) /\
       In ("exp" ++ d) listing /\ all_digits d = true /\
       forall d',
         all_digits d' = true -> In ("exp" ++ d') listing ->
         numeral_value d' <= numeral_value d) /\
  latest_run [] = Raise IndexError /\
  (forall listing x,
     In x listing ->
     isascii x = true ->
     replace x "exp" "" <> "" -> numeric (replace x "exp" "") = false ->
     latest_run listing = Raise ValueError) /\
  (forall listing x before c after,
     In x listing ->
     replace x "exp" "" = before ++ String c after ->
     stray c = true ->
     latest_run listing = Raise ValueError).
Proof.
  split; [exact EXP_DIR_listing|]. split; [|split; [|split]].
  - intros listing N H.
    destruct (sorted_last_greatest run_number
                (fun x => numeral_value (replace x "exp" "")) listing N)
      as (y & L & I & M).
    { intros x Hx. destruct (H x Hx) as (d & -> & D).
      now rewrite run_number_exp, replace_exp. }
    destruct (H y I) as (d & -> & D). exists d.
    repeat split; [exact L | exact I | exact D|].
    intros d' D' I'. specialize (M _ I').
    now rewrite !replace_exp in M.
  - reflexivity.
  - intros listing x I _ N H. now apply (latest_run_rejects listing x).
  - intros listing x before c after I E S.
    apply stray_inv in S as (Hd & Hs & Hu & Hp & Hm).
    apply (latest_run_rejects listing x I).
    + rewrite E. now destruct before.
    + rewrite E. now apply stray_not_numeric.
Qed.

Lemma latest_run_greatest_witness :
  latest_run runs_train = Ok "exp10" /\
  (forall d',
     all_digits d' = true -> In ("exp" ++ d') runs_train ->
     numeral_value d' <= numeral_value "10") /\
  latest_run ["exp1"; "weights"; "exp2"] = Raise ValueError /\
  latest_run ["exp1"; "exp_old"] = Raise ValueError.
Proof.
  destruct latest_run_greatest as (_ & G & _ & V & S).
  destruct (G runs_train) as (d & L & _ & _ & M).
  - discriminate.
  - intros x Hx. vm_compute in Hx.
    destruct Hx as [<-|[<-|[<-|[<-|[]]]]];
      [now exists "2" | now exists "" | now exists "10" | now exists "9"].
  - assert (E : d = "10").
    { assert (R : latest_run runs_train = Ok "exp10") by reflexivity.
      rewrite R in L. now injection L as <-. }
    subst d. split; [exact L|]. split; [exact M|]. split.
    + apply (V ["exp1"; "weights"; "exp2"] "weights");
        [now right; left | reflexivity | discriminate | reflexivity].
    + apply (S ["exp1"; "exp_old"] "exp_old" "_" "o"%char "ld");
        [now right; left | reflexivity | reflexivity].
Defined.

End YoloV7.

(* ================================================================== *)
(** * What a run of [generate_images] leaves in the files *)
(* ================================================================== *)

Module RunFacts.
Import StringFacts PyFacts CellFacts PathFacts FsFacts MakedirsFacts LogFacts
       GenerateFacts IndexFacts FrameFacts ImageFacts.

(** ** Writing a list of entries *)

Lemma write_all_app (xs ys : list (location * node)) (f : filesystem) :
  write_all (xs ++ ys) f = write_all ys (write_all xs f).
Proof. unfold write_all. apply fold_left_app. Qed.

Lemma write_all_lookup_out (q : location) (entries : list (location * node)) :
  forall f,
    ~ In q (map fst entries) ->
    lookup q (write_all entries f) = lookup q f.
Proof.
  induction entries as [|[k n] entries IH]; intros f H; [reflexivity|].
  change (write_all ((k, n) :: entries) f)
    with (write_all entries (write k n f)).
  rewrite IH by (intros Hq; apply H; now right).
  rewrite lookup_write. destruct (location_eq_dec q k) as [->|_];
    [|reflexivity].
  elim H. now left.
Qed.

Lemma write_all_lookup_in (q : location) (n : node)
    (entries : list (location * node)) :
  forall f,
    NoDup (map fst entries) -> In (q, n) entries ->
    lookup q (write_all entries f) = Some n.
Proof.
  induction entries as [|[k m] entries IH]; intros f N H; [destruct H|].
  change (write_all ((k, m) :: entries) f)
    with (write_all entries (write k m f)).
  inversion N as [|x l Hx N']; subst. destruct H as [[= -> ->]|H].
  - rewrite write_all_lookup_out by exact Hx.
    rewrite lookup_write. now destruct (location_eq_dec q q).
  - now apply IH.
Qed.

(** Entries written over directories aside, writing keeps directories. *)
Lemma displays_app (s t : list event) :
  displays (s ++ t) = (displays s ++ displays t)%list.
Proof.
  induction s as [|e s IH]; [reflexivity|].
  destruct e; simpl; now rewrite IH.
Qed.

(** ** The indexed images of a run *)

Lemma indexed_from_indices (b : Z) (batches : list (list pil_image)) :
  forall s, map fst (indexed_from b s batches) = indices_from b s batches.
Proof.
  unfold indexed_from, indices_from.
  induction batches as [|images batches IH]; intros s; [reflexivity|].
  cbn [enumerate_from map List.concat fst snd].
  rewrite map_app, IH. f_equal.
  rewrite map_map. cbn [fst]. unfold enumerate.
  rewrite <- (map_map fst (fun idx => s * b + idx)), enumerate_from_fst.
  rewrite map_map. apply map_ext. intros idx. reflexivity.
Qed.

Lemma indexed_from_images (b : Z) (batches : list (list pil_image)) :
  forall s, map snd (indexed_from b s batches) = List.concat batches.
Proof.
  unfold indexed_from.
  induction batches as [|images batches IH]; intros s; [reflexivity|].
  cbn [enumerate_from map List.concat fst snd].
  rewrite map_app, IH. f_equal.
  rewrite map_map. cbn [snd]. apply enumerate_from_snd.
Qed.

Section Runs.

Context (ext : externals).

(** ** The files a completed loop wrote *)

Lemma persist_fs (b : Z) (d : string) (disp : bool) (i : Z)
    (item : Z * pil_image) (w w' : world) :
  persist ext b d disp i item w = (Ok tt, w') ->
  fs w' = write_all [image_entry d (i * b + fst item, snd item)] (fs w).
Proof.
  intros H. apply persist_ok in H as [_ H].
  apply write_file_ok in H as [H _]. exact H.
Qed.

Lemma persist_loop_fs (b : Z) (d : string) (disp : bool) (i : Z) :
  forall items w w',
    for_each items (persist ext b d disp i) w = (Ok tt, w') ->
    fs w' =
    write_all
      (map (fun item => image_entry d (i * b + fst item, snd item)) items)
      (fs w).
Proof.
  induction items as [|item items IH]; intros w w'; simpl.
  - now intros [= <-].
  - intros H. apply bind_inv_ok in H as ([] & w1 & H1 & H2).
    apply persist_fs in H1. apply IH in H2. rewrite H2, H1. reflexivity.
Qed.

Lemma generate_batch_run (p : string) (b g : Z) (d : string) (disp : bool)
    (i : Z) (w w' : world) :
  generate_batch ext p b g d disp i w = (Ok tt, w') ->
  exists images,
    trace w' = (trace w ++ batch_events p b g d disp i images)%list /\
    fs w' =
    write_all
      (map (fun item => image_entry d (i * b + fst item, snd item))
           (enumerate images))
      (fs w).
Proof.
  intros H. pose proof H as K.
  apply generate_batch_ok in K as (images & P & T).
  exists images. split; [exact T|].
  unfold generate_batch, bind, pipeline in H. rewrite P in H.
  apply persist_loop_fs in H. exact H.
Qed.

Lemma batch_loop_run (p : string) (b g : Z) (d : string) (disp : bool) :
  forall n s w w',
    for_each (map Z.of_nat (seq s n)) (generate_batch ext p b g d disp) w
    = (Ok tt, w') ->
    exists batches,
      List.length batches = n /\
      trace w' =
      (trace w ++
       List.concat
         (map (fun batch =>
                 batch_events p b g d disp (fst batch) (snd batch))
              (enumerate_from (Z.of_nat s) batches)))%list /\
      fs w' =
      write_all (map (image_entry d) (indexed_from b (Z.of_nat s) batches))
        (fs w).
Proof.
  induction n as [|n IH]; intros s w w'; simpl.
  - intros [= <-]. exists []. now rewrite app_nil_r.
  - intros H. apply bind_inv_ok in H as ([] & w1 & H1 & H2).
    apply generate_batch_run in H1 as (images & T1 & F1).
    apply IH in H2 as (batches & L & T2 & F2).
    exists (images :: batches). split; [simpl; now rewrite L|]. split.
    + rewrite T2, T1, <- app_assoc. simpl.
      now replace (Z.of_nat s + 1) with (Z.of_nat (S s)) by lia.
    + rewrite F2, F1. unfold indexed_from.
      cbn [enumerate_from map List.concat fst snd].
      rewrite map_app, write_all_app, map_map.
      now replace (Z.of_nat s + 1) with (Z.of_nat (S s)) by lia.
Qed.

(** A completed call: the directory was made, then the images of the
    batches were written under their indices, in order. *)
Lemma generate_images_run (p : string) (n b g : Z) (d : string)
    (disp : bool) (w w' : world) :
  generate_images ext p n b g d disp w = (Ok tt, w') ->
  exists w1 batches,
    os_makedirs d true w = (Ok tt, w1) /\
    List.length batches = Z.to_nat (n / b) /\
    trace w' = (trace w ++ run_events p b g d disp batches)%list /\
    fs w' = write_all (map (image_entry d) (indexed_from b 0 batches)) (fs w1).
Proof.
  intros H. apply generate_images_ok in H as (N & w1 & _ & Hm & Hl & _).
  apply batch_loop_run in Hl as (batches & L & T & F).
  exists w1, batches. repeat split; auto.
  apply os_makedirs_makes in Hm as [T1 _]. now rewrite T, T1.
Qed.

End Runs.

Lemma saves_batches (p : string) (b g : Z) (d : string) (disp : bool)
    (batches : list (list pil_image)) :
  forall s,
    saves
      (List.concat
         (map (fun batch =>
                 batch_events p b g d disp (fst batch) (snd batch))
              (enumerate_from s batches)))
    = map (fun item => (snd item, image_path d (fst item)))
          (indexed_from b s batches).
Proof.
  unfold indexed_from.
  induction batches as [|images batches IH]; intros s; [reflexivity|].
  cbn [enumerate_from map List.concat fst snd].
  rewrite saves_app, map_app, IH. f_equal.
  unfold batch_events. cbn [saves].
  rewrite saves_persist_events, map_map. reflexivity.
Qed.

(** The saves a completed run logged, as indexed images. *)
Lemma run_events_saves (p : string) (b g : Z) (d : string) (disp : bool)
    (batches : list (list pil_image)) :
  saves (run_events p b g d disp batches)
  = map (fun item => (snd item, image_path d (fst item)))
        (indexed_from b 0 batches).
Proof. apply saves_batches. Qed.

End RunFacts.

(* ================================================================== *)
(** * [generate_images]: files, shown images, failures, completion *)
(* ================================================================== *)

Module GenerateRuns.
Import StringFacts PyFacts CellFacts PathFacts FsFacts MakedirsFacts LogFacts
       GenerateFacts IndexFacts FrameFacts ImageFacts UploadFacts RunFacts
       Sample MoreSamples.

(** The locations a completed run wrote are those of its saves, one per
    index. *)
Lemma written_locations (b : Z) (d : string)
    (batches : list (list pil_image)) :
  map fst (map (image_entry d) (indexed_from b 0 batches))
  = map (fun k => resolve (image_path d k)) (run_indices b batches).
Proof.
  rewrite map_map. unfold image_entry. cbn [fst].
  rewrite <- (map_map fst (fun k => resolve (image_path d k))).
  now rewrite indexed_from_indices.
Qed.

Lemma written_NoDup (b : Z) (d : string) (batches : list (list pil_image)) :
  d <> "" ->
  (forall images, In images batches -> len images <= b) ->
  NoDup (map fst (map (image_entry d) (indexed_from b 0 batches))).
Proof.
  intros N Cb. rewrite written_locations.
  apply NoDup_map_inj; [|apply sorted_NoDup, run_indices_sorted, Cb].
  intros j k. now apply image_location_inj.
Qed.

(** X1.  At the end of a completed call in which no pipeline call returned
    more than [num_images_per_prompt] images, every file that was saved
    holds the image that was saved under its name: no save of the run was
    overwritten by a later one, and whatever the file held before the call
    is gone. *)
Theorem generate_images_files_hold_images (ext : externals) (p : string)
    (n b g : Z) (d : string) (disp : bool) (w w' : world)
    (new : list event) :
  generate_images ext p n b g d disp w = (Ok tt, w') ->
  trace w' = (trace w ++ new)%list ->
  (forall p' b' g' images,
     In (PipelineCall p' b' g' (Ok images)) new -> len images <= b) ->
  forall image name,
    In (image, name) (saves new) ->
    lookup (resolve name) (fs w') = Some (File (png_bytes image)).
Proof.
  intros H T C image name Hs.
  assert (N : d <> "").
  { intros ->. now apply generate_images_isdir in H. }
  apply generate_images_run in H as (w1 & batches & _ & _ & T' & F).
  rewrite T' in T. apply app_inv_head in T. subst new.
  assert (Cb : forall images, In images batches -> len images <= b).
  { intros images Hi. eapply C, run_events_batches, Hi. }
  rewrite run_events_saves in Hs.
  apply in_map_iff in Hs as (item & [= <- <-] & Hi).
  rewrite F. apply write_all_lookup_in; [now apply written_NoDup|].
  apply in_map_iff. now exists item.
Qed.

Lemma generate_images_files_hold_images_witness :
  let run :=
    generate_images obliging "aerial view of cattle" 8 4 8
      "generated_images" false empty_world in
  lookup (resolve "generated_images/image_5.png") (fs (snd run))
  = Some (File (png_bytes cow)).
Proof.
  intros run.
  apply (generate_images_files_hold_images obliging "aerial view of cattle"
           8 4 8 "generated_images" false empty_world (snd run)
           (trace (snd run)));
    [reflexivity | reflexivity | |].
  - intros p' b' g' images H. vm_compute in H.
    repeat (destruct H as [H|H]; [try discriminate; now inversion H|]).
    destruct H.
  - vm_compute. do 5 right. now left.
Defined.




(** ** Shown images *)

Lemma displays_persist_events (b : Z) (d : string) (disp : bool) (i : Z)
    (items : list (Z * pil_image)) :
  displays (flat_map (persist_events b d disp i) items)
  = if disp
    then map (fun name => Image name 128 128)
             (saved_paths (flat_map (persist_events b d disp i) items))
    else [].
Proof.
  unfold saved_paths.
  induction items as [|item items IH]; [now destruct disp|].
  cbn [flat_map]. rewrite displays_app, saves_app, map_app, map_app, IH.
  unfold persist_events. now destruct disp.
Qed.

Lemma displays_run_events (p : string) (b g : Z) (d : string) (disp : bool)
    (batches : list (list pil_image)) :
  displays (run_events p b g d disp batches)
  = if disp
    then map (fun name => Image name 128 128)
             (saved_paths (run_events p b g d disp batches))
    else [].
Proof.
  unfold run_events, enumerate, saved_paths. generalize 0.
  induction batches as [|images batches IH]; intros s; [now destruct disp|].
  cbn [enumerate_from map List.concat fst snd].
  rewrite displays_app, saves_app, map_app, IH.
  unfold batch_events. cbn [displays saves].
  rewrite displays_persist_events. unfold saved_paths.
  destruct disp; [now rewrite map_app | reflexivity].
Qed.

(** X3.  In a completed call with [display_images=True], the images shown
    are the files saved, in the order of the saves, each as
    [Image(filename=..., width=128, height=128)]; with
    [display_images=False] nothing is shown.  An image is shown after it
    is saved: when [display] raises, the iteration ends with that
    exception and the file of the image is written. *)
Theorem generate_images_shows_saved (ext : externals) :
  (forall p n b g d disp w w' new,
     generate_images ext p n b g d disp w = (Ok tt, w') ->
     trace w' = (trace w ++ new)%list ->
     displays new
     = if disp
       then map (fun name => Image name 128 128) (saved_paths new)
       else []) /\
  (forall b d i item w w1 e,
     let name := image_path d (i * b + fst item) in
     image_save ext (snd item) name w = (Ok tt, w1) ->
     display_outcome ext w1 (Image name 128 128) = Some e ->
     persist ext b d true i item w
     = (Raise e, log_event (Display (Image name 128 128)) w1) /\
     lookup (resolve name) (fs w1) = Some (File (png_bytes (snd item)))).
Proof.
  split.
  - intros p n b g d disp w w' new H T.
    apply generate_images_run in H as (w1 & batches & _ & _ & T' & _).
    rewrite T' in T. apply app_inv_head in T. subst new.
    apply displays_run_events.
  - intros b d i [idx image] w w1 e name S D. cbn [fst snd] in *. split.
    + unfold persist, bind. fold name. rewrite S.
      unfold display, call. now rewrite D.
    + apply image_save_ok in S as (f' & W & ->).
      apply write_file_ok in W as [-> _]. simpl. rewrite lookup_write.
      now destruct (location_eq_dec (resolve name) (resolve name)).
Qed.

Lemma generate_images_shows_saved_witness :
  (let run :=
     generate_images obliging "aerial view of cattle" 4 4 8
       "generated_images" true empty_world in
   displays (trace (snd run))
   = map (fun name => Image name 128 128) (saved_paths (trace (snd run)))) /\
  (let w := snd (os_makedirs "generated_images" true empty_world) in
   let w1 := snd (image_save display_fails cow "generated_images/image_0.png"
                    w) in
   persist display_fails 4 "generated_images" true 0 (0, cow) w
   = (Raise no_display,
      log_event
        (Display (Image "generated_images/image_0.png" 128 128)) w1) /\
   lookup (resolve "generated_images/image_0.png") (fs w1)
   = Some (File (png_bytes cow))).
Proof.
  split.
  - intros run.
    destruct (generate_images_shows_saved obliging) as [A _].
    apply (A "aerial view of cattle" 4 4 8 "generated_images" true
             empty_world (snd run) (trace (snd run)));
      reflexivity.
  - intros w w1.
    destruct (generate_images_shows_saved display_fails) as [_ B].
    apply (B 4 "generated_images" 0 (0, cow) w w1 no_display);
      reflexivity.
Defined.

(** ** Failing before the loop *)

(** A file where the directory should be: [os.makedirs] raises
    [FileExistsError] and changes nothing. *)
Lemma os_makedirs_on_file (d data : string) (w : world) :
  lookup (resolve d) (fs w) = Some (File data) ->
  anchor (resolve d) = false ->
  ends_in_dot d = false ->
  dir_at (fs w) (parent (resolve d)) = true ->
  os_makedirs d true w = (Raise FileExistsError, w).
Proof.
  intros F A Hd P.
  assert (N : d <> "") by (intros ->; discriminate).
  assert (X : exists_at (fs w) (resolve d) = true).
  { unfold exists_at. rewrite F. apply orb_true_r. }
  assert (D : isdir (fs w) d = false).
  { unfold isdir, dir_at. rewrite A, F. apply andb_false_r. }
  assert (L : make_leaf d true w = (Raise FileExistsError, w)).
  { rewrite make_leaf_run. unfold mkdir.
    apply String.eqb_neq in N. rewrite N, Hd, X. simpl. now rewrite D. }
  unfold os_makedirs. rewrite makedirs_rec_S. cbv zeta.
  destruct (String.eqb_spec (fst (split_leaf d)) "") as [Hh|Hh];
    [exact L|].
  destruct (String.eqb_spec (snd (split_leaf d)) "") as [Ht|Ht];
    [exact L|].
  cbn [negb andb].
  assert (R : real_name (snd (split_leaf d)) = true).
  { rewrite real_name_spec. rewrite (split_leaf_ends_in_dot d Ht) in Hd.
    rewrite Hd. apply String.eqb_neq in Ht. now rewrite Ht. }
  destruct (resolve_leaf_real d Hh R) as [E _].
  assert (Hx : path_exists (fs w) (fst (split_leaf d)) = true).
  { unfold path_exists. rewrite <- E, P, (dir_exists _ _ P), orb_true_r.
    apply String.eqb_neq in Hh. now rewrite Hh. }
  rewrite Hx. exact L.
Qed.

(** X4.  [generate_images] fails before its loop, without calling the
    pipeline, in three cases.  A [num_images_per_prompt] of 0 raises
    [ZeroDivisionError] before anything is done, the directory included.
    Otherwise whatever [os.makedirs(output_dir, exist_ok=True)] raises is
    raised, with nothing logged; and it raises [FileExistsError], the file
    system unchanged, when [output_dir] names a file in a directory, and
    [FileNotFoundError] when [output_dir] is empty. *)
Theorem generate_images_fails_before_the_loop (ext : externals)
    (p : string) (n g : Z) (disp : bool) (w : world) :
  (forall d,
     generate_images ext p n 0 g d disp w = (Raise ZeroDivisionError, w)) /\
  (forall b d e w1,
     b <> 0 ->
     os_makedirs d true w = (Raise e, w1) ->
     generate_images ext p n b g d disp w = (Raise e, w1) /\
     trace w1 = trace w) /\
  (forall b d data,
     b <> 0 ->
     lookup (resolve d) (fs w) = Some (File data) ->
     anchor (resolve d) = false ->
     ends_in_dot d = false ->
     dir_at (fs w) (parent (resolve d)) = true ->
     generate_images ext p n b g d disp w = (Raise FileExistsError, w)) /\
  (forall b,
     b <> 0 ->
     generate_images ext p n b g "" disp w = (Raise FileNotFoundError, w)).
Proof.
  assert (S : forall b d e w1,
             b <> 0 ->
             os_makedirs d true w = (Raise e, w1) ->
             generate_images ext p n b g d disp w = (Raise e, w1)).
  { intros b d e w1 N H. unfold generate_images, bind at 1, lift, floordiv.
    apply Z.eqb_neq in N. rewrite N. now apply bind_raise. }
  split; [reflexivity|]. split; [|split].
  - intros b d e w1 N H. split; [now apply S|].
    now apply os_makedirs_makes in H as [T _].
  - intros b d data N F A Hd P. apply S; [exact N|].
    now apply (os_makedirs_on_file d data).
  - intros b N. now apply S.
Qed.

Lemma generate_images_fails_before_the_loop_witness :
  generate_images obliging "aerial view of cattle" 12 4 8
    "generated_images" false blocked
  = (Raise FileExistsError, blocked) /\
  generate_images obliging "aerial view of cattle" 12 4 8
    "generated_images/batch1" false blocked
  = (Raise NotADirectoryError, blocked).
Proof.
  destruct (generate_images_fails_before_the_loop obliging
              "aerial view of cattle" 12 8 false blocked) as (_ & B & C & _).
  split.
  - apply (C 4 "generated_images" "not a directory"); [lia | reflexivity..].
  - now destruct (B 4 "generated_images/batch1" NotADirectoryError blocked)
      as [R _]; [lia | reflexivity |].
Defined.

(** ** The call the notebook makes *)

Lemma run_events_calls_args (p : string) (b g : Z) (d : string)
    (disp : bool) (batches : list (list pil_image)) (p' : string)
    (b' g' : Z) (r : result (list pil_image)) :
  In (PipelineCall p' b' g' r) (run_events p b g d disp batches) ->
  p' = p /\ b' = b /\ g' = g.
Proof.
  unfold run_events, enumerate. generalize 0.
  induction batches as [|images batches IH]; intros s; [intros []|].
  cbn [enumerate_from map List.concat fst snd]. intros H.
  apply in_app_or in H as [H|H]; [|now apply IH in H].
  destruct H as [[= -> -> -> _]|H]; [easy|]. exfalso.
  apply in_flat_map in H as (item & _ & H).
  unfold persist_events in H. destruct H as [H|H]; [discriminate|].
  destruct disp; [destruct H as [H|[]]; discriminate | destruct H].
Qed.

(** X6.  The call of the notebook,
    [generate_images("aerial view of cattle", 12, guidance_scale=4,
    display_images=True)], when it completes with four images from every
    pipeline call: the pipeline was called three times, each time with
    that prompt, 4 images per prompt and guidance scale 4; the twelve
    images asked for were saved as [generated_images/image_0.png] to
    [generated_images/image_11.png], and each was shown after its save. *)
Theorem generate_cell_makes_twelve (ext : externals) (w w' : world)
    (new : list event) :
  generate_cell ext w = (Ok tt, w') ->
  trace w' = (trace w ++ new)%list ->
  (forall p' b' g' images,
     In (PipelineCall p' b' g' (Ok images)) new -> len images = 4) ->
  pipeline_calls new = 3%nat /\
  (forall p' b' g' r,
     In (PipelineCall p' b' g' r) new ->
     p' = "aerial view of cattle" /\ b' = 4 /\ g' = 4) /\
  saved_paths new
  = ["generated_images/image_0.png"; "generated_images/image_1.png";
     "generated_images/image_2.png"; "generated_images/image_3.png";
     "generated_images/image_4.png"; "generated_images/image_5.png";
     "generated_images/image_6.png"; "generated_images/image_7.png";
     "generated_images/image_8.png"; "generated_images/image_9.png";
     "generated_images/image_10.png"; "generated_images/image_11.png"] /\
  displays new = map (fun name => Image name 128 128) (saved_paths new).
Proof.
  unfold generate_cell. intros H T C.
  apply generate_images_run in H as (w1 & batches & _ & L & T' & _).
  rewrite T' in T. apply app_inv_head in T. subst new.
  assert (Cb : forall images, In images batches -> len images = 4).
  { intros images Hi. eapply C, run_events_batches, Hi. }
  split; [now rewrite run_events_calls, L|].
  split; [intros p' b' g' r; apply run_events_calls_args|].
  split; [|apply (displays_run_events _ _ _ _ true)].
  rewrite run_events_saved_paths, run_indices_exact by exact Cb.
  unfold len. rewrite L. reflexivity.
Qed.

Lemma generate_cell_makes_twelve_witness :
  let run := generate_cell obliging empty_world in
  pipeline_calls (trace (snd run)) = 3%nat /\
  List.length (saved_paths (trace (snd run))) = 12%nat.
Proof.
  intros run.
  destruct (generate_cell_makes_twelve obliging empty_world (snd run)
              (trace (snd run)) eq_refl eq_refl) as (A & _ & B & _).
  - intros p' b' g' images H. vm_compute in H.
    repeat (destruct H as [H|H]; [try discriminate; now inversion H|]).
    destruct H.
  - split; [exact A | now rewrite B].
Defined.

End GenerateRuns.

(* ================================================================== *)
(** * The upload cell: what it leaves alone, and when it completes *)
(* ================================================================== *)

Module UploadRuns.
Import StringFacts PyFacts CellFacts PathFacts FsFacts LogFacts UploadFacts
       Sample MoreSamples.

Section Runs.

Context (ext : externals).

(** However the upload loop ends, the files are as they were and the log
    grew by uploads and printed lines only. *)
Lemma upload_loop_any (image_glob : list string) :
  forall images w r w',
    for_each images (upload_one ext image_glob) w = (r, w') ->
    fs w' = fs w /\
    exists new,
      trace w' = (trace w ++ new)%list /\
      Forall (fun e => exists image, e = Upload image 3 \/
                       e = PrintLine (progress_line image_glob image)) new.
Proof.
  induction images as [|image images IH]; intros w r w'; simpl.
  - intros [= _ <-]. split; [reflexivity|]. exists [].
    split; [now rewrite app_nil_r | constructor].
  - unfold bind at 1. unfold upload_one at 1. unfold bind, upload, call, print.
    destruct (upload_outcome ext w image 3) as [e|].
    + intros [= _ <-]. split; [reflexivity|]. exists [Upload image 3].
      split; [reflexivity|]. constructor; [|constructor].
      exists image. now left.
    + intros H. apply IH in H as (F & new & T & A).
      split; [exact F|].
      exists (Upload image 3 :: PrintLine (progress_line image_glob image)
                :: new).
      split; [rewrite T; simpl; now rewrite <- !app_assoc|].
      constructor; [exists image; now left|].
      constructor; [exists image; now right | exact A].
Qed.

Lemma upload_loop_completes (image_glob : list string) :
  (forall w path retries, upload_outcome ext w path retries = None) ->
  forall images w,
    exists w', for_each images (upload_one ext image_glob) w = (Ok tt, w').
Proof.
  intros U. induction images as [|image images IH]; intros w; simpl.
  - now exists w.
  - unfold bind at 1. unfold upload_one at 1. unfold bind, upload, call, print.
    rewrite U. apply IH.
Qed.

End Runs.

Lemma uploads_app (s t : list event) :
  uploads (s ++ t) = (uploads s ++ uploads t)%list.
Proof.
  induction s as [|e s IH]; [reflexivity|].
  destruct e; simpl; now rewrite IH.
Qed.

(** X7.  However the upload cell ends, the file system is as it was: the
    cell only reads the directory.  The log grows by the Roboflow login
    first, and nothing is uploaded unless the login and the project lookup
    both succeeded; every upload call is made with
    [num_retry_uploads=3]. *)
Theorem upload_cell_reads_only (ext : externals)
    (HOME api_key project_name : string) (w w' : world) (r : result unit) :
  upload_cell ext HOME api_key project_name w = (r, w') ->
  fs w' = fs w /\
  exists rest,
    trace w' = (trace w ++ RoboflowLogin api_key :: rest)%list /\
    (uploads rest <> [] ->
     login_outcome ext w api_key = None /\
     project_outcome ext (log_event (RoboflowLogin api_key) w) project_name
     = None) /\
    (forall path retries, In (path, retries) (uploads rest) -> retries = 3).
Proof.
  unfold upload_cell, Roboflow, workspace_project, glob_glob, upload_loop.
  unfold bind at 1, call at 1.
  destruct (login_outcome ext w api_key) as [e|].
  { intros [= _ <-]. split; [reflexivity|]. exists [].
    split; [reflexivity|]. split; [now intros N | intros ? ? []]. }
  unfold bind at 1, call at 1.
  destruct (project_outcome ext _ project_name) as [e|].
  { intros [= _ <-]. split; [reflexivity|].
    exists [WorkspaceProject project_name].
    split; [simpl; now rewrite <- app_assoc|].
    split; [now intros N | intros ? ? []]. }
  unfold bind at 1. intros H.
  apply upload_loop_any in H as (F & new & T & A).
  split; [exact F|]. exists (WorkspaceProject project_name :: new).
  split; [rewrite T; simpl; now rewrite <- !app_assoc|].
  split; [now intros _|].
  intros path retries Hi. simpl in Hi.
  clear T. induction A as [|e new [image [->| ->]] A IH]; simpl in Hi.
  - destruct Hi.
  - destruct Hi as [[= _ <-]|Hi]; [reflexivity | now apply IH].
  - now apply IH.
Qed.

Lemma upload_cell_reads_only_witness :
  let run := upload_cell second_upload_fails "/home/studio" "KEY" "PROJECT"
               studio in
  fst run = Raise server_error /\ fs (snd run) = fs studio.
Proof.
  intros run. split; [reflexivity|].
  now destruct (upload_cell_reads_only second_upload_fails "/home/studio"
                  "KEY" "PROJECT" studio (snd run) (fst run) eq_refl)
    as [F _].
Defined.

(** X8.  When [HOME] holds no wildcard and [HOME/generated_images] is not
    a directory (it is missing, or a file), the glob yields nothing and
    raises nothing: if the two Roboflow calls succeed the cell completes
    having logged only these two calls, with no upload and no printed
    line.  The same holds for a directory without an entry whose name ends
    in [.png] and does not start with a dot. *)
Theorem upload_cell_without_images (ext : externals)
    (HOME api_key project_name : string) (w : world) :
  has_magic HOME = false ->
  login_outcome ext w api_key = None ->
  project_outcome ext (log_event (RoboflowLogin api_key) w) project_name
  = None ->
  (isdir (fs w) (upload_dir HOME) = false \/
   filter selected (upload_entries HOME (fs w)) = []) ->
  upload_cell ext HOME api_key project_name w
  = (Ok tt, logged_in api_key project_name w).
Proof.
  intros M L P E.
  assert (G : forall expand, glob expand (fs w) (upload_pattern HOME) = []).
  { intros expand. rewrite (glob_upload_pattern expand (fs w) HOME M).
    destruct E as [E|E]; [|now rewrite E].
    unfold upload_entries. now rewrite E. }
  unfold upload_cell, Roboflow, workspace_project, glob_glob, upload_loop.
  unfold bind at 1, call at 1. rewrite L.
  unfold bind at 1, call at 1. rewrite P.
  unfold bind at 1. cbn [fs log_event].
  fold (upload_pattern HOME). now rewrite G.
Qed.

Lemma upload_cell_without_images_witness :
  upload_cell obliging "/home/studio" "KEY" "PROJECT" empty_world
  = (Ok tt, logged_in "KEY" "PROJECT" empty_world).
Proof.
  apply upload_cell_without_images; try reflexivity. now left.
Defined.

(** X9.  When the two Roboflow calls succeed and no upload raises, the
    upload cell completes, whatever the directory holds, and it has
    uploaded every path of the glob once, in the order of the glob. *)
Theorem upload_cell_completes (ext : externals)
    (HOME api_key project_name : string) (w : world) :
  login_outcome ext w api_key = None ->
  project_outcome ext (log_event (RoboflowLogin api_key) w) project_name
  = None ->
  (forall w0 path retries, upload_outcome ext w0 path retries = None) ->
  exists w',
    upload_cell ext HOME api_key project_name w = (Ok tt, w') /\
    uploads (trace w')
    = (uploads (trace w) ++
       map (fun image => (image, 3))
           (glob (glob_dirs ext (logged_in api_key project_name w)) (fs w)
              (upload_pattern HOME)))%list.
Proof.
  intros L P U.
  set (image_glob :=
         glob (glob_dirs ext (logged_in api_key project_name w)) (fs w)
           (upload_pattern HOME)).
  destruct (upload_loop_completes ext image_glob U image_glob
              (logged_in api_key project_name w)) as [w' H].
  assert (R : upload_cell ext HOME api_key project_name w = (Ok tt, w')).
  { unfold upload_cell, Roboflow, workspace_project, glob_glob, upload_loop.
    unfold bind at 1, call at 1. rewrite L.
    unfold bind at 1, call at 1. rewrite P.
    unfold bind at 1. exact H. }
  exists w'. split; [exact R|].
  apply upload_cell_ok in R as [_ T]. rewrite T.
  rewrite !uploads_app. cbn [uploads app]. f_equal.
  apply uploads_upload_events.
Qed.

Lemma upload_cell_completes_witness :
  exists w',
    upload_cell obliging "/home/studio" "KEY" "PROJECT" studio = (Ok tt, w') /\
    uploads (trace w')
    = [("/home/studio/generated_images/image_0.png", 3);
       ("/home/studio/generated_images/image_1.png", 3);
       ("/home/studio/generated_images/old.png", 3);
       ("/home/studio/generated_images/image_2.png", 3)].
Proof.
  apply (upload_cell_completes obliging "/home/studio" "KEY" "PROJECT" studio);
    reflexivity.
Defined.

End UploadRuns.

(* ================================================================== *)
(** * [EXP_DIR]: which of the greatest entries is taken *)
(* ================================================================== *)

Module LatestRun.
Import StringFacts PyFacts CellFacts ExpDirFacts Sample.

Lemma last_greatest_none {A : Type} (l : list (Z * A)) :
  last_greatest l = None -> l = [].
Proof.
  destruct l as [|a l]; [reflexivity|]. simpl.
  destruct (last_greatest l) as [m|]; [|discriminate].
  now destruct (fst m <? fst a).
Qed.

(** The entry [last_greatest] picks: nothing after it has a key as great,
    nothing before it a greater one. *)
Lemma last_greatest_spec {A : Type} (l : list (Z * A)) :
  forall m,
    last_greatest l = Some m ->
    exists pre post,
      l = (pre ++ m :: post)%list /\
      (forall e, In e pre -> fst e <= fst m) /\
      (forall e, In e post -> fst e < fst m).
Proof.
  induction l as [|a l IH]; intros m; [discriminate|]. simpl.
  destruct (last_greatest l) as [m'|] eqn:E.
  - destruct (IH m' eq_refl) as (pre & post & -> & Hpre & Hpost).
    destruct (Z.ltb_spec (fst m') (fst a)); intros [= <-].
    + exists [], (pre ++ m' :: post)%list. split; [reflexivity|].
      split; [intros e []|]. intros e He.
      apply in_app_or in He as [He|[<-|He]];
        [specialize (Hpre e He) | | specialize (Hpost e He)]; lia.
    + exists (a :: pre), post. split; [reflexivity|]. split; [|exact Hpost].
      intros e [<-|He]; [lia | now apply Hpre].
  - intros [= <-]. apply last_greatest_none in E as ->.
    exists [], []. split; [reflexivity|]. split; intros e [].
Qed.

(** Inserting into a sorted list: the new entry ends up last only when its
    key is greater than every key of the list. *)
Lemma insert_keyed_last {A : Type} (k : Z) (x : A) (d : Z * A)
    (l : list (Z * A)) :
  StronglySorted key_le l -> l <> [] ->
  last (insert_keyed k x l) d
  = if fst (last l d) <? k then (k, x) else last l d.
Proof.
  induction 1 as [|[k' y] l S IH F]; intros N; [now elim N|].
  cbn [insert_keyed]. destruct l as [|b l].
  - cbn [insert_keyed last fst]. destruct (Z.leb_spec k k');
      destruct (Z.ltb_spec k' k); try lia; reflexivity.
  - specialize (IH ltac:(discriminate)).
    change (last ((k', y) :: b :: l) d) with (last (b :: l) d).
    destruct (Z.leb_spec k k').
    + change (last ((k, x) :: (k', y) :: b :: l) d) with (last (b :: l) d).
      assert (I : In (last (b :: l) d) (b :: l)).
      { destruct (exists_last (l := b :: l) ltac:(discriminate))
          as (pre & z & E).
        rewrite E, last_last. apply in_or_app. right. now left. }
      rewrite Forall_forall in F. specialize (F _ I).
      unfold key_le in F. cbn [fst] in F.
      destruct (Z.ltb_spec (fst (last (b :: l) d)) k); [lia | reflexivity].
    + change (last ((k', y) :: insert_keyed k x (b :: l)) d)
        with (match insert_keyed k x (b :: l) with
              | [] => (k', y)
              | _ :: _ => last (insert_keyed k x (b :: l)) d
              end).
      destruct (insert_keyed k x (b :: l)) eqn:E; [|exact IH].
      pose proof (insert_keyed_perm k x (b :: l)) as P. rewrite E in P.
      now apply Permutation_nil in P.
Qed.

(** The last entry of the sorted list is the last of the greatest entries
    of the list. *)
Lemma sort_keyed_last {A : Type} (d : Z * A) (l : list (Z * A)) :
  l <> [] -> last_greatest l = Some (last (sort_keyed l) d).
Proof.
  induction l as [|[k x] l IH]; intros N; [now elim N|].
  cbn [sort_keyed last_greatest]. destruct l as [|b l]; [reflexivity|].
  specialize (IH ltac:(discriminate)). rewrite IH.
  rewrite insert_keyed_last;
    [cbn [fst]; now destruct (_ <? k) | apply sort_keyed_sorted|].
  intros E. pose proof (sort_keyed_perm (b :: l)) as P. rewrite E in P.
  now apply Permutation_nil in P.
Qed.

Lemma last_map_snd {A B : Type} (l : list (A * B)) (d : A * B) :
  last (map snd l) (snd d) = snd (last l d).
Proof.
  induction l as [|a l IH]; [reflexivity|].
  destruct l as [|b l]; [reflexivity | exact IH].
Qed.

Lemma last_item_last {A : Type} (l : list A) (x d : A) :
  last_item l = Ok x -> l <> [] /\ last l d = x.
Proof.
  induction l as [|a l IH]; [discriminate|].
  destruct l as [|b l]; [intros [= <-]; now split|].
  intros H. apply IH in H as [_ H]. split; [discriminate | exact H].
Qed.

(** The keys [sorted] computed: one per element, each the value of the
    key function. *)
Lemma map_result_keys {A B : Type} (f : A -> result B) :
  forall xs ys,
    map_result f xs = Ok ys ->
    List.length ys = List.length xs /\
    forall y x, In (y, x) (combine ys xs) -> f x = Ok y.
Proof.
  induction xs as [|x xs IH]; intros ys; simpl.
  - intros [= <-]. split; [reflexivity | intros ? ? []].
  - destruct (f x) as [y|] eqn:E; [|discriminate].
    destruct (map_result f xs) as [ys'|]; [|discriminate].
    intros [= <-]. destruct (IH ys' eq_refl) as [L H].
    split; [simpl; now rewrite L|].
    intros y' x' [[= <- <-]|Hi]; [exact E | now apply H].
Qed.

Lemma map_snd_combine {A B : Type} (ys : list B) (xs : list A) :
  List.length ys = List.length xs -> map snd (combine ys xs) = xs.
Proof.
  revert ys. induction xs as [|x xs IH]; intros [|y ys] L;
    try discriminate; [reflexivity|].
  simpl. f_equal. apply IH. now injection L.
Qed.

(** X10.  When several entries share the greatest number (such as [exp1]
    and [exp01]), [EXP_DIR] is the one the listing yields last: the sort is
    stable and its last element is taken.  Whenever the expression yields
    [x], every entry listed before [x] has a number no greater than that of
    [x], and every entry listed after [x] has a smaller one. *)
Theorem latest_run_last_of_greatest (listing : list string) (x : string) :
  latest_run listing = Ok x ->
  exists before after k,
    listing = (before ++ x :: after)%list /\
    run_number x = Ok k /\
    (forall y, In y before -> exists j, run_number y = Ok j /\ j <= k) /\
    (forall y, In y after -> exists j, run_number y = Ok j /\ j < k).
Proof.
  unfold latest_run, sorted.
  destruct (map_result run_number listing) as [ks|] eqn:K; [|discriminate].
  destruct (map_result_keys run_number listing ks K) as [L H].
  set (l := combine ks listing) in *. intros E.
  apply (last_item_last _ _ (snd (0, x))) in E as [N E].
  rewrite last_map_snd in E.
  assert (Nl : l <> []).
  { intros El. apply N. now rewrite El. }
  pose proof (sort_keyed_last (0, x) l Nl) as G.
  destruct (last (sort_keyed l) (0, x)) as [k x'] eqn:M.
  cbn [snd] in E. subst x'.
  apply last_greatest_spec in G as (pre & post & S & Hpre & Hpost).
  assert (I : forall e, In e l -> run_number (snd e) = Ok (fst e)).
  { intros [j y] He. now apply H. }
  exists (map snd pre), (map snd post), k. split.
  - rewrite <- (map_snd_combine ks listing L). fold l. rewrite S.
    now rewrite map_app.
  - split; [apply (I (k, x)); rewrite S; apply in_or_app; right; now left|].
    split; intros y Hy; apply in_map_iff in Hy as ([j y'] & <- & He);
      exists j; (split; [apply (I (j, y')); rewrite S; apply in_or_app|]).
    + now left.
    + apply (Hpre _ He).
    + right. now right.
    + apply (Hpost _ He).
Qed.

Lemma latest_run_last_of_greatest_witness :
  latest_run ["exp1"; "exp01"; "exp"] = Ok "exp01" /\
  exists before after k,
    ["exp1"; "exp01"; "exp"] = (before ++ "exp01" :: after)%list /\
    run_number "exp01" = Ok k /\
    (forall y, In y before -> exists j, run_number y = Ok j /\ j <= k) /\
    (forall y, In y after -> exists j, run_number y = Ok j /\ j < k).
Proof.
  split; [reflexivity|].
  now apply (latest_run_last_of_greatest ["exp1"; "exp01"; "exp"] "exp01").
Defined.

End LatestRun.

(* ================================================================== *)
(** * The YOLO notebooks: what the display cells show *)
(* ================================================================== *)

Module YoloFacts.
Import StringFacts PyFacts PathFacts UploadFacts ExpDirFacts Yolo.
Local Open Scope session_scope.

(** ** The name of a run directory holds no wildcard and no separator *)

(** A character other than [e], [x] and [p] survives the removal of
    [exp]. *)
Lemma replace_exp_keeps (c : ascii) :
  Ascii.eqb "e" c = false -> Ascii.eqb "x" c = false ->
  Ascii.eqb "p" c = false ->
  forall s skip t u,
    s = t ++ String c u ->
    (skip = 0%nat \/ (skip = 1%nat /\ startswith s "p" = true) \/
     (skip = 2%nat /\ startswith s "xp" = true)) ->
    exists t' u', replace_from "exp" "" skip s = t' ++ String c u'.
Proof.
  intros He Hx Hp. induction s as [|a s IH]; intros skip t u E I.
  { destruct t; discriminate. }
  destruct I as [->|[[-> S]|[-> S]]].
  - cbn [replace_from]. destruct (startswith (String a s) "exp") eqn:M.
    + cbn [startswith] in M. apply andb_prop in M as [Ma M].
      apply Ascii.eqb_eq in Ma. subst a.
      destruct t as [|b t]; cbn [append] in E.
      * injection E as E _. subst c. discriminate.
      * injection E as _ E. cbn [append String.length Nat.pred].
        apply (IH 2%nat t u E). right. right. split; [reflexivity|].
        exact M.
    + destruct t as [|b t]; cbn [append] in E.
      * injection E as -> ->. now exists "", (replace_from "exp" "" 0 u).
      * injection E as -> E.
        destruct (IH 0%nat t u E (or_introl eq_refl)) as (t' & u' & ->).
        now exists (String b t'), u'.
  - cbn [replace_from]. cbn [startswith] in S.
    apply andb_prop in S as [Sa _]. apply Ascii.eqb_eq in Sa. subst a.
    destruct t as [|b t]; cbn [append] in E.
    + injection E as E _. subst c. discriminate.
    + injection E as _ E. apply (IH 0%nat t u E). now left.
  - cbn [replace_from]. cbn [startswith] in S.
    apply andb_prop in S as [Sa S]. apply Ascii.eqb_eq in Sa. subst a.
    destruct t as [|b t]; cbn [append] in E.
    + injection E as E _. subst c. discriminate.
    + injection E as _ E. apply (IH 1%nat t u E). right. left.
      split; [reflexivity | exact S].
Qed.

(** An entry with such a character that [int] has no use for has no run
    number. *)
Lemma stray_no_run_number (c : ascii) (t u : string) :
  Ascii.eqb "e" c = false -> Ascii.eqb "x" c = false ->
  Ascii.eqb "p" c = false ->
  is_digit c = false -> is_space c = false ->
  Ascii.eqb c "_" = false -> Ascii.eqb c "+" = false ->
  Ascii.eqb c "-" = false ->
  run_number (t ++ String c u) = Raise ValueError.
Proof.
  intros He Hx Hp Hd Hs Hu Hpl Hm.
  destruct (replace_exp_keeps c He Hx Hp (t ++ String c u) 0 t u eq_refl
              (or_introl eq_refl)) as (t' & u' & R).
  apply run_number_not_numeric; unfold replace; rewrite R.
  - destruct t'; discriminate.
  - now apply stray_not_numeric.
Qed.

Lemma has_magic_char (s : string) :
  has_magic s = true ->
  exists t c u,
    s = t ++ String c u /\
    (c = "*" \/ c = "?" \/ c = "[")%char.
Proof.
  induction s as [|a s IH]; [discriminate|]. cbn [has_magic]. intros H.
  destruct (Ascii.eqb_spec a "*") as [->|_];
    [exists "", "*"%char, s; split; [reflexivity | now left]|].
  destruct (Ascii.eqb_spec a "?") as [->|_];
    [exists "", "?"%char, s; split; [reflexivity | right; now left]|].
  destruct (Ascii.eqb_spec a "[") as [->|_];
    [exists "", "["%char, s; split; [reflexivity | right; now right]|].
  destruct (IH H) as (t & c & u & -> & Hc).
  exists (String a t), c, u. now split.
Qed.

Lemma sep_char (s : string) :
  no_sep s = false -> exists t u, s = t ++ String "/" u.
Proof.
  induction s as [|a s IH]; [discriminate|]. cbn [no_sep].
  destruct (Ascii.eqb_spec a "/") as [->|_]; [now exists "", s|].
  intros H. destruct (IH H) as (t & u & ->). now exists (String a t), u.
Qed.

(** An entry with a run number is spelled without wildcard and without
    separator. *)
Lemma run_number_plain (x : string) (k : Z) :
  run_number x = Ok k -> has_magic x = false /\ no_sep x = true.
Proof.
  intros H. split.
  - destruct (has_magic x) eqn:M; [|reflexivity].
    apply has_magic_char in M as (t & c & u & -> & [->|[->| ->]]);
      rewrite stray_no_run_number in H by reflexivity; discriminate.
  - destruct (no_sep x) eqn:M; [reflexivity|].
    apply sep_char in M as (t & u & ->).
    rewrite stray_no_run_number in H by reflexivity. discriminate.
Qed.

Lemma last_item_In {A : Type} (l : list A) (x : A) :
  last_item l = Ok x -> In x l.
Proof.
  induction l as [|a l IH]; [discriminate|].
  destruct l as [|b l]; [intros [= <-]; now left|].
  intros H. right. now apply IH.
Qed.

(** The entry [sorted(...)[-1]] yields is listed and has a run number. *)
Lemma latest_run_numbered (listing : list string) (x : string) :
  latest_run listing = Ok x ->
  In x listing /\ exists k, run_number x = Ok k.
Proof.
  unfold latest_run, sorted.
  destruct (map_result run_number listing) as [ks|] eqn:K; [|discriminate].
  destruct (LatestRun.map_result_keys run_number listing ks K) as [L H].
  intros E. apply last_item_In in E.
  apply in_map_iff in E as ([k y] & <- & E).
  apply (Permutation_in _ (sort_keyed_perm _)) in E. split.
  - now apply in_combine_r in E.
  - exists k. now apply H.
Qed.

(** ** Paths and the glob of a directory *)

Lemma rstrip_sep_name (y : string) :
  y <> "" -> no_sep y = true -> rstrip_sep (y ++ "/") = y.
Proof.
  induction y as [|c y IH]; [now intros N|]. intros _ H.
  cbn [no_sep] in H. apply andb_prop in H as [Hc Hy].
  rewrite negb_true_iff in Hc. cbn [append rstrip_sep].
  destruct y as [|b y].
  - cbn [append rstrip_sep]. now rewrite Hc.
  - rewrite IH by (discriminate || exact Hy). reflexivity.
Qed.

(** The pattern [D/t] for a directory [D] that ends in a name splits
    into [D] and [t]. *)
Lemma path_split_in_dir (x y t : string) :
  y <> "" -> no_sep y = true -> no_sep t = true ->
  path_split ((x ++ y) ++ String "/" t) = (x ++ y, t).
Proof.
  intros Ny Hy Ht. unfold path_split.
  rewrite split_last_sep_app_sep by exact Ht.
  rewrite append_assoc, rstrip_sep_app, (rstrip_sep_name y Ny Hy);
    [|rewrite (rstrip_sep_name y Ny Hy); exact Ny].
  destruct (x ++ y) eqn:E; [destruct x; simpl in E; congruence|].
  reflexivity.
Qed.

Lemma fnmatch_star_jpg (name : string) :
  fnmatch "*.jpg" name = endswith name ".jpg".
Proof.
  change (fnmatch "*.jpg" name) with (some_tail (fnmatch ".jpg") name).
  induction name as [|c name IH]; [reflexivity|].
  change (some_tail (fnmatch ".jpg") (String c name)) with
    (fnmatch ".jpg" (String c name) || some_tail (fnmatch ".jpg") name).
  rewrite IH, (fnmatch_literal ".jpg" eq_refl). reflexivity.
Qed.

(** The glob of [D/*.jpg], for a directory spelled without wildcard:
    the entries of [D] that are not hidden and end in [.jpg], joined to
    [D], in listing order; nothing when [D] cannot be listed. *)
Lemma glob_jpg (expand : string -> list string) (f : filesystem)
    (x y : string) :
  y <> "" -> no_sep y = true -> has_magic (x ++ y) = false ->
  glob expand f ((x ++ y) ++ "/*.jpg") = jpg_entries f (x ++ y).
Proof.
  intros Ny Hy M. unfold glob.
  change ((x ++ y) ++ "/*.jpg") with ((x ++ y) ++ String "/" "*.jpg").
  rewrite (path_split_in_dir x y "*.jpg" Ny Hy eq_refl).
  rewrite has_magic_app, M.
  change (has_magic (String "/" "*.jpg")) with true.
  change (has_magic "*.jpg") with true.
  change (negb (false || true)) with false. cbv iota.
  assert (Nd : String.eqb (x ++ y) "" = false).
  { apply String.eqb_neq. destruct x; simpl; [exact Ny | discriminate]. }
  rewrite Nd, andb_false_r. simpl flat_map. rewrite app_nil_r.
  unfold jpg_entries, glob1. rewrite Nd.
  change (ishidden "*.jpg") with false. cbv iota.
  destruct (Posix.listdir f (x ++ y)) as [names|e]; [|reflexivity].
  f_equal. rewrite filter_filter. apply filter_ext. intros name.
  unfold jpg. now rewrite fnmatch_star_jpg.
Qed.

(** ** The loops *)

(** The first exception of a loop body ends the loop. *)
Lemma for_all_stops {A : Type} (xs : list A) (x : A) (ys : list A)
    (body : A -> Cell unit) (s s1 : session) (e : exn) (s2 : session) :
  for_all xs body s = (Ok tt, s1) ->
  body x s1 = (Raise e, s2) ->
  for_all (xs ++ x :: ys) body s = (Raise e, s2).
Proof.
  revert s. induction xs as [|a xs IH]; intros s Hxs Hx.
  - injection Hxs as <-. cbn [app for_all]. unfold and_then.
    now rewrite Hx.
  - cbn [app for_all] in *. unfold and_then at 1 in Hxs.
    unfold and_then at 1.
    destruct (body a s) as [[[]|e'] s0]; [|discriminate].
    now apply IH.
Qed.

Section Loops.

Context (fe : frontend).

Lemma show_ok (imageName : string) (s s' : session) :
  show fe imageName s = (Ok tt, s') ->
  files s' = files s /\
  outputs s' = (outputs s ++ show_outputs [imageName])%list.
Proof.
  unfold show, and_then, display, print.
  destruct (show_outcome fe s _); [discriminate|].
  intros [= <-]. split; [reflexivity|]. simpl. now rewrite <- app_assoc.
Qed.

Lemma show_outputs_app (xs ys : list string) :
  show_outputs (xs ++ ys) = (show_outputs xs ++ show_outputs ys)%list.
Proof. unfold show_outputs. apply flat_map_app. Qed.

(** A completed run of the YOLOv7 loop: every image was counted, and the
    images shown are those met while the counter was below the limit. *)
Lemma show_limited_ok (limit : Z) :
  forall images i s j s',
    show_limited fe limit images i s = (Ok j, s') ->
    j = i + len images /\
    files s' = files s /\
    outputs s'
    = (outputs s ++ show_outputs (firstn (Z.to_nat (limit - i)) images))%list.
Proof.
  induction images as [|imageName images IH]; intros i s j s'.
  - intros [= <- <-]. unfold len. simpl. rewrite firstn_nil, app_nil_r.
    repeat split. lia.
  - cbn [show_limited]. unfold and_then at 1.
    destruct (Z.ltb_spec i limit) as [Hl|Hl].
    + destruct (show fe imageName s) as [[[]|e] s1] eqn:S; [|discriminate].
      apply show_ok in S as [F1 O1]. intros H.
      apply IH in H as (-> & F & Ho). split; [unfold len; simpl; lia|].
      split; [congruence|]. rewrite Ho, O1, <- app_assoc. f_equal.
      replace (Z.to_nat (limit - i)) with (S (Z.to_nat (limit - (i + 1))))
        by lia.
      reflexivity.
    + unfold unit_cell at 1. intros H.
      apply IH in H as (-> & F & Ho). split; [unfold len; simpl; lia|].
      split; [exact F|]. rewrite Ho.
      replace (Z.to_nat (limit - (i + 1))) with 0%nat by lia.
      replace (Z.to_nat (limit - i)) with 0%nat by lia. reflexivity.
Qed.

Lemma for_all_show_ok :
  forall images s s',
    for_all images (show fe) s = (Ok tt, s') ->
    files s' = files s /\
    outputs s' = (outputs s ++ show_outputs images)%list.
Proof.
  induction images as [|imageName images IH]; intros s s'; simpl.
  - intros [= <-]. now rewrite app_nil_r.
  - unfold and_then at 1.
    destruct (show fe imageName s) as [[[]|e] s1] eqn:S; [|discriminate].
    apply show_ok in S as [F1 O1]. intros H. apply IH in H as [F Ho].
    split; [congruence|]. rewrite Ho, O1, <- app_assoc. reflexivity.
Qed.

(** Below the limit the YOLOv7 loop is the YOLOv5 loop with a counter. *)
Lemma show_limited_for_all (limit : Z) :
  forall images i s,
    i + len images <= limit ->
    show_limited fe limit images i s
    = match for_all images (show fe) s with
      | (Ok _, s') => (Ok (i + len images), s')
      | (Raise e, s') => (Raise e, s')
      end.
Proof.
  induction images as [|imageName images IH]; intros i s L.
  - simpl. unfold unit_cell, len. simpl. f_equal. f_equal. lia.
  - unfold len in L. cbn [List.length] in L.
    cbn [show_limited for_all].
    destruct (Z.ltb_spec i limit) as [_|Hl]; [|lia].
    unfold and_then.
    destruct (show fe imageName s) as [[[]|e] s1]; [|reflexivity].
    rewrite IH by (unfold len; lia).
    destruct (for_all images (show fe) s1) as [[[]|e] s2]; [|reflexivity].
    f_equal. f_equal. unfold len. cbn [List.length]. lia.
Qed.

End Loops.

End YoloFacts.

Module YoloCells.
Import StringFacts PyFacts PathFacts UploadFacts ExpDirFacts Yolo YoloFacts
       YoloSamples.
Local Open Scope session_scope.

Lemma shown_show_outputs (images : list string) :
  shown (show_outputs images)
  = map (fun imageName => IPythonImage imageName None None) images.
Proof.
  induction images as [|imageName images IH]; [reflexivity|].
  simpl. now rewrite IH.
Qed.

(** X11.  The loop of the YOLOv7 notebook, started with its counter at
    [i]: when it completes, the counter has gone up by the number of
    images, the files are untouched, and the images shown (each followed
    by the printed ["\n"]) are the first [limit - i] images of the list, in
    order, so never more than that; the rest is counted but not shown.  As
    long as the list fits under the limit, the loop is the plain loop of
    the YOLOv5 notebook with a counter, whatever the outcome. *)
Theorem show_limited_shows_first (fe : frontend) (limit : Z) :
  (forall images i s j s',
     show_limited fe limit images i s = (Ok j, s') ->
     j = i + len images /\
     files s' = files s /\
     exists new,
       outputs s' = (outputs s ++ new)%list /\
       new = show_outputs (firstn (Z.to_nat (limit - i)) images) /\
       shown new
       = map (fun imageName => IPythonImage imageName None None)
             (firstn (Z.to_nat (limit - i)) images) /\
       len (shown new) <= Z.max 0 (limit - i)) /\
  (forall images i s,
     i + len images <= limit ->
     show_limited fe limit images i s
     = match for_all images (show fe) s with
       | (Ok _, s') => (Ok (i + len images), s')
       | (Raise e, s') => (Raise e, s')
       end).
Proof.
  split; [|apply show_limited_for_all].
  intros images i s j s' H. apply show_limited_ok in H as (J & F & Ho).
  split; [exact J|]. split; [exact F|].
  exists (show_outputs (firstn (Z.to_nat (limit - i)) images)).
  split; [exact Ho|]. split; [reflexivity|].
  split; [apply shown_show_outputs|].
  rewrite shown_show_outputs. unfold len.
  rewrite length_map, length_firstn. lia.
Qed.

Lemma show_limited_shows_first_witness :
  show_limited quiet 2 ["a.jpg"; "b.jpg"; "c.jpg"] 0 detected
  = (Ok 3,
     {| files := files detected;
        outputs := show_outputs ["a.jpg"; "b.jpg"] |}) /\
  show_limited quiet 5 ["a.jpg"; "b.jpg"; "c.jpg"] 0 detected
  = match for_all ["a.jpg"; "b.jpg"; "c.jpg"] (show quiet) detected with
    | (Ok _, s') => (Ok (0 + len ["a.jpg"; "b.jpg"; "c.jpg"]), s')
    | (Raise e, s') => (Raise e, s')
    end.
Proof.
  split; [reflexivity|].
  destruct (show_limited_shows_first quiet 5) as [_ B].
  apply (B ["a.jpg"; "b.jpg"; "c.jpg"] 0 detected). vm_compute. discriminate.
Defined.

(** X12.  The cell of the YOLOv7 notebook that shows the detections, when
    [HOME] holds no wildcard and the cell completes: the directory
    [runs/detect] was listed, [EXP_DIR] is its most recent entry, and the
    images shown are the first 10000 entries of
    [HOME/yolov7/runs/detect/EXP_DIR] whose names end in [.jpg] and do not
    start with a dot, in listing order, each followed by the printed
    ["\n"]; the counter ends at the number of such entries and the files
    are untouched. *)
Theorem show_detections_v7_shows_latest (fe : frontend) (HOME : string)
    (s s' : session) (j : Z) :
  has_magic HOME = false ->
  show_detections_v7 fe HOME s = (Ok j, s') ->
  exists listing EXP_DIR,
    Posix.listdir (files s) "runs/detect" = Ok listing /\
    latest_run listing = Ok EXP_DIR /\
    In EXP_DIR listing /\
    (EXP_DIR <> "" ->
     let found :=
       jpg_entries (files s) (HOME ++ "/yolov7/runs/detect/" ++ EXP_DIR) in
     j = len found /\
     files s' = files s /\
     outputs s'
     = (outputs s ++ show_outputs (firstn (Z.to_nat 10000) found))%list).
Proof.
  intros M. unfold show_detections_v7, and_then at 1, listdir.
  destruct (Posix.listdir (files s) "runs/detect") as [listing|e] eqn:L;
    [|discriminate].
  unfold and_then at 1, from_result.
  destruct (latest_run listing) as [EXP_DIR|e] eqn:R; [|discriminate].
  unfold and_then at 1, glob_glob. intros H.
  exists listing, EXP_DIR. split; [first [exact L | reflexivity]|].
  split; [exact R|].
  destruct (latest_run_numbered listing EXP_DIR R) as [I [k K]].
  split; [exact I|]. intros N.
  set (found :=
         jpg_entries (files s) (HOME ++ "/yolov7/runs/detect/" ++ EXP_DIR)).
  destruct (run_number_plain EXP_DIR k K) as [Me Se].
  apply show_limited_ok in H as (-> & F & Ho).
  assert (G : glob (glob_expand fe s) (files s)
                (HOME ++ "/yolov7/runs/detect/" ++ EXP_DIR ++ "/*.jpg")
              = found).
  { replace (HOME ++ "/yolov7/runs/detect/" ++ EXP_DIR ++ "/*.jpg")
      with (((HOME ++ "/yolov7/runs/detect/") ++ EXP_DIR) ++ "/*.jpg")
      by (now rewrite !append_assoc).
    rewrite glob_jpg; [unfold found; now rewrite append_assoc | exact N
                      | exact Se |].
    now rewrite !has_magic_app, M, Me. }
  rewrite G in Ho |- *. split; [lia|]. split; [exact F|]. exact Ho.
Qed.

Lemma show_detections_v7_shows_latest_witness :
  let run := show_detections_v7 quiet "/content" detected in
  fst run = Ok 2 /\
  outputs (snd run)
  = show_outputs ["/content/yolov7/runs/detect/exp2/a.jpg";
                  "/content/yolov7/runs/detect/exp2/b.jpg"].
Proof.
  intros run.
  destruct (show_detections_v7_shows_latest quiet "/content" detected
              (snd run) 2 eq_refl eq_refl)
    as (listing & EXP_DIR & L & R & _ & H).
  split; [reflexivity|].
  vm_compute in L. injection L as <-. vm_compute in R. injection R as <-.
  destruct H as (_ & _ & Ho); [discriminate|]. exact Ho.
Defined.

(** X13.  The cell of the YOLOv5 notebook that shows the detections, when
    [HOME] holds no wildcard.  If it completes, the images shown are the
    entries of [HOME/yolov5/runs/detect/exp] whose names end in [.jpg]
    and do not start with a dot, all of them, in listing order, each
    followed by the printed ["\n"], and the files are untouched; nothing
    is shown when the directory cannot be listed.  If showing an image
    raises, the cell ends with that exception, this image being the last
    call to the front end: the images after it are not shown. *)
Theorem show_detections_v5_shows_all (fe : frontend) (HOME : string)
    (s : session) :
  has_magic HOME = false ->
  let found := jpg_entries (files s) (HOME ++ "/yolov5/runs/detect/exp") in
  (forall s',
     show_detections_v5 fe HOME s = (Ok tt, s') ->
     files s' = files s /\
     outputs s' = (outputs s ++ show_outputs found)%list) /\
  (forall before imageName after s1 e,
     found = (before ++ imageName :: after)%list ->
     for_all before (show fe) s = (Ok tt, s1) ->
     show_outcome fe s1 (IPythonImage imageName None None) = Some e ->
     show_detections_v5 fe HOME s
     = (Raise e,
        log_output (DisplayImage (IPythonImage imageName None None)) s1) /\
     outputs s1 = (outputs s ++ show_outputs before)%list).
Proof.
  intros M found.
  assert (G : forall expand,
             glob expand (files s) (HOME ++ "/yolov5/runs/detect/exp/*.jpg")
             = found).
  { intros expand.
    replace (HOME ++ "/yolov5/runs/detect/exp/*.jpg")
      with (((HOME ++ "/yolov5/runs/detect/") ++ "exp") ++ "/*.jpg")
      by (now rewrite !append_assoc).
    rewrite glob_jpg; [unfold found; now rewrite append_assoc | discriminate
                      | reflexivity |].
    now rewrite !has_magic_app, M. }
  split.
  - intros s'. unfold show_detections_v5, and_then at 1, glob_glob.
    rewrite G. apply for_all_show_ok.
  - intros before imageName after s1 e E Hb He.
    split; [|now apply for_all_show_ok in Hb].
    unfold show_detections_v5, and_then at 1, glob_glob. rewrite G, E.
    apply (for_all_stops before imageName after (show fe) s s1);
      [exact Hb|].
    unfold show, and_then, display. now rewrite He.
Qed.

Lemma show_detections_v5_shows_all_witness :
  (let run := show_detections_v5 quiet "/content" detected_v5 in
   outputs (snd run)
   = show_outputs ["/content/yolov5/runs/detect/exp/a.jpg";
                   "/content/yolov5/runs/detect/exp/b.jpg"]) /\
  (let run := show_detections_v5 picky "/content" detected_v5 in
   fst run = Raise broken_image /\
   shown (outputs (snd run))
   = [IPythonImage "/content/yolov5/runs/detect/exp/a.jpg" None None;
      IPythonImage "/content/yolov5/runs/detect/exp/b.jpg" None None]).
Proof.
  split.
  - intros run.
    destruct (show_detections_v5_shows_all quiet "/content" detected_v5
                eq_refl) as [A _].
    now destruct (A (snd run) eq_refl) as [_ Ho].
  - intros run.
    destruct (show_detections_v5_shows_all picky "/content" detected_v5
                eq_refl) as [_ B].
    destruct (B ["/content/yolov5/runs/detect/exp/a.jpg"]
                "/content/yolov5/runs/detect/exp/b.jpg" []
                (snd (for_all ["/content/yolov5/runs/detect/exp/a.jpg"]
                        (show picky) detected_v5))
                broken_image eq_refl eq_refl eq_refl) as [R _].
    unfold run. rewrite R. split; reflexivity.
Defined.

End YoloCells.

(* ================================================================== *)
(** * [writetemplate] and its templates *)
(* ================================================================== *)

Module TemplateFacts.
Import StringFacts FsFacts Template.

Lemma followed_by_app (a b : string) (r : outcome string) :
  followed_by a (followed_by b r) = followed_by (a ++ b) r.
Proof.
  destruct r as [t|e]; simpl; [now rewrite append_assoc | reflexivity].
Qed.

Lemma followed_by_nil (r : outcome string) : followed_by "" r = r.
Proof. now destruct r. Qed.

Lemma is_brace_inv (c : ascii) :
  is_brace c = false -> Ascii.eqb c "{" = false /\ Ascii.eqb c "}" = false.
Proof. unfold is_brace. now destruct (Ascii.eqb c "{"), (Ascii.eqb c "}"). Qed.

(** Escaped text comes out as it went in, whatever follows. *)
Lemma format_from_escape (g : namespace) (text rest : string) :
  format_from g Literal (escape text ++ rest)
  = followed_by text (format_from g Literal rest).
Proof.
  induction text as [|c text IH]; simpl.
  - now rewrite followed_by_nil.
  - destruct (is_brace c) eqn:B; simpl; rewrite B.
    + simpl. rewrite Ascii.eqb_refl, IH. apply followed_by_app.
    + rewrite IH. apply followed_by_app.
Qed.

Lemma field_name_step_open (name : string) (c : ascii) :
  is_brace c = false ->
  exists st, field_name_step name c = Goto st /\ in_field st = true.
Proof.
  intros B. apply is_brace_inv in B as [Bo Bc]. unfold field_name_step.
  rewrite Bo, Bc.
  destruct (Ascii.eqb c "["); [now eexists|].
  destruct (Ascii.eqb c ":"); [now eexists|].
  destruct (Ascii.eqb c "!"); now eexists.
Qed.

(** A field that is not closed: only a closing brace ends a field. *)
Lemma format_from_open (g : namespace) (rest : string) :
  no_brace rest = true ->
  forall st, in_field st = true ->
  format_from g st rest = Raises (Builtin ValueError).
Proof.
  unfold no_brace.
  induction rest as [|c rest IH]; simpl; intros N st I.
  - now destruct st.
  - apply andb_prop in N as [B N]. apply negb_true_iff in B.
    destruct (is_brace_inv c B) as [Bo Bc].
    destruct st as [|b|name|name|name|name conv|name conv count spec];
      try discriminate; simpl.
    + destruct (field_name_step_open name c B) as (st & -> & J).
      now apply IH.
    + destruct (Ascii.eqb c "]"); now apply IH.
    + now apply IH.
    + destruct (is_lead conv && is_continuation c); [now apply IH|].
      rewrite Bc. destruct (Ascii.eqb c ":"); [now apply IH | reflexivity].
    + rewrite Bo, Bc. now apply IH.
Qed.

(** After an opening brace that is not doubled, the field name starts. *)
Lemma format_from_brace (g : namespace) (s : string) :
  startswith s "{" = false ->
  format_from g (Brace "{") s = format_from g (FieldName "") s.
Proof.
  destruct s as [|c s]; [reflexivity|].
  cbn [startswith]. rewrite andb_true_r, Ascii.eqb_sym. intros H.
  cbn [format_from step]. rewrite H.
  now replace (Ascii.eqb "{" "}") with false by reflexivity.
Qed.

Lemma keyword_char_inv (c : ascii) :
  keyword_char c = true ->
  is_brace c = false /\ Ascii.eqb c "[" = false /\ Ascii.eqb c ":" = false /\
  Ascii.eqb c "!" = false /\ Ascii.eqb c "." = false.
Proof.
  unfold keyword_char. intros H. apply negb_true_iff in H.
  apply orb_false_elim in H as [H Hd]. apply orb_false_elim in H as [H He].
  apply orb_false_elim in H as [H Hc]. apply orb_false_elim in H as [H Hb].
  now repeat split.
Qed.

Lemma format_from_field_name (g : namespace) (name rest : string) :
  every keyword_char name = true ->
  forall acc,
  format_from g (FieldName acc) (name ++ String "}" rest)
  = match output_field g (acc ++ name) None "" with
    | Returns text => followed_by text (format_from g Literal rest)
    | Raises e => Raises e
    end.
Proof.
  induction name as [|c name IH]; simpl; intros K acc.
  - now rewrite append_nil_r.
  - apply andb_prop in K as [Kc K].
    apply keyword_char_inv in Kc as (B & Kb & Kd & Ke & _).
    apply is_brace_inv in B as [Bo Bc].
    unfold field_name_step. rewrite Bo, Bc, Kb, Kd, Ke.
    rewrite (IH K). unfold append_char.
    now rewrite append_assoc.
Qed.

Lemma field_name_split_keyword (name : string) :
  every keyword_char name = true -> field_name_split name = (name, "").
Proof.
  induction name as [|c name IH]; simpl; [reflexivity|].
  intros K. apply andb_prop in K as [Kc K].
  apply keyword_char_inv in Kc as (_ & -> & _ & _ & ->).
  simpl. now rewrite (IH K).
Qed.

(** A keyword stands for the global of that name. *)
Lemma output_field_keyword (g : namespace) (name : string) :
  keyword name = true ->
  output_field g name None ""
  = match global g name with
    | None => Raises (KeyError name)
    | Some v => format_value v
    end.
Proof.
  unfold keyword. intros K. apply andb_prop in K as [K A].
  apply andb_prop in K as [D K].
  unfold output_field. rewrite (field_name_split_keyword name K), A.
  destruct name as [|c name]; [discriminate|].
  apply negb_true_iff in D.
  cbn [negb get_integer get_integer_from String.eqb]. now rewrite D.
Qed.

Lemma keyword_no_open (name rest : string) :
  keyword name = true -> startswith (name ++ String "}" rest) "{" = false.
Proof.
  unfold keyword. intros K. apply andb_prop in K as [K _].
  apply andb_prop in K as [_ K].
  destruct name as [|c name]; [reflexivity|].
  cbn [every append startswith] in *. apply andb_prop in K as [Kc _].
  apply keyword_char_inv in Kc as (B & _).
  apply is_brace_inv in B as [Bo _].
  rewrite andb_true_r. rewrite Ascii.eqb_sym. exact Bo.
Qed.

Lemma no_brace_head (rest : string) :
  no_brace rest = true ->
  startswith rest "{" = false /\ startswith rest "}" = false.
Proof.
  destruct rest as [|c rest]; [now split|].
  unfold no_brace. cbn [every startswith]. intros N.
  apply andb_prop in N as [B _]. apply negb_true_iff in B.
  apply is_brace_inv in B as [Bo Bc].
  rewrite !andb_true_r, (Ascii.eqb_sym "{"), (Ascii.eqb_sym "}").
  now split.
Qed.



End TemplateFacts.

Module WriteTemplate.
Import StringFacts FsFacts Template TemplateFacts TemplateSamples.

(** X14.  Braces in a template: text whose braces are doubled comes out
    as it was, without any global being looked at; so a text without
    braces is written as it stands.  A single brace that nothing matches,
    after such text and before a rest without braces, raises
    [ValueError], and an empty pair of braces raises [IndexError],
    whatever follows: there are no positional arguments. *)
Theorem format_escaped_text (g : namespace) (text : string) :
  format g (escape text) = Returns text /\
  (no_brace text = true -> format g text = Returns text) /\
  (forall rest,
     no_brace rest = true ->
     format g (escape text ++ "{" ++ rest) = Raises (Builtin ValueError) /\
     format g (escape text ++ "}" ++ rest) = Raises (Builtin ValueError)) /\
  (forall rest,
     format g (escape text ++ "{}" ++ rest) = Raises (Builtin IndexError)).
Proof.
  assert (E : format g (escape text) = Returns text).
  { unfold format. rewrite <- (append_nil_r (escape text)).
    rewrite format_from_escape. simpl. now rewrite append_nil_r. }
  split; [exact E|]. split; [|split].
  - intros N. rewrite <- E at 1. f_equal.
    clear E. unfold no_brace in N.
    induction text as [|c text IH]; [reflexivity|].
    cbn [every escape] in *.
    apply andb_prop in N as [B N]. apply negb_true_iff in B.
    rewrite B. now rewrite <- IH.
  - intros rest N. unfold format. rewrite !format_from_escape.
    destruct (no_brace_head rest N) as [So Sc]. split.
    + change (format_from g Literal ("{" ++ rest))
        with (format_from g (Brace "{") rest).
      rewrite (format_from_brace g rest So).
      now rewrite (format_from_open g rest N (FieldName "")).
    + change (format_from g Literal ("}" ++ rest))
        with (format_from g (Brace "}") rest).
      destruct rest as [|c rest]; [reflexivity|].
      cbn [startswith] in Sc. rewrite andb_true_r, Ascii.eqb_sym in Sc.
      cbn [format_from step]. rewrite Sc.
      now replace (Ascii.eqb "}" "}") with true by reflexivity.
  - intros rest. unfold format. now rewrite format_from_escape.
Qed.

Lemma format_escaped_text_witness :
  format notebook_globals "anchors:" = Returns "anchors:" /\
  format notebook_globals ("nc: 3  # " ++ "{" ++ "number of classes")
  = Raises (Builtin ValueError).
Proof.
  destruct (format_escaped_text notebook_globals "anchors:") as (_ & A & _).
  split; [now apply A|].
  destruct (format_escaped_text notebook_globals "nc: 3  # ")
    as (_ & _ & B & _).
  now apply (B "number of classes").
Defined.

(** X15.  A replacement field that only names a global, by a name in
    ASCII that does not start with a digit, after text whose braces are
    doubled: when there is no such global the call raises [KeyError] with
    the name, whatever the rest of the template holds; otherwise the text,
    then the value as [format(value, "")] gives it, then whatever the rest
    of the template gives. *)
Theorem format_keyword_field (g : namespace) (text name rest : string) :
  keyword name = true ->
  format g (escape text ++ "{" ++ name ++ "}" ++ rest)
  = match global g name with
    | None => Raises (KeyError name)
    | Some v =>
        match format_value v with
        | Returns shown => followed_by (text ++ shown) (format g rest)
        | Raises e => Raises e
        end
    end.
Proof.
  intros K. unfold format. rewrite format_from_escape.
  change (format_from g Literal ("{" ++ name ++ "}" ++ rest))
    with (format_from g (Brace "{") (name ++ String "}" rest)).
  rewrite format_from_brace by now apply keyword_no_open.
  assert (C : every keyword_char name = true).
  { unfold keyword in K. apply andb_prop in K as [K _].
    now apply andb_prop in K. }
  rewrite (format_from_field_name g name rest C ""). cbn [append].
  rewrite (output_field_keyword g name K).
  destruct (global g name) as [v|]; [|reflexivity].
  destruct (format_value v) as [shown|e]; [|reflexivity].
  apply followed_by_app.
Qed.

Lemma format_keyword_field_witness :
  format notebook_globals parameters
  = Returns
      (String.concat Yolo.newline
         ["";
          "# parameters";
          "nc: 3  # number of classes";
          "depth_multiple: 0.33  # model depth multiple";
          "width_multiple: 0.50  # layer channel multiple";
          ""]) /\
  format early_globals parameters = Raises (KeyError "num_classes").
Proof.
  pose (text := String.concat Yolo.newline [""; "# parameters"; "nc: "]).
  pose (rest :=
          String.concat Yolo.newline
            ["  # number of classes";
             "depth_multiple: 0.33  # model depth multiple";
             "width_multiple: 0.50  # layer channel multiple";
             ""]).
  split.
  - exact (format_keyword_field notebook_globals text "num_classes" rest
             eq_refl).
  - exact (format_keyword_field early_globals text "num_classes" rest
             eq_refl).
Defined.



End WriteTemplate.
